(** * Adversarial-example utilities ([lib/utils.py]): a verification development

    The Python module builds adversarial perturbations against an image
    classifier ([fg], [iterative]), derives and validates region masks
    ([find_sign_area], [check_mask]), filters attackable samples
    ([filter_samples]) and scores attacks ([eval_adv]).

    Numbers are IEEE-754 values, as numpy has them: samples, gradients and
    attack outputs are [float32] arrays, area ratios and success rates are
    [float64] scalars.  Both formats are instances of the Standard Library's
    [spec_float], so NaN, the infinities and the signed zeros are part of the
    model.  Arrays are nested lists in C (row-major) order. *)

From Stdlib Require Import String.
From Stdlib Require Import ZArith List Bool Lia.
From Stdlib Require QArith.
Import QArith_base.
Close Scope Q_scope.
From Stdlib Require Import Sorting.Sorted Sorting.Permutation.
From Stdlib Require Import Floats.SpecFloat.
Import ListNotations.

Set Implicit Arguments.

(** ** IEEE-754 scalars *)

(** numpy [float32]: 24 bits of precision, exponent of infinity 128. *)
Module F32.
Definition prec : Z := 24.
Definition emax : Z := 128.

Definition t := spec_float.

Definition add : t -> t -> t := SFadd prec emax.
Definition mul : t -> t -> t := SFmul prec emax.
Definition div : t -> t -> t := SFdiv prec emax.
Definition sqrt : t -> t := SFsqrt prec emax.
Definition of_Z (n : Z) : t := binary_normalize prec emax n 0 false.

Definition ltb : t -> t -> bool := SFltb.
Definition leb : t -> t -> bool := SFleb.
Definition eqb : t -> t -> bool := SFeqb.

Definition zero : t := S754_zero false.
Definition one : t := Eval cbv in of_Z 1.
Definition minus_one : t := Eval cbv in of_Z (-1).

Definition is_nan (x : t) : bool :=
  match x with S754_nan => true | _ => false end.

Definition is_zero (x : t) : bool :=
  match x with S754_zero _ => true | _ => false end.

(** Neither NaN nor an infinity. *)
Definition is_finite (x : t) : bool :=
  match x with S754_zero _ | S754_finite _ _ _ => true | _ => false end.

(** [np.maximum] and [np.minimum]: the larger (smaller) operand, NaN if
    either operand is NaN. *)
Definition maximum (a b : t) : t :=
  if leb b a || is_nan a then a else b.
Definition minimum (a b : t) : t :=
  if leb a b || is_nan a then a else b.

(** [np.clip(a, lo, hi)], which numpy documents as
    [np.minimum(hi, np.maximum(a, lo))]; a NaN entry stays NaN. *)
Definition clip (lo hi a : t) : t := minimum (maximum a lo) hi.

(** The closed interval [[0,1]], by IEEE comparison (so never NaN). *)
Definition in01 (x : t) : bool := leb zero x && leb x one.
End F32.

(** numpy [float64] / Python [float]. *)
Module F64.
Definition prec : Z := 53.
Definition emax : Z := 1024.

Definition t := spec_float.

Definition div : t -> t -> t := SFdiv prec emax.
(** Conversion of an integer, rounding to nearest-even beyond 2^53. *)
Definition of_Z (n : Z) : t := binary_normalize prec emax n 0 false.

Definition ltb : t -> t -> bool := SFltb.
Definition leb : t -> t -> bool := SFleb.
Definition eqb : t -> t -> bool := SFeqb.
End F64.

(** ** Python exceptions and the error monad *)

Inductive exn : Type :=
| ZeroDivisionError
| IndexError.

Definition result (A : Type) : Type := (exn + A)%type.

Definition ret {A} (a : A) : result A := inr a.
Definition raise {A} (e : exn) : result A := inl e.
Definition bind {A B} (c : result A) (k : A -> result B) : result B :=
  match c with
  | inl e => inl e
  | inr a => k a
  end.

Notation "x <- c ;; k" := (bind c (fun x => k))
  (at level 61, c at next level, right associativity).

(** [l[i]]: Python raises [IndexError] past the end. *)
Definition getitem {A} (l : list A) (i : nat) : result A :=
  match nth_error l i with
  | Some a => ret a
  | None => raise IndexError
  end.

(** [try: c  except ZeroDivisionError: raise] re-raises what it catches, and
    lets everything else through. *)
Definition try_reraise_ZeroDivisionError {A} (c : result A) : result A :=
  match c with
  | inl ZeroDivisionError => raise ZeroDivisionError
  | other => other
  end.

(** ** Arrays *)

Section Elementwise.
Variables A B C : Type.

(** Elementwise combination of two equally long lists.  On lists of
    different lengths it stops at the shorter one, where numpy broadcasts or
    raises [ValueError]: it follows the program on arrays of one shape
    only. *)
Fixpoint map2 (f : A -> B -> C) (l : list A) (l' : list B) : list C :=
  match l, l' with
  | a :: t, b :: t' => f a b :: map2 f t t'
  | _, _ => []
  end.
End Elementwise.

(** [l[i] = v] on a preallocated list ([i] is always in range where the
    program uses it; past the end numpy would raise). *)
Fixpoint upd {A} (i : nat) (v : A) (l : list A) : list A :=
  match l, i with
  | [], _ => []
  | _ :: t, O => v :: t
  | a :: t, S i' => a :: upd i' v t
  end.

(** A sample or gradient: shape (height, width, channel). *)
Definition sample := list (list (list F32.t)).
(** A per-sample mask of 0s and 1s: shape (height, width). *)
Definition mask2 := list (list F32.t).
(** A one-hot label: shape (NUM_LABELS). *)
Definition label := list F32.t.

Definition map3 {A B} (f : A -> B) : list (list (list A)) -> list (list (list B)) :=
  map (map (map f)).
Definition zip3 {A B C} (f : A -> B -> C)
  : list (list (list A)) -> list (list (list B)) -> list (list (list C)) :=
  map2 (map2 (map2 f)).

(** The parameter file ([parameters_yolo.py]; [utils.py] imports it under
    the name [parameters]). *)
Definition N_CHANNEL : nat := 3.
Definition NUM_LABELS : nat := 43.

(** [np.repeat(mask[i, :, :, np.newaxis], N_CHANNEL, axis=2)] *)
Definition mask_rep (m : mask2) : sample :=
  map (map (fun v => repeat v N_CHANNEL)) m.

(** [np.linalg.norm(grad)]: the square root of the dot product of the
    flattened array with itself, accumulated in index order.  (A BLAS dot
    product may add the squares in another order and differ in the last
    bit; the statements below turn on whether the norm is zero, NaN or
    finite, not on that bit.) *)
Definition sum_sq (l : list F32.t) : F32.t :=
  fold_left (fun acc v => F32.add acc (F32.mul v v)) l F32.zero.
Definition norm (g : sample) : F32.t :=
  F32.sqrt (sum_sq (concat (concat g))).

(** [grad /= n].  numpy divides by IEEE-754 rules: a zero divisor yields
    infinities or NaN (and a RuntimeWarning), never a Python exception. *)
Definition idiv (g : sample) (n : F32.t) : result sample :=
  ret (map3 (fun v => F32.div v n) g).

(** An array of any rank, as numpy stores it: the shape and the flat buffer
    in C order.  [eval_adv] and [filter_samples] take their batches in this
    form, since they depend on the rank and on axis 0 only. *)
Record ndarray : Type := { shape : list nat; data : list F32.t }.

(** [a.ndim] *)
Definition ndim (a : ndarray) : nat := length (shape a).

(** Number of entries of an array of shape [sh]. *)
Definition size_of (sh : list nat) : nat := fold_right Nat.mul 1 sh.

(** [a[k]] along axis 0. *)
Definition subarray (sh : list nat) (buf : list F32.t) (k : nat) : ndarray :=
  {| shape := sh; data := firstn (size_of sh) (skipn (k * size_of sh) buf) |}.

(** [for x in a]: the sub-arrays along axis 0, in index order. *)
Definition subarrays (a : ndarray) : list ndarray :=
  match shape a with
  | [] => []
  | n :: sh => map (subarray sh (data a)) (seq 0 n)
  end.

(** [len(a)] *)
Definition len (a : ndarray) : nat := hd 0 (shape a).

(** Buffer and shape agree. *)
Definition well_formed (a : ndarray) : Prop :=
  length (data a) = size_of (shape a).

(** ** The model collaborator ([lib/keras_utils], Keras)

    [predict] maps a batch to per-class scores, one row per sample;
    [gradient_input] is [gradient_input(gradient_fn(model), x, y)], the
    gradient of the loss with respect to the input. *)
Record Model : Type := {
  predict : ndarray -> list (list F32.t);
  gradient_input : sample -> label -> sample
}.

(** ** The attacks *)

Definition zeros_like (x : sample) : sample := map3 (fun _ => F32.zero) x.

(** [x_adv[j, i] = v] *)
Definition upd2 {A} (j i : nat) (v : A) (a : list (list A)) : list (list A) :=
  upd j (upd i v (nth j a [])) a.

(** [np.clip(x, 0, 1)] on one sample. *)
Definition clip01 (x : sample) : sample := map3 (F32.clip F32.zero F32.one) x.

(** [-1 * g] *)
Definition negate (g : sample) : sample := map3 (F32.mul F32.minus_one) g.

(** [x + grad * mag] *)
Definition step (x grad : sample) (mag : F32.t) : sample :=
  zip3 F32.add x (map3 (fun g => F32.mul g mag) grad).

(** [try: grad /= np.linalg.norm(grad)  except ZeroDivisionError: raise] *)
Definition normalize (grad : sample) : result sample :=
  try_reraise_ZeroDivisionError (idiv grad (norm grad)).

Module Fg.
(** Lines 333-336: [if target: grad = -1 * gradient_input(...) else ...]. *)
Definition retrieve_gradient (m : Model) (target : bool)
    (x_in : sample) (y_i : label) : sample :=
  if target then negate (gradient_input m x_in y_i)
  else gradient_input m x_in y_i.

(** Lines 339-341: [if mask is not None: grad *= mask_rep]. *)
Definition apply_mask (mask : option (list mask2)) (i : nat) (grad : sample)
  : result sample :=
  match mask with
  | Some mk => mi <- getitem mk i ;; ret (zip3 F32.mul grad (mask_rep mi))
  | None => ret grad
  end.

(** Lines 349-350: [for j, mag in enumerate(mag_list): x_adv[j, i] = ...]. *)
Fixpoint store (j : nat) (mags : list F32.t) (i : nat) (x_in grad : sample)
    (x_adv : list (list sample)) : list (list sample) :=
  match mags with
  | [] => x_adv
  | mag :: rest =>
      store (S j) rest i x_in grad (upd2 j i (step x_in grad mag) x_adv)
  end.

(** Lines 332-341: the signed gradient of sample [i], masked if a mask is
    given. *)
Definition masked_gradient (m : Model) (y : list label) (target : bool)
    (mask : option (list mask2)) (i : nat) (x_in : sample) : result sample :=
  y_i <- getitem y i ;;
  apply_mask mask i (retrieve_gradient m target x_in y_i).

(** Lines 330-350: the loop over [enumerate(x)], from index [i] on. *)
Fixpoint loop (m : Model) (y : list label) (mag_list : list F32.t)
    (target : bool) (mask : option (list mask2))
    (i : nat) (xs : list sample) (x_adv : list (list sample))
  : result (list (list sample)) :=
  match xs with
  | [] => ret x_adv
  | x_in :: rest =>
      grad <- masked_gradient m y target mask i x_in ;;
      grad <- normalize grad ;;
      loop m y mag_list target mask (S i) rest
           (store 0 mag_list i x_in grad x_adv)
  end.
End Fg.

(** [fg(model, x, y, mag_list, target=True, mask=None)]; the result has shape
    (n_mag, n_sample, height, width, n_channel).  Progress printing is left
    out. *)
Definition fg (m : Model) (x : list sample) (y : list label)
    (mag_list : list F32.t) (target : bool) (mask : option (list mask2))
  : result (list (list sample)) :=
  let x_adv := repeat (map zeros_like x) (length mag_list) in
  x_adv <- Fg.loop m y mag_list target mask 0 x x_adv ;;
  ret (map (map clip01) x_adv).

Module Iterative.
(** Lines 405-408: [if target is not None: grad = -1 * gradient_input(...)
    else ...].  The flag is compared with [None], so it is modelled as an
    optional boolean. *)
Definition retrieve_gradient (m : Model) (target : option bool)
    (x_cur : sample) (y_i : label) : sample :=
  match target with
  | Some _ => negate (gradient_input m x_cur y_i)
  | None => gradient_input m x_cur y_i
  end.

(** Lines 411-412: [if mask is not None: grad *= mask_rep]. *)
Definition apply_mask (mask_rep_i : option sample) (grad : sample) : sample :=
  match mask_rep_i with
  | Some mr => zip3 F32.mul grad mr
  | None => grad
  end.

(** Lines 405-412: the signed gradient at the current point, masked if a
    mask is given. *)
Definition masked_gradient (m : Model) (y : list label) (i : nat)
    (target : option bool) (mask_rep_i : option sample) (x_cur : sample)
  : result sample :=
  y_i <- getitem y i ;;
  ret (apply_mask mask_rep_i (retrieve_gradient m target x_cur y_i)).

(** Lines 404-422: [for _ in range(n_step)]. *)
Fixpoint steps (m : Model) (y : list label) (i : nat) (step_size : F32.t)
    (target : option bool) (mask_rep_i : option sample)
    (n_step : nat) (x_cur : sample) : result sample :=
  match n_step with
  | O => ret x_cur
  | S k =>
      grad <- masked_gradient m y i target mask_rep_i x_cur ;;
      grad <- normalize grad ;;
      steps m y i step_size target mask_rep_i k
            (clip01 (step x_cur grad step_size))
  end.

(** Lines 401-402: [mask_rep] is built once per sample. *)
Definition get_mask_rep (mask : option (list mask2)) (i : nat)
  : result (option sample) :=
  match mask with
  | Some mk => mi <- getitem mk i ;; ret (Some (mask_rep mi))
  | None => ret None
  end.

(** Lines 399-422: what sample [i] goes through. *)
Definition attack_sample (m : Model) (y : list label) (n_step : nat)
    (step_size : F32.t) (target : option bool) (mask : option (list mask2))
    (i : nat) (x_in : sample) : result sample :=
  mr <- get_mask_rep mask i ;;
  steps m y i step_size target mr n_step x_in.

(** Lines 397-424: the loop over [enumerate(x)], from index [i] on. *)
Fixpoint loop (m : Model) (y : list label) (n_step : nat) (step_size : F32.t)
    (target : option bool) (mask : option (list mask2))
    (i : nat) (xs : list sample) (x_adv : list sample)
  : result (list sample) :=
  match xs with
  | [] => ret x_adv
  | x_in :: rest =>
      x_cur <- attack_sample m y n_step step_size target mask i x_in ;;
      loop m y n_step step_size target mask (S i) rest (upd i x_cur x_adv)
  end.
End Iterative.

(** [iterative(model, x, y, n_step=20, step_size=0.05, target=True,
    mask=None)]; the result has the shape of [x]. *)
Definition iterative (m : Model) (x : list sample) (y : list label)
    (n_step : nat) (step_size : F32.t) (target : option bool)
    (mask : option (list mask2)) : result (list sample) :=
  Iterative.loop m y n_step step_size target mask 0 x (map zeros_like x).

(** ** Class vectors *)

(** [np.argmax] of one row: the first index of the largest entry, a NaN
    counting as largest.  (numpy rejects an empty row; label and score rows
    have [NUM_LABELS] entries.) *)
Fixpoint argmax_from (best : F32.t) (best_i i : nat) (l : list F32.t) : nat :=
  match l with
  | [] => best_i
  | v :: t =>
      if F32.is_nan best then best_i
      else if negb (F32.leb v best) then argmax_from v i (S i) t
      else argmax_from best best_i (S i) t
  end.

Definition argmax (row : list F32.t) : nat :=
  match row with
  | [] => 0
  | v :: t => argmax_from v 0 1 t
  end.

(** [to_class(y)]: [np.argmax(y, axis=1)]. *)
Definition to_class (y : list (list F32.t)) : list nat := map argmax y.

(** [np.where(a != b)[0]] and [np.where(a == b)[0]] for class vectors of one
    length: the positions, in increasing order, where the test holds. *)
Fixpoint where_from (i : nat) (flags : list bool) : list nat :=
  match flags with
  | [] => []
  | b :: t => if b then i :: where_from (S i) t else where_from (S i) t
  end.

Definition where_ne (a b : list nat) : list nat :=
  where_from 0 (map2 (fun u v => negb (Nat.eqb u v)) a b).
Definition where_eq (a b : list nat) : list nat :=
  where_from 0 (map2 Nat.eqb a b).

(** [np.sum(a == b)] and [np.sum(a != b)], for class vectors of one length
    (numpy would broadcast a vector of length 1 against a longer one). *)
Definition count_true (flags : list bool) : Z :=
  Z.of_nat (length (filter (fun b => b) flags)).
Definition count_eq (a b : list nat) : Z := count_true (map2 Nat.eqb a b).
Definition count_ne (a b : list nat) : Z :=
  count_true (map2 (fun u v => negb (Nat.eqb u v)) a b).

(** ** [filter_samples] *)

(** [np.sort] on an integer vector. *)
Fixpoint insert_sorted (n : nat) (l : list nat) : list nat :=
  match l with
  | [] => [n]
  | h :: t => if n <=? h then n :: l else h :: insert_sorted n t
  end.
Definition np_sort (l : list nat) : list nat := fold_right insert_sorted [] l.

(** [np.unique]: sort, then keep each entry that differs from its
    predecessor. *)
Fixpoint drop_repeats (l : list nat) : list nat :=
  match l with
  | a :: (b :: _) as t => if a =? b then drop_repeats t else a :: drop_repeats t
  | _ => l
  end.
Definition np_unique (l : list nat) : list nat := drop_repeats (np_sort l).

(** Membership test on index vectors. *)
Definition mem (k : nat) (ids : list nat) : bool := existsb (Nat.eqb k) ids.

(** [np.delete(rows, ids, axis=0)] on a list of rows. *)
Definition delete_rows {A} (rows : list A) (ids : list nat) : list A :=
  map snd (filter (fun p => negb (mem (fst p) ids))
                  (combine (seq 0 (length rows)) rows)).

(** [np.delete(a, ids, axis=0)] on an array of rank at least 1. *)
Definition np_delete (a : ndarray) (ids : list nat) : ndarray :=
  match shape a with
  | [] => a
  | n :: sh =>
      let kept := delete_rows (subarrays a) ids in
      {| shape := length kept :: sh; data := flat_map data kept |}
  end.

(** [filter_samples(model, x, y, y_target=None)], for a batch with one label
    and one prediction per sample (and one target label, if given); on
    vectors of other lengths numpy broadcasts the comparison and
    [np.delete] may raise. *)
Definition filter_samples (m : Model) (x : ndarray) (y : list label)
    (y_target : option (list label)) : ndarray * list label * list nat :=
  let y_ := to_class (predict m x) in
  let y_true := to_class y in
  let del_id := where_ne y_ y_true in
  let del_id :=
    match y_target with
    | Some yt => del_id ++ where_eq y_ (to_class yt)
    | None => del_id
    end in
  let del_id := np_sort (np_unique del_id) in
  (np_delete x del_id, delete_rows y del_id, del_id).

(** ** [eval_adv] *)

(** What a call hands back: a float, a list of floats, or [None]. *)
Inductive pyvalue : Type :=
| PyFloat (r : F64.t)
| PyList (l : list F64.t)
| PyNone.

(** [count / float(n_sample)] *)
Definition rate (count : Z) (n_sample : nat) : F64.t :=
  F64.div (F64.of_Z count) (F64.of_Z (Z.of_nat n_sample)).

(** [np.sum(y_t == y_)] for a targeted attack, [np.sum(y_t != y_)]
    otherwise. *)
Definition successes (target : bool) (y_t y_ : list nat) : Z :=
  if target then count_eq y_t y_ else count_ne y_t y_.

Module EvalAdv.
(** Lines 266-271: [for _, x in enumerate(x_adv): suc_rate.append(...)]. *)
Fixpoint loop (m : Model) (y_t : list nat) (n_sample : nat) (target : bool)
    (xs : list ndarray) (suc_rate : list F64.t) : list F64.t :=
  match xs with
  | [] => suc_rate
  | x :: rest =>
      let y_ := to_class (predict m x) in
      loop m y_t n_sample target rest
           (suc_rate ++ [rate (successes target y_t y_) n_sample])
  end.
End EvalAdv.

(** [eval_adv(model, x_adv, y, target=True)]: the lines printed and the
    value returned, for a model that gives one prediction per label (numpy
    would broadcast the comparison of class vectors of other lengths). *)
Definition eval_adv (m : Model) (x_adv : ndarray) (y : list label)
    (target : bool) : list string * pyvalue :=
  let n_sample := length y in
  let y_t := to_class y in
  if ndim x_adv =? 4 then
    let y_ := to_class (predict m x_adv) in
    ([], PyFloat (rate (successes target y_t y_) n_sample))
  else if ndim x_adv =? 5 then
    ([], PyList (EvalAdv.loop m y_t n_sample target (subarrays x_adv) []))
  else
    (["Incorrect format for x_adv."%string], PyNone).

(** ** The success rate in the words of the specification *)

(** How many of the samples have classes that [P] relates: the label's
    class first, the predicted class second. *)
Definition count_where (P : nat -> nat -> bool) (y_t y_ : list nat) : nat :=
  length (filter (fun i => P (nth i y_t 0) (nth i y_ 0)) (seq 0 (length y_t))).

(** The matching (targeted) or non-matching (untargeted) prediction count,
    divided by the number of labels. *)
Definition count_over_labels (target : bool) (y_t y_ : list nat) : F64.t :=
  let count :=
    if target then count_where Nat.eqb y_t y_
    else count_where (fun u v => negb (u =? v)) y_t y_ in
  F64.div (F64.of_Z (Z.of_nat count)) (F64.of_Z (Z.of_nat (length y_t))).

(** ** Masks: [check_mask] and [find_sign_area] *)

(** A 2-D integer array (numpy [int64]): a full-resolution mask or a label
    image. *)
Definition int_image (A : Type) := list (list A).

(** [a.shape[0]] and [a.shape[1]] of a 2-D array given by its rows. *)
Definition height {A} (a : int_image A) : nat := length a.
Definition width {A} (a : int_image A) : nat := length (hd [] a).

(** All rows have the width of the first. *)
Definition rectangular {A} (a : int_image A) : Prop :=
  Forall (fun row => length row = width a) a.

(** Threshold for checking mask area: the doubles written [0.1] and [0.9],
    that is, the doubles nearest to 1/10 and 9/10. *)
Definition MASK_THRES_MIN : F64.t :=
  Eval cbv in F64.div (F64.of_Z 1) (F64.of_Z 10).
Definition MASK_THRES_MAX : F64.t :=
  Eval cbv in F64.div (F64.of_Z 9) (F64.of_Z 10).

(** [np.sum(mask)] *)
Definition np_sum (mask : int_image Z) : Z := fold_right Z.add 0%Z (concat mask).

(** [np.sum(mask) / float(mask.shape[0] * mask.shape[1])] *)
Definition area_ratio (mask : int_image Z) : F64.t :=
  F64.div (F64.of_Z (np_sum mask))
          (F64.of_Z (Z.of_nat (height mask * width mask))).

(** [check_mask(mask)] *)
Definition check_mask (mask : int_image Z) : bool :=
  let area_ratio := area_ratio mask in
  F64.ltb MASK_THRES_MIN area_ratio && F64.ltb area_ratio MASK_THRES_MAX.

(** [np.bincount(v)]: how often each of 0 .. max(v) occurs; empty for an
    empty [v]. *)
Definition bincount (v : list nat) : list Z :=
  match v with
  | [] => []
  | _ => map (fun k => Z.of_nat (count_occ Nat.eq_dec v k))
             (seq 0 (S (list_max v)))
  end.

(** [np.argmax] on an integer vector: the first index of the maximum. *)
Fixpoint argmax_Z_from (best : Z) (best_i i : nat) (l : list Z) : nat :=
  match l with
  | [] => best_i
  | v :: t =>
      if (best <? v)%Z then argmax_Z_from v i (S i) t
      else argmax_Z_from best best_i (S i) t
  end.
Definition argmax_Z (l : list Z) : nat :=
  match l with
  | [] => 0
  | v :: t => argmax_Z_from v 0 1 t
  end.

(** [l[i] = v] with Python's bounds check. *)
Definition setitem {A} (l : list A) (i : nat) (v : A) : result (list A) :=
  if i <? length l then ret (upd i v l) else raise IndexError.

Section FindSignArea.
(** The image-processing collaborators: [skimage.feature.canny],
    [scipy.ndimage.binary_fill_holes] and [scipy.ndimage.label] (label 0 is
    the background).  They are taken on images that have pixels: [canny]
    refuses an image without any ([ValueError]) before anything is
    counted. *)
Variable canny : int_image F32.t -> F32.t -> int_image bool.
Variable binary_fill_holes : int_image bool -> int_image bool.
Variable ndi_label : int_image bool -> int_image nat * nat.

(** [find_sign_area(image, sigma=1)] *)
Definition find_sign_area (image : int_image F32.t) (sigma : F32.t)
  : result (int_image Z) :=
  let edges := canny image sigma in
  let fill := binary_fill_holes edges in
  let label_objects := fst (ndi_label fill) in
  let sizes := bincount (concat label_objects) in
  let mask_sizes := map (fun _ => 0%Z) sizes in
  sizes <- setitem sizes 0 0%Z ;;
  mask_sizes <- setitem mask_sizes (argmax_Z sizes) 1%Z ;;
  let cleaned := map (map (fun l => nth l mask_sizes 0%Z)) label_objects in
  ret cleaned.
End FindSignArea.

(** ** Concrete inputs used by the examples below *)

(** A model whose loss gradient is 1 at every input entry. *)
Definition ones_model : Model :=
  {| predict := fun _ => [];
     gradient_input := fun x _ => map3 (fun _ => F32.one) x |}.

(** A model whose loss gradient vanishes everywhere. *)
Definition flat_model : Model :=
  {| predict := fun _ => [];
     gradient_input := fun x _ => zeros_like x |}.

(** One 1x1 RGB sample, with its one-hot label. *)
Definition pixel_half : F32.t := Eval cbv in F32.div F32.one (F32.of_Z 2).
Definition one_pixel : list sample := [ [[ [pixel_half; F32.zero; F32.one] ]] ].
Definition one_label : list label := [ [F32.one; F32.zero] ].


(** Stand-ins for the image-processing collaborators on a featureless image:
    no edge is detected, nothing is filled, and every pixel gets the
    background label 0. *)
Definition no_edges (im : int_image F32.t) (sigma : F32.t) : int_image bool :=
  map (map (fun _ => false)) im.
Definition fill_nothing (edges : int_image bool) : int_image bool := edges.
Definition label_background (fill : int_image bool) : int_image nat * nat :=
  (map (map (fun _ => 0)) fill, 0).
Definition flat_image : int_image F32.t :=
  [ [pixel_half; pixel_half]; [pixel_half; pixel_half] ].

(** A model that scores class 1 highest on every row of a batch. *)
Definition class1_model : Model :=
  {| predict := fun a => repeat [F32.zero; F32.one] (len a);
     gradient_input := fun x _ => x |}.

(** Arrays of rank 2, 4 and 5 over a small buffer. *)
Definition buffer12 : list F32.t := repeat pixel_half 12.
Definition rank2_array : ndarray := {| shape := [4; 3]; data := buffer12 |}.
Definition rank4_array : ndarray := {| shape := [2; 1; 2; 3]; data := buffer12 |}.
Definition rank5_array : ndarray := {| shape := [2; 2; 1; 1; 3]; data := buffer12 |}.
Definition two_labels : list label :=
  [ [F32.zero; F32.one]; [F32.one; F32.zero] ].

(** Two samples that [class1_model] classifies as their labels say. *)
Definition class1_labels : list label :=
  [ [F32.zero; F32.one]; [F32.zero; F32.one] ].

(** ** Predicates on arrays *)

(** [P] holds of every entry of a rank-3 array. *)
Definition All3 {A} (P : A -> Prop) (a : list (list (list A))) : Prop :=
  Forall (Forall (Forall P)) a.

(** Two rank-3 arrays have one shape and [R] relates their entries
    position by position. *)
Definition Rel3 {A B} (R : A -> B -> Prop)
    (a : list (list (list A))) (b : list (list (list B))) : Prop :=
  Forall2 (Forall2 (Forall2 R)) a b.

Definition same_shape {A B} (a : list (list (list A))) (b : list (list (list B)))
  : Prop :=
  Rel3 (fun _ _ => True) a b.


(** Equal, or both a zero of either sign. *)
Definition same_value (a b : F32.t) : Prop :=
  a = b \/ (F32.is_zero a = true /\ F32.is_zero b = true).


(** Every entry lies in [[0,1]]. *)
Definition unit_range (x : sample) : Prop :=
  All3 (fun v => F32.in01 v = true) x.




(** An output entry [r] that is the input entry [v], up to the sign of a
    zero, and lies in [[0,1]]. *)
Definition kept (r v : F32.t) : Prop := same_value r v /\ F32.in01 r = true.

(** How a row of [fg]'s result relates to the row its loop started from, when
    the samples [xs] were still to be processed, from index [i] on: nothing
    before [i] has changed, and the column of each sample holds a value that
    [P] accepts. *)
Definition row_done (P : nat -> sample -> sample -> Prop) (i : nat)
    (xs : list sample) (row' row : list sample) : Prop :=
  length row' = length row
  /\ (forall k, k < i -> nth_error row' k = nth_error row k)
  /\ (forall k x_k, nth_error xs k = Some x_k ->
        exists v, nth_error row' (i + k) = Some v /\ P (i + k) x_k v).

(** One 1x2 RGB sample, and masks for it: one that selects the left pixel
    only, and one that selects nothing. *)
Definition two_pixels : list sample :=
  [ [ [ [pixel_half; F32.zero; F32.one]; [F32.one; pixel_half; F32.zero] ] ] ].
Definition left_mask : list mask2 := [ [ [F32.one; F32.zero] ] ].
Definition empty_mask : list mask2 := [ [ [F32.zero; F32.zero] ] ].
Definition nan_pixel : list F32.t := [S754_nan; S754_nan; S754_nan].

(** ** The exact reading of [check_mask] *)

(** Every entry of the mask is 0 or 1. *)
Definition binary_mask (mask : int_image Z) : Prop :=
  Forall (Forall (fun v => v = 0%Z \/ v = 1%Z)) mask.

(** The area ratio as a rational number: [sum(mask) / (height * width)], for
    a mask with at least one pixel. *)
Definition exact_ratio (mask : int_image Z) : Q :=
  (np_sum mask # Pos.of_nat (height mask * width mask))%Q.

(** Where the exact quotient [q + r / D] lies between the integers [q] and
    [q + 1], as the rounding of [SFdiv] records it: on [q], below the
    middle, in the middle, or above it. *)
Definition loc_ok (l : location) (r D : Z) : Prop :=
  match l with
  | loc_Exact => r = 0%Z
  | loc_Inexact Lt => (0 < 2 * r < D)%Z
  | loc_Inexact Eq => (0 < r /\ 2 * r = D)%Z
  | loc_Inexact Gt => (D < 2 * r)%Z
  end.

(** A 2x5 mask with two pixels set: area ratio 1/5. *)
Definition fifth_mask : int_image Z :=
  [ [1; 1; 0; 0; 0]; [0; 0; 0; 0; 0] ]%Z.

(** A norm one can divide by: neither zero nor NaN. *)
Definition nonzero_norm (n : F32.t) : bool :=
  match n with
  | S754_finite _ _ _ | S754_infinity _ => true
  | _ => false
  end.

(** ** Further code of [lib/utils.py] and the statements about it *)

(** The mask that is 1 exactly where the label image holds [sel]. *)
Definition component_mask (sel : nat) (label_objects : int_image nat)
  : int_image Z :=
  map (map (fun l => if l =? sel then 1%Z else 0%Z)) label_objects.

(** How many pixels of the label image carry the label [l]. *)
Definition component_size (label_objects : int_image nat) (l : nat) : nat :=
  count_occ Nat.eq_dec (concat label_objects) l.

(** A label image with three components of sizes 1, 3 and 3. *)
Definition three_components : int_image nat :=
  [ [0; 2; 2; 3]; [1; 0; 2; 3]; [0; 0; 0; 3] ].
Definition label_three (fill : int_image bool) : int_image nat * nat :=
  (three_components, 3).

(** Index [i] has a mask, when masks are given at all. *)
Definition has_mask (mask : option (list mask2)) (i : nat) : bool :=
  match mask with
  | Some mk => i <? length mk
  | None => true
  end.

(** Index [i] has a label. *)
Definition has_label (y : list label) (i : nat) : bool := i <? length y.

(** Every sample of the batch has a label, and a mask when masks are
    given. *)
Definition batch_covered (x : list sample) (y : list label)
    (mask : option (list mask2)) : Prop :=
  forall i, i < length x -> has_label y i = true /\ has_mask mask i = true.

(** What [iterative] needs for sample [i]: a mask when masks are given, and
    a label unless no step is taken. *)
Definition sample_ok (y : list label) (n_step : nat)
    (mask : option (list mask2)) (i : nat) : bool :=
  has_mask mask i && ((n_step =? 0) || has_label y i).

(** The arrays that [fg] combines have one shape: for each sample with a
    label, the gradient has the shape of the sample, and so has the
    sample's mask once repeated over the channels (if masks are given).
    numpy refuses other shapes, or broadcasts them. *)
Definition fg_shapes_agree (m : Model) (x : list sample) (y : list label)
    (target : bool) (mask : option (list mask2)) : Prop :=
  forall i x_i y_i, nth_error x i = Some x_i -> nth_error y i = Some y_i ->
    same_shape (Fg.retrieve_gradient m target x_i y_i) x_i
    /\ forall mk mi, mask = Some mk -> nth_error mk i = Some mi ->
                     same_shape (mask_rep mi) x_i.

(** The same for [iterative]: the repeated mask of each sample has the
    sample's shape, and at each point where a step starts (the point
    reached from the sample after [j] steps, [j < n_step]) the gradient has
    the shape of the point. *)
Definition iterative_shapes_agree (m : Model) (x : list sample)
    (y : list label) (n_step : nat) (step_size : F32.t)
    (target : option bool) (mask : option (list mask2)) : Prop :=
  forall i x_i mr,
    nth_error x i = Some x_i -> Iterative.get_mask_rep mask i = inr mr ->
    (forall r, mr = Some r -> same_shape r x_i)
    /\ forall j x_cur y_i,
         j < n_step -> nth_error y i = Some y_i ->
         Iterative.steps m y i step_size target mr j x_i = inr x_cur ->
         same_shape (Iterative.retrieve_gradient m target x_cur y_i) x_cur.

(** The indices below [n] that are not in [ids], in increasing order. *)
Definition kept_indices (n : nat) (ids : list nat) : list nat :=
  filter (fun i => negb (mem i ids)) (seq 0 n).

(** The batch [x], the labels and the predictions (and the target labels,
    if given) have one row per sample.  numpy compares class vectors of
    other lengths by broadcasting, or not at all. *)
Definition one_row_per_sample (m : Model) (x : ndarray) (y : list label)
    (y_target : option (list label)) : Prop :=
  len x = length y
  /\ length (predict m x) = length y
  /\ forall yt, y_target = Some yt -> length yt = length y.

(** Every entry is a number: neither NaN nor an infinity. *)
Definition all_finite (x : sample) : Prop :=
  All3 (fun v => F32.is_finite v = true) x.

(** Sample [i] counts as a success: its predicted class is the class of its
    label for a targeted attack, another class otherwise. *)
Definition success_at (target : bool) (y_t y_ : list nat) (i : nat) : bool :=
  if target then nth i y_t 0 =? nth i y_ 0
  else negb (nth i y_t 0 =? nth i y_ 0).

(** A double between 0.0 and 1.0, ends included. *)
Definition unit_rate (r : F64.t) : Prop :=
  F64.leb (F64.of_Z 0) r = true /\ F64.leb r (F64.of_Z 1) = true.

(** ** Rescaling of [uint8] images *)

(** [.astype(np.float32)] on a double: rounding to nearest, ties to even,
    at 24 bits. *)
Definition astype_float32 (x : F64.t) : F32.t :=
  match x with
  | S754_finite s m e => binary_round F32.prec F32.emax s m e
  | _ => x
  end.

(** [(v / 255.).astype(np.float32)] at one [uint8] entry [v]: the division
    is done in double precision. *)
Definition rescale (v : Z) : F32.t :=
  astype_float32 (F64.div (F64.of_Z v) (F64.of_Z 255)).

(** The values of numpy's [uint8]. *)
Definition is_uint8 (v : Z) : Prop := (0 <= v <= 255)%Z.

(** A test on every [uint8] value. *)
Definition every_uint8 (P : Z -> bool) : bool :=
  forallb (fun n => P (Z.of_nat n)) (seq 0 256).

(** ** Loading the samples: [rgb2gray], [resize], [resize_all],
    [load_samples] *)

Unset Implicit Arguments.

(** The parameter file ([parameters_yolo.py]; [utils.py] imports it under
    the name [parameters]).  The statements below hold whatever the two
    sizes are. *)
Definition HEIGHT : nat := 608.
Definition WIDTH : nat := 608.
Definition IMAGE_SIZE : nat * nat := (HEIGHT, WIDTH).

(** An image as [read_images] returns it: [read_image] reads in mode
    ['RGB'], so every pixel has three channels, and [read_images] rescales
    to [float32]. *)
Definition rgb_image : Type := list (list (F32.t * F32.t * F32.t)).

(** The weights [0.299], [0.587] and [0.114]: Python doubles, which numpy
    casts to the [float32] of the image they multiply. *)
Definition GRAY_R : F32.t :=
  Eval cbv in astype_float32 (F64.div (F64.of_Z 299) (F64.of_Z 1000)).
Definition GRAY_G : F32.t :=
  Eval cbv in astype_float32 (F64.div (F64.of_Z 587) (F64.of_Z 1000)).
Definition GRAY_B : F32.t :=
  Eval cbv in astype_float32 (F64.div (F64.of_Z 114) (F64.of_Z 1000)).

(** [rgb2gray(image)] *)
Definition rgb2gray (image : rgb_image) : int_image F32.t :=
  map (map (fun px : F32.t * F32.t * F32.t =>
              let '(r, g, b) := px in
              F32.add (F32.add (F32.mul GRAY_R r) (F32.mul GRAY_G g))
                      (F32.mul GRAY_B b)))
      image.

(** A 2-D or a 3-D array: what [misc.imresize] returns, and what [resize]
    makes of it. *)
Inductive picture (A : Type) : Type :=
| Gray (a : list (list A))
| Color (a : list (list (list A))).
Arguments Gray {A} a.
Arguments Color {A} a.

Definition pic_map {A B} (f : A -> B) (p : picture A) : picture B :=
  match p with
  | Gray a => Gray (map (map f) a)
  | Color a => Color (map3 f a)
  end.

(** Every entry of the array satisfies [P]. *)
Definition pic_all {A} (P : A -> Prop) (p : picture A) : Prop :=
  match p with
  | Gray a => Forall (Forall P) a
  | Color a => All3 P a
  end.

(** The picture has the shape of a slot of [np.zeros(shape)], so that
    [images_rs[i] = ...] copies it entry by entry: [IMAGE_SIZE] with
    [N_CHANNEL] channels if the slots are 3-D, [IMAGE_SIZE] otherwise. *)
Definition fits_slot {A} (three : bool) (p : picture A) : Prop :=
  match p with
  | Gray a =>
      three = false /\ length a = HEIGHT
      /\ Forall (fun row => length row = WIDTH) a
  | Color a =>
      three = true /\ length a = HEIGHT
      /\ Forall (fun row => length row = WIDTH
                            /\ Forall (fun px => length px = N_CHANNEL) row) a
  end.

(** One slot of [np.zeros(shape)]: [IMAGE_SIZE + (N_CHANNEL,)] for 3-D
    images, [IMAGE_SIZE] otherwise.  The array is [float64]; a [float32]
    stored in it keeps its value, so the entries are written as the
    [float32] values they are. *)
Definition zero_slot (three : bool) : picture F32.t :=
  if three
  then Color (repeat (repeat (repeat F32.zero N_CHANNEL) WIDTH) HEIGHT)
  else Gray (repeat (repeat F32.zero WIDTH) HEIGHT).

(** [np.zeros(shape)] with [shape[0] = n], slot by slot. *)
Definition np_zeros (n : nat) (three : bool) : list (picture F32.t) :=
  repeat (zero_slot three) n.

Section Resize.
(** What is resized (a full-size mask or an image), its [ndim], and the
    collaborator [scipy.misc.imresize], which returns a [uint8] array of
    the size asked for. *)
Variable P : Type.
Variable ndim_of : P -> nat.
Variable imresize : P -> nat * nat -> string -> picture Z.

(** [resize(image, interp='bilinear')] *)
Definition resize (image : P) (interp : string) : picture F32.t :=
  let img := imresize image IMAGE_SIZE interp in
  pic_map rescale img.

(** Lines 70-71: [for i, image in enumerate(images): images_rs[i] = ...];
    the resized image has the shape of the slot it is copied to. *)
Fixpoint resize_all_loop (interp : string) (i : nat) (images : list P)
    (images_rs : list (picture F32.t)) : list (picture F32.t) :=
  match images with
  | [] => images_rs
  | image :: rest =>
      resize_all_loop interp (S i) rest (upd i (resize image interp) images_rs)
  end.

(** [resize_all(images, interp='bilinear')], for resized images that have
    the shape of the slots (see [fits_slot]); numpy refuses to copy an
    array of another rank or channel count ([ValueError]). *)
Definition resize_all (images : list P) (interp : string)
  : result (list (picture F32.t)) :=
  first <- getitem images 0 ;;
  let images_rs := np_zeros (length images) (ndim_of first =? 3) in
  ret (resize_all_loop interp 0 images images_rs).
End Resize.
Arguments resize {P} imresize image interp.
Arguments resize_all_loop {P} imresize interp i images images_rs.
Arguments resize_all {P} ndim_of imresize images interp.

(** [keras.utils.to_categorical(y, num_classes)]: row [i] is all 0 but for
    a 1 at column [y[i]]; the assignment [categorical[np.arange(n), y] = 1]
    counts a negative class from the end and raises [IndexError] outside
    of [-num_classes .. num_classes - 1]. *)
Definition one_hot (k n : nat) : label :=
  map (fun j => if j =? k then F32.one else F32.zero) (seq 0 n).
Definition class_in_range (num_classes : nat) (c : Z) : bool :=
  ((- Z.of_nat num_classes <=? c) && (c <? Z.of_nat num_classes))%Z.
Definition to_categorical (y : list Z) (num_classes : nat)
  : result (list label) :=
  if forallb (class_in_range num_classes) y
  then ret (map (fun c => one_hot (Z.to_nat (c mod Z.of_nat num_classes))
                                  num_classes) y)
  else raise IndexError.

Section LoadSamples.
Variable canny : int_image F32.t -> F32.t -> int_image bool.
Variable binary_fill_holes : int_image bool -> int_image bool.
Variable ndi_label : int_image bool -> int_image nat * nat.
(** [misc.imresize] on a full-size mask and on an image. *)
Variable imresize_mask : int_image Z -> nat * nat -> string -> picture Z.
Variable imresize_image : rgb_image -> nat * nat -> string -> picture Z.

(** [find_sign_area(rgb2gray(image))] *)
Definition mask_of (image : rgb_image) : result (int_image Z) :=
  find_sign_area canny binary_fill_holes ndi_label (rgb2gray image) F32.one.

(** Lines 91-97: [for i, image in enumerate(images): ...]. *)
Fixpoint load_samples_loop (i : nat) (images : list rgb_image)
    (ex_ind : list nat) (masks_full : list (int_image Z))
  : result (list nat * list (int_image Z)) :=
  match images with
  | [] => ret (ex_ind, masks_full)
  | image :: rest =>
      mask <- mask_of image ;;
      if check_mask mask
      then load_samples_loop (S i) rest ex_ind (masks_full ++ [mask])
      else load_samples_loop (S i) rest (ex_ind ++ [i]) masks_full
  end.

(** [load_samples(img_dir, label_path)], from what [read_images(img_dir)]
    and [read_labels(label_path)] have read.  It returns
    [x_ben, x_ben_full, y_ben, masks, masks_full]. *)
Definition load_samples (images : list rgb_image) (labels : list Z)
  : result (list (picture F32.t) * list rgb_image * list label
            * list (picture F32.t) * list (int_image Z)) :=
  found <- load_samples_loop 0 images [] [] ;;
  let ex_ind := fst found in
  let masks_full := snd found in
  masks <- resize_all (fun _ => 2) imresize_mask masks_full "nearest"%string ;;
  let x_ben_full := delete_rows images ex_ind in
  let y_ben := delete_rows labels ex_ind in
  x_ben <- resize_all (fun _ => 3) imresize_image x_ben_full "bilinear"%string ;;
  y_ben <- to_categorical y_ben NUM_LABELS ;;
  ret (x_ben, x_ben_full, y_ben, masks, masks_full).

(** The image has pixels to label, and its mask passes [check_mask]. *)
Definition has_mask_at_all (image : rgb_image) : bool :=
  match mask_of image with inr _ => true | inl _ => false end.
Definition has_valid_mask (image : rgb_image) : bool :=
  match mask_of image with inr mask => check_mask mask | inl _ => false end.

(** What [load_samples] needs to return: a mask for every image, a valid
    one for at least one image, and a class within [NUM_LABELS] for every
    image that is kept. *)
Definition loadable (images : list rgb_image) (labels : list Z) : bool :=
  forallb has_mask_at_all images
  && existsb has_valid_mask images
  && forallb (fun p => implb (has_valid_mask (fst p))
                             (class_in_range NUM_LABELS (snd p)))
             (combine images labels).

(** The masks that pass [check_mask], in the order of their images. *)
Definition masks_found (images : list rgb_image) : list (int_image Z) :=
  flat_map (fun image =>
              match mask_of image with
              | inr mask => if check_mask mask then [mask] else []
              | inl _ => []
              end) images.

(** The pairs of an image and its label whose image has a valid mask. *)
Definition kept_pairs (images : list rgb_image) (labels : list Z)
  : list (rgb_image * Z) :=
  filter (fun p => has_valid_mask (fst p)) (combine images labels).
End LoadSamples.

(** Stand-ins for the collaborators, for the examples: an edge wherever
    the gray value is not zero, no hole to fill, one component made of all
    edge pixels; a nearest-neighbour [imresize] for masks (which scales 0/1
    to 0/255) and a mid-gray one for images. *)
Definition edge_nonzero (image : int_image F32.t) (sigma : F32.t)
  : int_image bool :=
  map (map (fun v => negb (F32.is_zero v))) image.
Definition label_edges (fill : int_image bool) : int_image nat * nat :=
  (map (map (fun b : bool => if b then 1 else 0)) fill, 1).
Definition nearest_mask (mask : int_image Z) (size : nat * nat)
    (interp : string) : picture Z :=
  Gray (map (fun i =>
               map (fun j =>
                      let row := nth (i * height mask / fst size) mask [] in
                      if (nth (j * width mask / snd size) row 0 =? 0)%Z
                      then 0%Z else 255%Z)
                   (seq 0 (snd size)))
            (seq 0 (fst size))).
Definition mid_gray (image : rgb_image) (size : nat * nat) (interp : string)
  : picture Z :=
  Color (repeat (repeat (repeat 128%Z N_CHANNEL) (snd size)) (fst size)).

Definition white : F32.t * F32.t * F32.t := (F32.one, F32.one, F32.one).
Definition black : F32.t * F32.t * F32.t := (F32.zero, F32.zero, F32.zero).
(** An image whose mask covers a quarter of it, and one without any edge. *)
Definition corner_image : rgb_image := [ [white; black]; [black; black] ].
Definition black_image : rgb_image := [ [black; black]; [black; black] ].

(** ** What a mask protects *)

(** The entry at row [a], column [b], channel [c] of a rank-3 array, and at
    row [a], column [b] of a mask; [None] outside of the array. *)
Definition entry {A} (a b c : nat) (x : list (list (list A))) : option A :=
  match nth_error x a with
  | Some row =>
      match nth_error row b with
      | Some px => nth_error px c
      | None => None
      end
  | None => None
  end.
Definition mask_entry (a b : nat) (mi : mask2) : option F32.t :=
  match nth_error mi a with
  | Some row => nth_error row b
  | None => None
  end.

(** Wherever the mask [mi] is 0, the result [r] has the entry of [x_i],
    up to the sign of a zero. *)
Definition frame_kept (mi : mask2) (x_i r : sample) : Prop :=
  forall a b c v mkv,
    entry a b c x_i = Some v -> mask_entry a b mi = Some mkv ->
    F32.is_zero mkv = true ->
    exists r', entry a b c r = Some r' /\ kept r' v.

(** The masked attack is well set up on the batch [x]: each sample lies in
    [[0,1]] and has a label and a mask; its gradient and its repeated mask
    have its shape; the gradient is finite, and what the mask leaves of it
    has a norm one can divide by. *)
Definition fg_masked_regular (m : Model) (x : list sample) (y : list label)
    (target : bool) (mk : list mask2) : Prop :=
  forall i x_i, nth_error x i = Some x_i ->
    exists y_i mi,
      nth_error y i = Some y_i /\ nth_error mk i = Some mi
      /\ unit_range x_i
      /\ same_shape (Fg.retrieve_gradient m target x_i y_i) x_i
      /\ same_shape (mask_rep mi) x_i
      /\ all_finite (Fg.retrieve_gradient m target x_i y_i)
      /\ nonzero_norm
           (norm (zip3 F32.mul (Fg.retrieve_gradient m target x_i y_i)
                       (mask_rep mi))) = true.

(** The same for [iterative], which asks for the gradient wherever it
    moves to: at each point where a step starts, that is, the point reached
    from the sample after [j] steps, for each [j < n_step].  Nothing is
    asked at any other array. *)
Definition iterative_masked_regular (m : Model) (x : list sample)
    (y : list label) (n_step : nat) (step_size : F32.t)
    (target : option bool) (mk : list mask2) : Prop :=
  forall i x_i, nth_error x i = Some x_i ->
    exists y_i mi,
      nth_error y i = Some y_i /\ nth_error mk i = Some mi
      /\ unit_range x_i
      /\ same_shape (mask_rep mi) x_i
      /\ forall j x_cur,
           j < n_step ->
           Iterative.steps m y i step_size target (Some (mask_rep mi)) j x_i
           = inr x_cur ->
           same_shape (Iterative.retrieve_gradient m target x_cur y_i) x_cur
           /\ all_finite (Iterative.retrieve_gradient m target x_cur y_i)
           /\ nonzero_norm
                (norm (zip3 F32.mul
                            (Iterative.retrieve_gradient m target x_cur y_i)
                            (mask_rep mi))) = true.

Set Implicit Arguments.
(** * Properties *)

(** ** The error monad *)

Lemma bind_ret {A B} (a : A) (k : A -> result B) : bind (ret a) k = k a.
Proof. reflexivity. Qed.

Lemma bind_inr_inv {A B} (c : result A) (k : A -> result B) (b : B) :
  bind c k = inr b -> exists a, c = inr a /\ k a = inr b.
Proof.
  destruct c as [e | a]; simpl; intros H.
  - discriminate.
  - exists a; split; [reflexivity | assumption].
Qed.

(** The guard around the normalisation never fires: the division is numpy's,
    which does not raise. *)
Lemma normalize_returns (g : sample) :
  normalize g = inr (map3 (fun v => F32.div v (norm g)) g).
Proof. reflexivity. Qed.

(** ** Sign convention of the two attacks *)

(** C1 (fails for [iterative]).  In [fg] the gradient used with
    [target = True] is [-1] times the one used with [target = False].
    [iterative] tests [target is not None] instead of [target]: a boolean flag
    is never [None], so [target = False] negates the gradient exactly as
    [target = True] does, and an untargeted run returns what the targeted run
    returns. *)
Theorem C1_iterative_ignores_target_flag :
  (forall m x y,
      Fg.retrieve_gradient m true x y = negate (Fg.retrieve_gradient m false x y))
  /\ (forall m x y,
      Iterative.retrieve_gradient m (Some false) x y
      = Iterative.retrieve_gradient m (Some true) x y)
  /\ Iterative.retrieve_gradient ones_model (Some true) [[[F32.one]]] []
     <> negate (Iterative.retrieve_gradient ones_model (Some false) [[[F32.one]]] [])
  /\ iterative ones_model one_pixel one_label 1 F32.one (Some false) None
     = iterative ones_model one_pixel one_label 1 F32.one (Some true) None.
Proof.
  split; [ | split; [ | split ] ].
  - intros m x y. reflexivity.
  - intros m x y. reflexivity.
  - vm_compute. discriminate.
  - reflexivity.
Qed.

(** ** A gradient of norm zero *)

(** C3 (fails).  With a gradient of L2 norm zero neither attack signals an
    error: the division yields NaN, the [except ZeroDivisionError] clause is
    never entered, and the call returns a batch of NaN. *)
Theorem C3_zero_norm_gradient_returns_nan :
  norm (gradient_input flat_model [[ [pixel_half; F32.zero; F32.one] ]]
                       [F32.one; F32.zero]) = F32.zero
  /\ fg flat_model one_pixel one_label [pixel_half] true None
     = inr [ [ [[ [S754_nan; S754_nan; S754_nan] ]] ] ]
  /\ iterative flat_model one_pixel one_label 20 pixel_half (Some true) None
     = inr [ [[ [S754_nan; S754_nan; S754_nan] ]] ].
Proof.
  split; [ | split ]; vm_compute; reflexivity.
Qed.

(** ** Segmentation without a component *)

Lemma list_max_all_zero (l : list nat) :
  Forall (eq 0) l -> list_max l = 0.
Proof.
  induction 1 as [ | a l Ha _ IH]; simpl.
  - reflexivity.
  - subst a. rewrite IH. reflexivity.
Qed.

Lemma count_occ_all_zero (l : list nat) :
  Forall (eq 0) l -> count_occ Nat.eq_dec l 0 = length l.
Proof.
  induction 1 as [ | a l Ha _ IH]; simpl.
  - reflexivity.
  - subst a. simpl. rewrite IH. reflexivity.
Qed.

Lemma Forall_concat {A} (P : A -> Prop) (ll : list (list A)) :
  Forall (Forall P) ll -> Forall P (concat ll).
Proof.
  induction 1 as [ | l ll Hl _ IH]; simpl.
  - constructor.
  - apply Forall_app. split; assumption.
Qed.

Lemma map_map_all_zero {B} (f : nat -> B) (ll : list (list nat)) :
  Forall (Forall (eq 0)) ll -> map (map f) ll = map (map (fun _ => f 0)) ll.
Proof.
  induction 1 as [ | l ll Hl _ IH]; simpl.
  - reflexivity.
  - f_equal; [ | exact IH].
    clear IH. induction Hl as [ | a l Ha _ IHl]; simpl.
    + reflexivity.
    + subst a. f_equal. exact IHl.
Qed.

(** When labelling finds the background only, the background is the label of
    maximal (zeroed) size, and the mask is 1 on every pixel. *)
Lemma find_sign_area_background_only
    (canny : int_image F32.t -> F32.t -> int_image bool)
    (binary_fill_holes : int_image bool -> int_image bool)
    (ndi_label : int_image bool -> int_image nat * nat)
    (image : int_image F32.t) (sigma : F32.t) :
  let label_objects := fst (ndi_label (binary_fill_holes (canny image sigma))) in
  concat label_objects <> [] ->
  Forall (Forall (eq 0)) label_objects ->
  find_sign_area canny binary_fill_holes ndi_label image sigma
  = inr (map (map (fun _ => 1%Z)) label_objects).
Proof.
  intros L Hne Hall. unfold find_sign_area. fold L.
  assert (Hflat : Forall (eq 0) (concat L)) by (apply Forall_concat; exact Hall).
  assert (Hbin : bincount (concat L) = [Z.of_nat (length (concat L))]).
  { unfold bincount. destruct (concat L) as [ | a l].
    - contradiction.
    - rewrite (list_max_all_zero Hflat). simpl seq.
      cbn [map]. rewrite (count_occ_all_zero Hflat). reflexivity. }
  rewrite Hbin. simpl.
  unfold ret. f_equal.
  etransitivity; [apply map_map_all_zero; exact Hall | reflexivity].
Qed.

(** C2 (fails).  On a featureless image, where labelling yields the
    background only, [find_sign_area] returns the mask that is 1 everywhere,
    not 0 everywhere; its area ratio is 1, which [check_mask] rejects for
    being above the upper threshold. *)
Theorem C2_no_component_gives_all_ones_mask :
  find_sign_area no_edges fill_nothing label_background flat_image F32.one
  = inr [ [1; 1]; [1; 1] ]%Z
  /\ area_ratio [ [1; 1]; [1; 1] ]%Z = F64.of_Z 1
  /\ check_mask [ [1; 1]; [1; 1] ]%Z = false.
Proof.
  split; [ | split ]; vm_compute; reflexivity.
Qed.

(** ** [eval_adv] *)

Lemma eval_loop_spec (m : Model) (y_t : list nat) (n : nat) (target : bool)
    (xs : list ndarray) (acc : list F64.t) :
  EvalAdv.loop m y_t n target xs acc
  = acc ++ map (fun x => rate (successes target y_t (to_class (predict m x))) n) xs.
Proof.
  revert acc. induction xs as [ | x xs IH]; intros acc; simpl.
  - rewrite app_nil_r. reflexivity.
  - rewrite IH, <- app_assoc. reflexivity.
Qed.

Lemma subarrays_cons (a : ndarray) (n : nat) (sh : list nat) :
  shape a = n :: sh -> subarrays a = map (subarray sh (data a)) (seq 0 n).
Proof. intros H. unfold subarrays. rewrite H. reflexivity. Qed.

(** C7.  For an input of rank other than 4 and 5, [eval_adv] prints
    "Incorrect format for x_adv." and returns [None]: no success rate, and no
    list of them, is handed back. *)
Theorem C7_eval_adv_rejects_other_ranks
    (m : Model) (x_adv : ndarray) (y : list label) (target : bool) :
  ndim x_adv <> 4 -> ndim x_adv <> 5 ->
  eval_adv m x_adv y target = (["Incorrect format for x_adv."%string], PyNone).
Proof.
  intros H4 H5. unfold eval_adv.
  destruct (Nat.eqb_spec (ndim x_adv) 4) as [E | _]; [contradiction | ].
  destruct (Nat.eqb_spec (ndim x_adv) 5) as [E | _]; [contradiction | ].
  reflexivity.
Qed.

Lemma C7_eval_adv_rejects_other_ranks_witness :
  ndim rank2_array <> 4 /\ ndim rank2_array <> 5
  /\ eval_adv class1_model rank2_array two_labels true
     = (["Incorrect format for x_adv."%string], PyNone).
Proof.
  assert (H4 : ndim rank2_array <> 4) by (cbv; discriminate).
  assert (H5 : ndim rank2_array <> 5) by (cbv; discriminate).
  split; [exact H4 | split; [exact H5 | ] ].
  exact (@C7_eval_adv_rejects_other_ranks class1_model rank2_array two_labels true H4 H5).
Defined.

Lemma length_filter_map {A B} (f : B -> bool) (g : A -> B) (l : list A) :
  length (filter f (map g l)) = length (filter (fun a => f (g a)) l).
Proof.
  induction l as [ | a l IH]; cbn [map filter]; [reflexivity | ].
  destruct (f (g a)); cbn [length]; rewrite IH; reflexivity.
Qed.

Lemma count_where_cons (P : nat -> nat -> bool) (u v : nat) (a b : list nat) :
  count_where P (u :: a) (v :: b)
  = (if P u v then 1 else 0) + count_where P a b.
Proof.
  unfold count_where. cbn [length seq]. rewrite <- seq_shift. cbn [filter].
  change (nth 0 (u :: a) 0) with u. change (nth 0 (v :: b) 0) with v.
  destruct (P u v); cbn [length]; rewrite length_filter_map; reflexivity.
Qed.

(** What [np.sum] counts in a comparison of two class vectors of one length
    is the number of samples that compare so. *)
Lemma count_true_map2 (P : nat -> nat -> bool) (a : list nat) :
  forall b, length b = length a ->
  count_true (map2 P a b) = Z.of_nat (count_where P a b).
Proof.
  unfold count_true.
  induction a as [ | u a IH]; intros [ | v b] Hlen; try discriminate Hlen.
  - reflexivity.
  - injection Hlen as Hlen. rewrite count_where_cons. cbn [map2 filter].
    specialize (IH b Hlen). apply Nat2Z.inj in IH.
    destruct (P u v); cbn [length]; rewrite IH; reflexivity.
Qed.

Lemma rate_count_over_labels (target : bool) (y : list label)
    (scores : list (list F32.t)) :
  length scores = length y ->
  rate (successes target (to_class y) (to_class scores)) (length y)
  = count_over_labels target (to_class y) (to_class scores).
Proof.
  intros Hlen.
  assert (Hc : length (to_class scores) = length (to_class y))
    by (unfold to_class; rewrite !length_map; exact Hlen).
  unfold rate, count_over_labels, successes, count_eq, count_ne.
  replace (length (to_class y)) with (length y)
    by (unfold to_class; rewrite length_map; reflexivity).
  destruct target; rewrite (count_true_map2 _ _ _ Hc); reflexivity.
Qed.

(** C10.  For a 4-D batch [eval_adv] returns one float (not a list): the
    number of predictions that match the labels (targeted) or do not
    (untargeted), divided by the number of labels.  For a 5-D batch with [k]
    sub-arrays along axis 0 it returns a list of [k] floats whose [j]-th
    entry is that quotient for the [j]-th sub-array.  Nothing is printed in
    either case.  The model gives one prediction per label. *)
Theorem C10_eval_adv_result_by_rank
    (m : Model) (x_adv : ndarray) (y : list label) (target : bool) :
  (ndim x_adv = 4 ->
   length (predict m x_adv) = length y ->
   eval_adv m x_adv y target
   = ([], PyFloat (count_over_labels target (to_class y)
                                     (to_class (predict m x_adv)))))
  /\ (ndim x_adv = 5 ->
      (forall j, j < len x_adv ->
         length (predict m (subarray (tl (shape x_adv)) (data x_adv) j))
         = length y) ->
      exists l,
        eval_adv m x_adv y target = ([], PyList l)
        /\ length l = len x_adv
        /\ forall j, j < len x_adv ->
             let x := subarray (tl (shape x_adv)) (data x_adv) j in
             nth_error l j
             = Some (count_over_labels target (to_class y)
                                       (to_class (predict m x)))).
Proof.
  split; intros Hrank Hpred; unfold eval_adv; rewrite Hrank; simpl Nat.eqb;
    cbv iota.
  - rewrite (rate_count_over_labels target y (predict m x_adv) Hpred).
    reflexivity.
  - eexists; split; [reflexivity | ].
    rewrite eval_loop_spec. simpl app.
    destruct (shape x_adv) as [ | k sh] eqn:Hs;
      [unfold ndim in Hrank; rewrite Hs in Hrank; discriminate | ].
    rewrite (subarrays_cons x_adv Hs). unfold len in *. rewrite Hs in *.
    simpl hd in *. simpl tl in *.
    split.
    + rewrite !length_map, length_seq. reflexivity.
    + intros j Hj. cbv zeta. rewrite map_map.
      rewrite nth_error_map, nth_error_nth' with (d := 0)
        by (rewrite length_seq; exact Hj).
      rewrite seq_nth by exact Hj. simpl.
      rewrite (rate_count_over_labels target y _ (Hpred j Hj)). reflexivity.
Qed.

Lemma C10_eval_adv_result_by_rank_witness :
  (ndim rank4_array = 4
   /\ length (predict class1_model rank4_array) = length two_labels
   /\ eval_adv class1_model rank4_array two_labels true
      = ([], PyFloat (F64.div (F64.of_Z 1) (F64.of_Z 2))))
  /\ (ndim rank5_array = 5
      /\ (forall j, j < len rank5_array ->
            length (predict class1_model
                      (subarray (tl (shape rank5_array)) (data rank5_array) j))
            = length two_labels)
      /\ exists l, eval_adv class1_model rank5_array two_labels false = ([], PyList l)
                   /\ length l = 2).
Proof.
  split.
  - split; [reflexivity | ]. split; [reflexivity | ].
    exact (proj1 (C10_eval_adv_result_by_rank class1_model rank4_array two_labels true)
                 eq_refl eq_refl).
  - split; [reflexivity | ].
    assert (Hpred : forall j, j < len rank5_array ->
              length (predict class1_model
                        (subarray (tl (shape rank5_array)) (data rank5_array) j))
              = length two_labels)
      by (intros j _; reflexivity).
    split; [exact Hpred | ].
    destruct (proj2 (C10_eval_adv_result_by_rank class1_model rank5_array two_labels false)
                    eq_refl Hpred) as [l [Hl [Hlen _]]].
    exists l. split; [exact Hl | exact Hlen].
Defined.

(** ** [filter_samples] *)

Lemma insert_sorted_hd (n : nat) (l : list nat) :
  HdRel le n l -> insert_sorted n l = n :: l.
Proof.
  destruct 1 as [ | h t Hle]; simpl.
  - reflexivity.
  - apply Nat.leb_le in Hle. rewrite Hle. reflexivity.
Qed.

Lemma insert_sorted_HdRel (a n : nat) (l : list nat) :
  a <= n -> HdRel le a l -> HdRel le a (insert_sorted n l).
Proof.
  intros Han Hal. destruct l as [ | h t]; simpl.
  - constructor. exact Han.
  - destruct (n <=? h); constructor.
    + exact Han.
    + inversion Hal; assumption.
Qed.

Lemma insert_sorted_Sorted (n : nat) (l : list nat) :
  Sorted le l -> Sorted le (insert_sorted n l).
Proof.
  induction 1 as [ | h t Ht IH Hh]; simpl.
  - repeat constructor.
  - destruct (Nat.leb_spec n h) as [Hle | Hgt].
    + constructor; [constructor; assumption | constructor; exact Hle].
    + constructor; [exact IH | ].
      apply insert_sorted_HdRel; [lia | exact Hh].
Qed.

Lemma np_sort_Sorted (l : list nat) : Sorted le (np_sort l).
Proof.
  induction l as [ | a l IH]; simpl.
  - constructor.
  - apply insert_sorted_Sorted. exact IH.
Qed.

(** Sorting a sorted vector changes nothing. *)
Lemma np_sort_id (l : list nat) : Sorted le l -> np_sort l = l.
Proof.
  induction 1 as [ | h t Ht IH Hh]; simpl.
  - reflexivity.
  - rewrite IH. apply insert_sorted_hd. exact Hh.
Qed.

Lemma drop_repeats_head (t : list nat) :
  forall a, exists r, drop_repeats (a :: t) = a :: r.
Proof.
  induction t as [ | b t IH]; intros a.
  - exists []. reflexivity.
  - change (drop_repeats (a :: b :: t))
      with (if a =? b then drop_repeats (b :: t) else a :: drop_repeats (b :: t)).
    destruct (Nat.eqb_spec a b) as [E | _].
    + subst b. exact (IH a).
    + exists (drop_repeats (b :: t)). reflexivity.
Qed.

Lemma drop_repeats_Sorted (l : list nat) :
  Sorted le l -> Sorted lt (drop_repeats l).
Proof.
  induction 1 as [ | a t Ht IH Ha].
  - constructor.
  - destruct t as [ | b t'].
    + repeat constructor.
    + change (drop_repeats (a :: b :: t'))
        with (if a =? b then drop_repeats (b :: t')
              else a :: drop_repeats (b :: t')).
      destruct (Nat.eqb_spec a b) as [E | Hne].
      * exact IH.
      * constructor; [exact IH | ].
        destruct (drop_repeats_head t' b) as [r Hr]. rewrite Hr.
        constructor. inversion Ha; subst. lia.
Qed.

Lemma Sorted_lt_le (l : list nat) : Sorted lt l -> Sorted le l.
Proof.
  induction 1 as [ | a t Ht IH Ha]; constructor.
  - exact IH.
  - destruct Ha; constructor. lia.
Qed.

Lemma Sorted_lt_NoDup (l : list nat) : Sorted lt l -> NoDup l.
Proof.
  intros H. apply Sorted_StronglySorted in H.
  - induction H as [ | a t Ht IH Ha]; constructor.
    + intros Hin. rewrite Forall_forall in Ha. specialize (Ha a Hin). lia.
    + exact IH.
  - intros p q r. apply Nat.lt_trans.
Qed.

(** The index vector that [filter_samples] computes is strictly increasing,
    whatever went into it. *)
Lemma del_id_Sorted (l : list nat) : Sorted lt (np_sort (np_unique l)).
Proof.
  assert (H : Sorted lt (np_unique l))
    by (apply drop_repeats_Sorted, np_sort_Sorted).
  rewrite np_sort_id by (apply Sorted_lt_le; exact H). exact H.
Qed.

Lemma where_from_none (flags : list bool) :
  Forall (eq false) flags -> forall i, where_from i flags = [].
Proof.
  induction 1 as [ | b t Hb _ IH]; intros i; simpl.
  - reflexivity.
  - subst b. apply IH.
Qed.

Lemma where_ne_same (c : list nat) : where_ne c c = [].
Proof.
  unfold where_ne. apply where_from_none.
  induction c as [ | a c IH]; simpl; constructor.
  - rewrite Nat.eqb_refl. reflexivity.
  - exact IH.
Qed.

Lemma delete_rows_nil {A} (rows : list A) : delete_rows rows [] = rows.
Proof.
  unfold delete_rows. generalize 0.
  induction rows as [ | r rows IH]; intros i; simpl.
  - reflexivity.
  - rewrite IH. reflexivity.
Qed.

Lemma firstn_add_skipn {A} (a b : nat) (l : list A) :
  firstn (a + b) l = firstn a l ++ firstn b (skipn a l).
Proof.
  revert l. induction a as [ | a IH]; intros l; simpl.
  - reflexivity.
  - destruct l as [ | h t]; simpl.
    + rewrite firstn_nil. reflexivity.
    + rewrite IH. reflexivity.
Qed.

(** Gluing the sub-arrays along axis 0 back together gives the buffer. *)
Lemma flat_map_subarrays (sh : list nat) (buf : list F32.t) (n : nat) :
  flat_map data (map (subarray sh buf) (seq 0 n)) = firstn (n * size_of sh) buf.
Proof.
  induction n as [ | n IH].
  - reflexivity.
  - rewrite seq_S, map_app, flat_map_app, IH. simpl.
    rewrite app_nil_r, (Nat.add_comm (size_of sh)).
    symmetry. apply firstn_add_skipn.
Qed.

Lemma np_delete_nil (a : ndarray) : well_formed a -> np_delete a [] = a.
Proof.
  destruct a as [sh buf]. unfold well_formed, np_delete, subarrays. simpl.
  destruct sh as [ | n sh]; intros Hwf.
  - reflexivity.
  - rewrite delete_rows_nil, length_map, length_seq, flat_map_subarrays.
    f_equal. simpl in Hwf. rewrite <- Hwf. apply firstn_all.
Qed.

(** C9.  The removed-index vector returned by [filter_samples] is strictly
    increasing, hence sorted and without duplicates; and when every predicted
    class equals the true class and no [y_target] is given, the call returns
    [x] and [y] as they are, with an empty index vector. *)
Theorem C9_filter_samples_keeps_correct_batch
    (m : Model) (x : ndarray) (y : list label) :
  (forall y_target,
      let del_id := snd (filter_samples m x y y_target) in
      Sorted lt del_id /\ Sorted le del_id /\ NoDup del_id)
  /\ (well_formed x ->
      to_class (predict m x) = to_class y ->
      filter_samples m x y None = (x, y, [])).
Proof.
  split.
  - intros y_target. unfold filter_samples. simpl snd. cbv zeta.
    pose proof (del_id_Sorted
                  match y_target with
                  | Some yt => where_ne (to_class (predict m x)) (to_class y)
                               ++ where_eq (to_class (predict m x)) (to_class yt)
                  | None => where_ne (to_class (predict m x)) (to_class y)
                  end) as H.
    split; [exact H | split].
    + apply Sorted_lt_le. exact H.
    + apply Sorted_lt_NoDup. exact H.
  - intros Hwf Hpred. unfold filter_samples. rewrite Hpred, where_ne_same.
    simpl np_sort. rewrite np_delete_nil by exact Hwf.
    rewrite delete_rows_nil. reflexivity.
Qed.

Lemma C9_filter_samples_keeps_correct_batch_witness :
  well_formed rank4_array
  /\ to_class (predict class1_model rank4_array) = to_class class1_labels
  /\ filter_samples class1_model rank4_array class1_labels None
     = (rank4_array, class1_labels, []).
Proof.
  assert (Hwf : well_formed rank4_array) by reflexivity.
  assert (Hp : to_class (predict class1_model rank4_array) = to_class class1_labels)
    by reflexivity.
  split; [exact Hwf | split; [exact Hp | ] ].
  exact (proj2 (C9_filter_samples_keeps_correct_batch class1_model rank4_array
                  class1_labels) Hwf Hp).
Defined.

(** ** Lists and arrays *)

Lemma Forall2_refl_on {A} (R : A -> A -> Prop) (P : A -> Prop) (l : list A) :
  (forall a, P a -> R a a) -> Forall P l -> Forall2 R l l.
Proof.
  intros HR. induction 1; constructor; auto.
Qed.

Lemma Forall2_weaken {A B} (R R' : A -> B -> Prop) (l : list A) (l' : list B) :
  (forall a b, R a b -> R' a b) -> Forall2 R l l' -> Forall2 R' l l'.
Proof.
  intros HR. induction 1; constructor; auto.
Qed.

Lemma Forall2_trans_rel {A B C} (R : A -> B -> Prop) (S : B -> C -> Prop)
    (T : A -> C -> Prop) (l : list A) (l' : list B) (l'' : list C) :
  (forall a b c, R a b -> S b c -> T a c) ->
  Forall2 R l l' -> Forall2 S l' l'' -> Forall2 T l l''.
Proof.
  intros HT H. revert l''. induction H; intros l'' H'; inversion H'; subst;
    constructor; eauto.
Qed.


Lemma Forall2_and_r {A B} (R : A -> B -> Prop) (Q : B -> Prop)
    (l : list A) (l' : list B) :
  Forall2 R l l' -> Forall Q l' -> Forall2 (fun a b => R a b /\ Q b) l l'.
Proof.
  induction 1; intros HQ; inversion HQ; subst; constructor; auto.
Qed.

Lemma Forall2_Forall_l {A B} (R : A -> B -> Prop) (P : A -> Prop)
    (l : list A) (l' : list B) :
  (forall a b, R a b -> P a) -> Forall2 R l l' -> Forall P l.
Proof.
  intros HP. induction 1; constructor; eauto.
Qed.

Lemma Forall2_map_l {A A' B} (f : A -> A') (R : A' -> B -> Prop)
    (l : list A) (l' : list B) :
  Forall2 (fun a b => R (f a) b) l l' -> Forall2 R (map f l) l'.
Proof. induction 1; simpl; constructor; auto. Qed.


(** An elementwise combination is related to its left operand as soon as
    every pair of operands makes it so. *)
Lemma Forall2_map2_l {A B C} (f : A -> B -> C) (R : C -> A -> Prop)
    (l : list A) (l' : list B) :
  Forall2 (fun a b => R (f a b) a) l l' -> Forall2 R (map2 f l l') l.
Proof. induction 1; simpl; constructor; auto. Qed.

Section Rank3.
Context {A B C : Type}.

Lemma Rel3_weaken (R R' : A -> B -> Prop) a b :
  (forall u v, R u v -> R' u v) -> Rel3 R a b -> Rel3 R' a b.
Proof.
  intros H. unfold Rel3.
  apply Forall2_weaken. intros r r'. apply Forall2_weaken.
  intros p p'. apply Forall2_weaken. exact H.
Qed.




Lemma Rel3_map3_l {A'} (f : A -> A') (R : A' -> B -> Prop) a b :
  Rel3 (fun u v => R (f u) v) a b -> Rel3 R (map3 f a) b.
Proof.
  unfold Rel3, map3. intros H.
  apply Forall2_map_l. revert H. apply Forall2_weaken. intros r r' Hr.
  apply Forall2_map_l. revert Hr. apply Forall2_weaken. intros p p' Hp.
  apply Forall2_map_l. exact Hp.
Qed.


Lemma Rel3_zip3_l (f : A -> B -> C) (R : C -> A -> Prop) a b :
  Rel3 (fun u v => R (f u v) u) a b -> Rel3 R (zip3 f a b) a.
Proof.
  unfold Rel3, zip3. intros H.
  apply Forall2_map2_l. revert H. apply Forall2_weaken. intros r r' Hr.
  apply Forall2_map2_l. revert Hr. apply Forall2_weaken. intros p p' Hp.
  apply Forall2_map2_l. exact Hp.
Qed.

Lemma Rel3_trans_rel (R : A -> B -> Prop) (S : B -> C -> Prop)
    (T : A -> C -> Prop) a b c :
  (forall u v w, R u v -> S v w -> T u w) ->
  Rel3 R a b -> Rel3 S b c -> Rel3 T a c.
Proof.
  intros H. unfold Rel3.
  apply Forall2_trans_rel. intros r r' r''. apply Forall2_trans_rel.
  intros p p' p''. apply Forall2_trans_rel. exact H.
Qed.
End Rank3.

Lemma Rel3_refl_on {A} (R : A -> A -> Prop) (P : A -> Prop) a :
  (forall u, P u -> R u u) -> All3 P a -> Rel3 R a a.
Proof.
  intros H. unfold Rel3, All3.
  apply Forall2_refl_on. intros r. apply Forall2_refl_on.
  intros p. apply Forall2_refl_on. exact H.
Qed.

Lemma Rel3_sym {A B} (R : A -> B -> Prop) a b :
  Rel3 R a b -> Rel3 (fun v u => R u v) b a.
Proof.
  unfold Rel3. intros H.
  apply Forall2_flip. revert H. apply Forall2_weaken. intros r r' Hr.
  apply Forall2_flip. revert Hr. apply Forall2_weaken. intros p p' Hp.
  apply Forall2_flip. exact Hp.
Qed.

(** ** IEEE arithmetic around zero *)

Lemma mul_zero_r (g z : F32.t) :
  F32.is_finite g = true -> F32.is_zero z = true ->
  F32.is_zero (F32.mul g z) = true.
Proof.
  destruct g, z; simpl; intros Hg Hz; try discriminate; reflexivity.
Qed.

Lemma in01_cases (x : F32.t) :
  F32.in01 x = true ->
  F32.is_zero x = true \/ exists m e, x = S754_finite false m e.
Proof.
  destruct x as [s | s | | s m e]; intros H.
  - left. reflexivity.
  - destruct s; discriminate H.
  - discriminate H.
  - right. destruct s; [discriminate H | ]. exists m, e. reflexivity.
Qed.

Lemma in01_zero (x : F32.t) : F32.is_zero x = true -> F32.in01 x = true.
Proof. destruct x as [s | s | | s m e]; try discriminate. destruct s; reflexivity. Qed.

Lemma add_zero_r (x z : F32.t) :
  F32.in01 x = true -> F32.is_zero z = true -> same_value (F32.add x z) x.
Proof.
  intros Hx Hz. destruct z as [sz | | | ]; try discriminate Hz.
  destruct (in01_cases x Hx) as [H0 | [m [e ->]]].
  - destruct x as [sx | | | ]; try discriminate H0.
    right. destruct sx, sz; split; reflexivity.
  - left. reflexivity.
Qed.

Lemma same_value_in01 (r x : F32.t) :
  same_value r x -> F32.in01 x = true -> F32.in01 r = true.
Proof.
  intros [-> | [Hr _]] Hx; [exact Hx | apply in01_zero; exact Hr].
Qed.

Lemma same_value_trans (a b c : F32.t) :
  same_value a b -> same_value b c -> same_value a c.
Proof.
  intros [-> | [Ha Hb]] [-> | [Hb' Hc]]; unfold same_value; auto.
Qed.




(** Clipping leaves a value of [[0,1]] alone. *)
Lemma clip_in01 (x : F32.t) :
  F32.in01 x = true -> F32.clip F32.zero F32.one x = x.
Proof.
  unfold F32.in01, F32.clip, F32.maximum, F32.minimum. intros H.
  apply andb_true_iff in H. destruct H as [H0 H1].
  rewrite H0. simpl. rewrite H1. reflexivity.
Qed.

(** What is left of NaN after clipping is NaN; everything else lands in
    [[0,1]]. *)
Lemma clip_range (x : F32.t) :
  F32.is_nan x = false -> F32.in01 (F32.clip F32.zero F32.one x) = true.
Proof.
  intros Hn. unfold F32.clip, F32.maximum. rewrite Hn, orb_false_r.
  destruct (F32.leb F32.zero x) eqn:H0.
  - unfold F32.minimum. rewrite Hn, orb_false_r.
    destruct (F32.leb x F32.one) eqn:H1.
    + unfold F32.in01. rewrite H0, H1. reflexivity.
    + reflexivity.
  - reflexivity.
Qed.

Lemma clip_nan : F32.clip F32.zero F32.one S754_nan = S754_nan.
Proof. reflexivity. Qed.



(** ** Indexed updates *)

Lemma length_upd {A} (i : nat) (v : A) (l : list A) : length (upd i v l) = length l.
Proof.
  revert i. induction l as [ | a l IH]; intros [ | i]; simpl; auto.
Qed.

Lemma nth_error_upd_same {A} (i : nat) (v : A) (l : list A) :
  i < length l -> nth_error (upd i v l) i = Some v.
Proof.
  revert i. induction l as [ | a l IH]; intros [ | i] H; simpl in *; try lia.
  - reflexivity.
  - apply IH. lia.
Qed.

Lemma nth_error_upd_other {A} (i k : nat) (v : A) (l : list A) :
  k <> i -> nth_error (upd i v l) k = nth_error l k.
Proof.
  revert i k. induction l as [ | a l IH]; intros [ | i] [ | k] H; simpl;
    try reflexivity; try contradiction.
  apply IH. lia.
Qed.

Lemma nth_error_map2 {A B C} (f : A -> B -> C) (l : list A) (l' : list B) (j : nat) :
  nth_error (map2 f l l') j
  = match nth_error l j, nth_error l' j with
    | Some a, Some b => Some (f a b)
    | _, _ => None
    end.
Proof.
  revert l' j. induction l as [ | a l IH]; intros [ | b l'] [ | j]; simpl;
    try reflexivity.
  - destruct (nth_error l j); reflexivity.
  - apply IH.
Qed.

Lemma length_map2 {A B C} (f : A -> B -> C) (l : list A) (l' : list B) :
  length l = length l' -> length (map2 f l l') = length l.
Proof.
  revert l'. induction l as [ | a l IH]; intros [ | b l'] H; simpl in *;
    try discriminate; auto.
Qed.

Lemma getitem_some {A} (l : list A) (i : nat) (a : A) :
  nth_error l i = Some a -> getitem l i = inr a.
Proof. unfold getitem. intros ->. reflexivity. Qed.

(** ** The loop of [iterative] *)

Section IterativeLoop.
Variables (m : Model) (y : list label) (n_step : nat) (step_size : F32.t).
Variables (target : option bool) (mask : option (list mask2)).

(** If every sample's own run returns, with a result that [Q] accepts, the
    loop returns, and it has stored each result at the index of its
    sample. *)
Lemma iterative_loop_inv (Q : nat -> sample -> sample -> Prop) :
  forall (xs : list sample) (i : nat) (x_adv : list sample),
    length x_adv = i + length xs ->
    (forall k x_k, nth_error xs k = Some x_k ->
       exists r, Iterative.attack_sample m y n_step step_size target mask (i + k) x_k = inr r
                 /\ Q (i + k) x_k r) ->
    exists out,
      Iterative.loop m y n_step step_size target mask i xs x_adv = inr out
      /\ length out = length x_adv
      /\ (forall k, k < i -> nth_error out k = nth_error x_adv k)
      /\ (forall k x_k, nth_error xs k = Some x_k ->
            exists r, nth_error out (i + k) = Some r /\ Q (i + k) x_k r).
Proof.
  induction xs as [ | x_in rest IH]; intros i x_adv Hlen Hrun.
  - exists x_adv. simpl. repeat split; auto.
    intros [ | k] x_k H; discriminate H.
  - destruct (Hrun 0 x_in eq_refl) as [r [Hr HQ]].
    rewrite Nat.add_0_r in Hr, HQ.
    destruct (IH (S i) (upd i r x_adv)) as [out [Hout [Hl [Hpre Hpost]]]].
    + rewrite length_upd. simpl in Hlen. lia.
    + intros k x_k Hk. specialize (Hrun (S k) x_k Hk).
      rewrite Nat.add_succ_r in Hrun. exact Hrun.
    + exists out. cbn [Iterative.loop]. rewrite Hr. cbn [bind].
      split; [exact Hout | ].
      split; [rewrite Hl; apply length_upd | ].
      split.
      * intros k Hk. rewrite Hpre by lia. apply nth_error_upd_other. lia.
      * intros [ | k] x_k Hk.
        -- simpl in Hk. injection Hk as <-. exists r. rewrite Nat.add_0_r.
           split; [ | exact HQ].
           rewrite Hpre by lia. apply nth_error_upd_same. simpl in Hlen. lia.
        -- rewrite Nat.add_succ_r. apply Hpost. exact Hk.
Qed.
End IterativeLoop.

Lemma Forall2_of_nth_error {A B} (R : A -> B -> Prop) (l : list A) (l' : list B) :
  length l = length l' ->
  (forall k b, nth_error l' k = Some b -> exists a, nth_error l k = Some a /\ R a b) ->
  Forall2 R l l'.
Proof.
  revert l'. induction l as [ | a l IH]; intros [ | b l'] Hlen H; simpl in Hlen;
    try discriminate.
  - constructor.
  - constructor.
    + destruct (H 0 b eq_refl) as [a' [Ha HR]]. injection Ha as <-. exact HR.
    + apply IH; [lia | ]. intros k b' Hk. exact (H (S k) b' Hk).
Qed.

(** ** A step of size zero *)


Lemma kept_refl (v : F32.t) : F32.in01 v = true -> kept v v.
Proof. intros H. split; [left; reflexivity | exact H]. Qed.

Lemma kept_trans (a b c : F32.t) : kept a b -> kept b c -> kept a c.
Proof.
  intros [Hab Ha] [Hbc _]. split; [ | exact Ha].
  exact (same_value_trans Hab Hbc).
Qed.


Lemma kept_same_shape (r x : sample) : Rel3 kept r x -> same_shape r x.
Proof. apply Rel3_weaken. intros; exact I. Qed.


Lemma same_shape_map3_l {A A' B} (f : A -> A')
    (a : list (list (list A))) (b : list (list (list B))) :
  same_shape a b -> same_shape (map3 f a) b.
Proof.
  intros H. apply Rel3_map3_l. revert H. apply Rel3_weaken. auto.
Qed.

(** ** The points [iterative] moves through *)

Lemma steps_S (m : Model) (y : list label) (i : nat) (ss : F32.t)
    (target : option bool) (mr : option sample) (k : nat) (x : sample) :
  Iterative.steps m y i ss target mr (S k) x
  = (grad <- Iterative.masked_gradient m y i target mr x ;;
     grad <- normalize grad ;;
     Iterative.steps m y i ss target mr k (clip01 (step x grad ss))).
Proof. reflexivity. Qed.

(** Taking [k + 1] steps is taking [k] steps and then one more. *)
Lemma steps_snoc (m : Model) (y : list label) (i : nat) (ss : F32.t)
    (target : option bool) (mr : option sample) :
  forall k x,
    Iterative.steps m y i ss target mr (S k) x
    = (x_k <- Iterative.steps m y i ss target mr k x ;;
       grad <- Iterative.masked_gradient m y i target mr x_k ;;
       grad <- normalize grad ;;
       ret (clip01 (step x_k grad ss))).
Proof.
  induction k as [ | k IH]; intros x.
  - reflexivity.
  - rewrite (steps_S m y i ss target mr (S k) x).
    rewrite (steps_S m y i ss target mr k x).
    destruct (Iterative.masked_gradient m y i target mr x) as [e | g];
      cbn [bind]; [reflexivity | ].
    destruct (normalize g) as [e | g']; cbn [bind]; [reflexivity | ].
    apply IH.
Qed.

(** What holds of the sample and is carried over by each step that the
    attack takes holds of the point reached after [n] steps; the step only
    has to carry it over from the points the attack has reached. *)
Lemma steps_path_inv (Inv : sample -> Prop) (m : Model) (y : list label)
    (i : nat) (ss : F32.t) (target : option bool) (mr : option sample)
    (x_i : sample) (n : nat) :
  Inv x_i ->
  (forall j x_cur, j < n ->
     Iterative.steps m y i ss target mr j x_i = inr x_cur -> Inv x_cur ->
     exists g, Iterative.masked_gradient m y i target mr x_cur = inr g
               /\ Inv (clip01 (step x_cur (map3 (fun v => F32.div v (norm g)) g)
                                    ss))) ->
  exists r, Iterative.steps m y i ss target mr n x_i = inr r /\ Inv r.
Proof.
  intros H0. induction n as [ | n IH]; intros Hstep.
  - exists x_i. split; [reflexivity | exact H0].
  - destruct IH as [r [Hr HI]].
    + intros j x_cur Hj. apply Hstep. lia.
    + destruct (Hstep n r (Nat.lt_succ_diag_r n) Hr HI) as [g [Hg Hnext]].
      rewrite steps_snoc, Hr. cbn [bind]. rewrite Hg. cbn [bind].
      rewrite normalize_returns. cbn [bind].
      eexists. split; [reflexivity | exact Hnext].
Qed.


(** ** The loop of [fg] *)

Lemma upd_middle {A} (pre : list A) (z v : A) (t : list A) :
  upd (length pre) v (pre ++ z :: t) = pre ++ v :: t.
Proof.
  induction pre as [ | a pre IH]; simpl.
  - reflexivity.
  - rewrite IH. reflexivity.
Qed.

(** Storing one sample's results writes column [i] of every row. *)
Lemma store_spec (i : nat) (x_in grad : sample) :
  forall (mags : list F32.t) (pre rows : list (list sample)),
    length rows = length mags ->
    Fg.store (length pre) mags i x_in grad (pre ++ rows)
    = pre ++ map2 (fun mag row => upd i (step x_in grad mag) row) mags rows.
Proof.
  induction mags as [ | mag mags IH]; intros pre rows Hlen.
  - destruct rows; [reflexivity | discriminate Hlen].
  - destruct rows as [ | row rows]; [discriminate Hlen | ].
    cbn [Fg.store map2]. unfold upd2.
    rewrite nth_middle, upd_middle.
    specialize (IH (pre ++ [upd i (step x_in grad mag) row]) rows).
    rewrite length_app, Nat.add_1_r, <- !app_assoc in IH. simpl in IH.
    apply IH. simpl in Hlen. lia.
Qed.

Lemma Forall2_map2_r {A B} (f : A -> B -> B) (l : list A) (l' : list B) :
  length l = length l' ->
  Forall2 (fun c b => exists a, In a l /\ c = f a b) (map2 f l l') l'.
Proof.
  revert l'. induction l as [ | a l IH]; intros [ | b l'] Hlen; simpl in *;
    try discriminate; constructor.
  - exists a. split; [left; reflexivity | reflexivity].
  - specialize (IH l' ltac:(lia)). revert IH. apply Forall2_weaken.
    intros c b' [a' [Hin ->]]. exists a'. split; [right; exact Hin | reflexivity].
Qed.

Section FgLoop.
Variables (m : Model) (y : list label) (mag_list : list F32.t).
Variables (target : bool) (mask : option (list mask2)).
Variable P : nat -> sample -> sample -> Prop.

(** If the gradient of every sample is available and each stored value is
    one that [P] accepts, the loop returns and has filled, in every row, the
    column of each sample. *)
Lemma fg_loop_inv :
  forall (xs : list sample) (i : nat) (x_adv : list (list sample)),
    length x_adv = length mag_list ->
    Forall (fun row => length row = i + length xs) x_adv ->
    (forall k x_k, nth_error xs k = Some x_k ->
       exists g, Fg.masked_gradient m y target mask (i + k) x_k = inr g
                 /\ forall mag, In mag mag_list ->
                      P (i + k) x_k
                        (step x_k (map3 (fun v => F32.div v (norm g)) g) mag)) ->
    exists out,
      Fg.loop m y mag_list target mask i xs x_adv = inr out
      /\ Forall2 (row_done P i xs) out x_adv.
Proof.
  induction xs as [ | x_in rest IH]; intros i x_adv Hlen Hrows Hrun.
  - exists x_adv. split; [reflexivity | ].
    apply Forall2_refl_on with (P := fun _ => True).
    + intros row _. repeat split; auto.
      intros [ | k] x_k H; discriminate H.
    + apply Forall_forall. auto.
  - destruct (Hrun 0 x_in eq_refl) as [g [Hg HP]].
    rewrite Nat.add_0_r in Hg, HP.
    set (d := map3 (fun v => F32.div v (norm g)) g) in *.
    set (x_adv' := map2 (fun mag row => upd i (step x_in d mag) row) mag_list x_adv).
    assert (Hstep : Forall2 (fun r1 r => (exists mag, In mag mag_list
                                              /\ r1 = upd i (step x_in d mag) r)
                                          /\ length r = i + length (x_in :: rest))
                            x_adv' x_adv).
    { apply Forall2_and_r; [ | exact Hrows].
      apply Forall2_map2_r. symmetry. exact Hlen. }
    destruct (IH (S i) x_adv') as [out [Hout Hdone]].
    + unfold x_adv'. rewrite length_map2 by (symmetry; exact Hlen). reflexivity.
    + revert Hstep. apply Forall2_Forall_l.
      intros r1 r [[mag [_ ->]] Hr]. rewrite length_upd, Hr. simpl. lia.
    + intros k x_k Hk. specialize (Hrun (S k) x_k Hk).
      rewrite Nat.add_succ_r in Hrun. exact Hrun.
    + exists out. split.
      * cbn [Fg.loop]. rewrite Hg. cbn [bind]. rewrite normalize_returns.
        cbn [bind]. fold d.
        pose proof (store_spec i x_in d mag_list [] x_adv Hlen) as Hs.
        simpl in Hs. rewrite Hs. exact Hout.
      * revert Hdone Hstep. apply Forall2_trans_rel.
        intros row' r1 r [Hl [Hpre Hpost]] [[mag [Hin ->]] Hr].
        rewrite length_upd in Hl. simpl in Hr.
        split; [exact Hl | split].
        -- intros k Hk. rewrite Hpre by lia. apply nth_error_upd_other. lia.
        -- intros [ | k] x_k Hk.
           ++ simpl in Hk. injection Hk as <-. rewrite Nat.add_0_r.
              exists (step x_in d mag). split; [ | apply HP; exact Hin].
              rewrite Hpre by lia. apply nth_error_upd_same. lia.
           ++ rewrite Nat.add_succ_r. apply Hpost. exact Hk.
Qed.

(** The same for the whole of [fg], where [Q] accepts the clipped values. *)
Lemma fg_spec (Q : nat -> sample -> sample -> Prop) (x : list sample) :
  (forall k x_k v, P k x_k v -> Q k x_k (clip01 v)) ->
  (forall k x_k, nth_error x k = Some x_k ->
     exists g, Fg.masked_gradient m y target mask k x_k = inr g
               /\ forall mag, In mag mag_list ->
                    P k x_k (step x_k (map3 (fun v => F32.div v (norm g)) g) mag)) ->
  exists out,
    fg m x y mag_list target mask = inr out
    /\ length out = length mag_list
    /\ Forall (fun slot =>
                 length slot = length x
                 /\ forall k x_k, nth_error x k = Some x_k ->
                      exists r, nth_error slot k = Some r /\ Q k x_k r) out.
Proof.
  intros HPQ Hrun. unfold fg.
  destruct (@fg_loop_inv x 0 (repeat (map zeros_like x) (length mag_list)))
    as [out [Hout Hdone]].
  - apply repeat_length.
  - apply Forall_forall. intros row Hin. apply repeat_spec in Hin. subst row.
    apply length_map.
  - exact Hrun.
  - exists (map (map clip01) out). rewrite Hout. cbn [bind].
    split; [reflexivity | ].
    split.
    + rewrite length_map. apply Forall2_length in Hdone.
      rewrite Hdone. apply repeat_length.
    + apply Forall_map.
      assert (Hrows : Forall (fun row => row = map zeros_like x)
                             (repeat (map zeros_like x) (length mag_list))).
      { apply Forall_forall. intros row Hin. exact (repeat_spec _ _ _ Hin). }
      pose proof (Forall2_and_r Hdone Hrows) as H.
      revert H. apply Forall2_Forall_l.
      intros row' row [[Hl [_ Hpost]] ->].
      rewrite length_map in *. split; [exact Hl | ].
      intros k x_k Hk. destruct (Hpost k x_k Hk) as [v [Hv HPv]].
      exists (clip01 v). split; [ | apply HPQ; exact HPv].
      rewrite nth_error_map. simpl in Hv. rewrite Hv. reflexivity.
Qed.
End FgLoop.








(** ** What the clipping guarantees *)

Lemma clip_in01_or_nan (v : F32.t) :
  F32.in01 (F32.clip F32.zero F32.one v) = true
  \/ F32.clip F32.zero F32.one v = S754_nan.
Proof.
  destruct (F32.is_nan v) eqn:Hn.
  - right. destruct v; try discriminate Hn. reflexivity.
  - left. apply clip_range. exact Hn.
Qed.

Lemma clip01_in01_or_nan (x : sample) :
  All3 (fun v => F32.in01 v = true \/ v = S754_nan) (clip01 x).
Proof.
  unfold clip01, map3, All3.
  apply Forall_map, Forall_forall. intros r _.
  apply Forall_map, Forall_forall. intros p _.
  apply Forall_map, Forall_forall. intros v _.
  apply clip_in01_or_nan.
Qed.

(** The steps of [iterative], unrolled at the end instead of the start. *)
Lemma steps_last (m : Model) (y : list label) (i : nat) (ss : F32.t)
    (target : option bool) (mr : option sample) (n : nat) :
  forall x_cur,
    Iterative.steps m y i ss target mr (S n) x_cur
    = (x_n <- Iterative.steps m y i ss target mr n x_cur ;;
       Iterative.steps m y i ss target mr 1 x_n).
Proof.
  induction n as [ | n IH]; intros x_cur.
  - reflexivity.
  - change (Iterative.steps m y i ss target mr (S (S n)) x_cur)
      with (grad <- Iterative.masked_gradient m y i target mr x_cur ;;
            grad <- normalize grad ;;
            Iterative.steps m y i ss target mr (S n)
                            (clip01 (step x_cur grad ss))).
    change (Iterative.steps m y i ss target mr (S n) x_cur)
      with (grad <- Iterative.masked_gradient m y i target mr x_cur ;;
            grad <- normalize grad ;;
            Iterative.steps m y i ss target mr n
                            (clip01 (step x_cur grad ss))).
    destruct (Iterative.masked_gradient m y i target mr x_cur) as [e | g];
      [reflexivity | ].
    cbn [bind]. rewrite normalize_returns. cbn [bind]. apply IH.
Qed.

(** After each step the current sample has been clipped: every entry lies
    in [[0,1]], unless it is NaN, which clipping passes on. *)
Lemma steps_clipped (m : Model) (y : list label) (i : nat) (ss : F32.t)
    (target : option bool) (mr : option sample) (n : nat) (x_in r : sample) :
  Iterative.steps m y i ss target mr (S n) x_in = inr r ->
  All3 (fun v => F32.in01 v = true \/ v = S754_nan) r.
Proof.
  rewrite steps_last. intros H.
  apply bind_inr_inv in H. destruct H as [x_n [_ H]].
  cbn [Iterative.steps] in H.
  apply bind_inr_inv in H. destruct H as [g [_ H]].
  rewrite normalize_returns in H. cbn [bind ret] in H.
  injection H as <-. apply clip01_in01_or_nan.
Qed.

(** C4 (fails).  The current sample is clipped after each step, but
    clipping does not remove a NaN: on an input in [[0,1]] whose gradient has
    norm zero, the value after the first step, and the returned batch, hold
    NaN, which is not in [[0,1]]. *)
Theorem C4_zero_norm_gradient_leaves_unit_range :
  Forall unit_range one_pixel
  /\ Iterative.steps flat_model one_label 0 pixel_half (Some true) None 1
                     [[ [pixel_half; F32.zero; F32.one] ]]
     = inr [[ nan_pixel ]]
  /\ iterative flat_model one_pixel one_label 20 pixel_half (Some true) None
     = inr [ [[ nan_pixel ]] ]
  /\ F32.in01 S754_nan = false.
Proof.
  split; [repeat constructor | ].
  split; [ | split]; vm_compute; reflexivity.
Qed.

(** C5 (fails).  With a mask that selects nothing, or a gradient that
    vanishes on the selected pixels, the masked gradient has norm zero and
    the outputs are NaN at every position, those outside the mask included:
    there the output differs from the input. *)
Theorem C5_masked_out_pixels_become_nan :
  Forall unit_range two_pixels
  /\ fg ones_model two_pixels one_label [pixel_half] true (Some empty_mask)
     = inr [ [ [ [ nan_pixel; nan_pixel ] ] ] ]
  /\ fg flat_model two_pixels one_label [pixel_half] false (Some left_mask)
     = inr [ [ [ [ nan_pixel; nan_pixel ] ] ] ]
  /\ iterative ones_model two_pixels one_label 20 pixel_half (Some true)
               (Some empty_mask)
     = inr [ [ [ nan_pixel; nan_pixel ] ] ]
  /\ F32.eqb S754_nan F32.one = false.
Proof.
  split; [repeat constructor | ].
  split; [ | split; [ | split] ]; vm_compute; reflexivity.
Qed.

(** ** Double-precision division of integers

    [check_mask] divides two integers in double precision and compares the
    quotient with the doubles 0.1 and 0.9.  This section follows the
    division through [SFdiv]: the operands are normalised to 53-bit
    mantissas, the quotient is rounded to within half a unit in the last
    place, and for operands below 2^51 that is accurate enough for the
    comparisons to agree with the exact ones against 1/10 and 9/10. *)

Section DoubleDivision.
Local Open Scope Z_scope.
Local Unset Implicit Arguments.


Lemma digits2_pos_bounds (p : positive) :
  2 ^ (Zpos (digits2_pos p) - 1) <= Zpos p < 2 ^ (Zpos (digits2_pos p)).
Proof.
  induction p as [p IH | p IH | ]; cbn [digits2_pos].
  - rewrite Pos2Z.inj_succ.
    replace (Z.succ (Z.pos (digits2_pos p)) - 1) with (Z.succ (Z.pos (digits2_pos p) - 1)) by lia.
    rewrite !Z.pow_succ_r by lia. lia.
  - rewrite Pos2Z.inj_succ.
    replace (Z.succ (Z.pos (digits2_pos p)) - 1) with (Z.succ (Z.pos (digits2_pos p) - 1)) by lia.
    rewrite !Z.pow_succ_r by lia. lia.
  - simpl. lia.
Qed.

Lemma digits2_pos_unique (p : positive) (d : Z) :
  2 ^ (d - 1) <= Zpos p < 2 ^ d -> Zpos (digits2_pos p) = d.
Proof.
  intros [Hlo Hhi]. pose proof (digits2_pos_bounds p) as [Hlo' Hhi'].
  set (d' := Zpos (digits2_pos p)) in *.
  assert (0 < d) by (destruct d; try lia; simpl in Hhi; lia).
  destruct (Z.lt_trichotomy d' d) as [Hlt | [Heq | Hgt]]; [ | exact Heq | ].
  - assert (2 ^ d' <= 2 ^ (d - 1)) by (apply Z.pow_le_mono_r; lia). lia.
  - assert (2 ^ d <= 2 ^ (d' - 1)) by (apply Z.pow_le_mono_r; lia). lia.
Qed.

Lemma new_location_ok (D r : Z) :
  0 < D -> 0 <= r < D -> loc_ok (new_location D r) r D.
Proof.
  intros HD Hr. unfold new_location, new_location_even, new_location_odd.
  destruct (Z.even D) eqn:He.
  - destruct (Z.eqb_spec r 0) as [-> | Hne]; [reflexivity | ].
    destruct (Z.compare_spec (2 * r) D); unfold loc_ok; lia.
  - destruct (Z.eqb_spec r 0) as [-> | Hne]; [reflexivity | ].
    assert (Hodd : Z.odd D = true) by (rewrite <- Z.negb_even, He; reflexivity).
    apply Z.odd_spec in Hodd. destruct Hodd as [c Hc].
    destruct (Z.compare_spec (2 * r + 1) D); unfold loc_ok; lia.
Qed.

Lemma loc_of_shr_record_of_loc (m : Z) (l : location) :
  loc_of_shr_record (shr_record_of_loc m l) = l.
Proof. destruct l as [ | [ | | ]]; reflexivity. Qed.

Lemma shr_m_of_loc (m : Z) (l : location) : shr_m (shr_record_of_loc m l) = m.
Proof. destruct l as [ | [ | | ]]; reflexivity. Qed.

Lemma Zdigits2_53 (m : Z) :
  4503599627370496 <= m < 9007199254740992 -> Zdigits2 m = 53.
Proof.
  intros H. destruct m as [ | p | p]; try lia.
  simpl. apply digits2_pos_unique. simpl. lia.
Qed.

Lemma Zdigits2_54 (m : Z) :
  9007199254740992 <= m < 18014398509481984 -> Zdigits2 m = 54.
Proof.
  intros H. destruct m as [ | p | p]; try lia.
  simpl. apply digits2_pos_unique. simpl. lia.
Qed.

Lemma shr_fexp_53 (m e : Z) (l : location) :
  4503599627370496 <= m < 9007199254740992 -> -1074 <= e ->
  shr_fexp F64.prec F64.emax m e l = (shr_record_of_loc m l, e).
Proof.
  intros Hm He. unfold shr_fexp. rewrite (Zdigits2_53 m Hm).
  unfold fexp, emin, F64.prec, F64.emax.
  replace (Z.max (53 + e - 53) (3 - 1024 - 53) - e) with 0 by lia.
  reflexivity.
Qed.

Lemma shr_fexp_54 (m e : Z) (l : location) :
  9007199254740992 <= m < 18014398509481984 -> -1075 <= e ->
  shr_fexp F64.prec F64.emax m e l = (shr_1 (shr_record_of_loc m l), e + 1).
Proof.
  intros Hm He. unfold shr_fexp. rewrite (Zdigits2_54 m Hm).
  unfold fexp, emin, F64.prec, F64.emax.
  replace (Z.max (54 + e - 53) (3 - 1024 - 53) - e) with 1 by lia.
  reflexivity.
Qed.

(** The last stage of rounding: renormalise a mantissa that may have
    reached 2^53. *)
Lemma round_finish (sx : bool) (m1 e : Z) :
  4503599627370496 <= m1 <= 9007199254740992 -> -1074 <= e <= 900 ->
  exists (m : positive) (k : Z),
    (let '(mrs, e') := shr_fexp F64.prec F64.emax m1 e loc_Exact in
     match shr_m mrs with
     | Z0 => S754_zero sx
     | Zpos m => if e' <=? F64.emax - F64.prec then S754_finite sx m e' else S754_infinity sx
     | Zneg _ => S754_nan
     end) = S754_finite sx m (e + k)
    /\ 4503599627370496 <= Zpos m < 9007199254740992
    /\ ((k = 0 /\ Zpos m = m1) \/ (k = 1 /\ 2 * Zpos m = m1)).
Proof.
  intros Hm He.
  destruct (Z.eq_dec m1 9007199254740992) as [-> | Hne].
  - rewrite shr_fexp_54 by lia. simpl shr_m.
    exists 4503599627370496%positive, 1.
    replace (e + 1 <=? F64.emax - F64.prec) with true
      by (symmetry; apply Z.leb_le; unfold F64.emax, F64.prec; lia).
    split; [reflexivity | ]. split; [lia | right; lia].
  - rewrite shr_fexp_53 by lia. simpl shr_m.
    destruct m1 as [ | p | p]; try lia.
    exists p, 0.
    replace (e <=? F64.emax - F64.prec) with true
      by (symmetry; apply Z.leb_le; unfold F64.emax, F64.prec; lia).
    rewrite Z.add_0_r.
    split; [reflexivity | ]. split; [lia | left; lia].
Qed.

Lemma round_aux_bound (q e r D : Z) (l : location) :
  4503599627370496 <= q < 18014398509481984 ->
  0 < D -> 0 <= r < D -> loc_ok l r D -> -1074 <= e <= 800 ->
  exists (m : positive) (k : Z),
    binary_round_aux F64.prec F64.emax false q e l = S754_finite false m (e + k)
    /\ 4503599627370496 <= Zpos m < 9007199254740992
    /\ 0 <= k <= 2
    /\ 2 ^ k * ((2 * Zpos m - 1) * D) <= 2 * (q * D + r)
       <= 2 ^ k * ((2 * Zpos m + 1) * D).
Proof.
  intros Hq HD Hr Hl He. unfold binary_round_aux.
  destruct (Z_lt_le_dec q 9007199254740992) as [Hlt | Hge].
  - rewrite shr_fexp_53 by lia.
    rewrite shr_m_of_loc, loc_of_shr_record_of_loc.
    set (m1 := round_nearest_even q l).
    assert (Hm1 : (m1 = q /\ 2 * r <= D) \/ (m1 = q + 1 /\ D <= 2 * r)).
    { unfold m1. destruct l as [ | [ | | ]]; unfold loc_ok in Hl;
        cbn [round_nearest_even].
      - left. lia.
      - destruct (Z.even q); [left | right]; lia.
      - left. lia.
      - right. lia. }
    destruct (round_finish false m1 e) as [m [k [Heq [Hm Hk]]]]; [lia | lia | ].
    rewrite Heq. exists m, k. split; [reflexivity | ]. split; [exact Hm | ].
    split; [lia | ].
    destruct Hk as [[-> Hmm] | [-> Hmm]]; simpl Z.pow; nia.
  - rewrite shr_fexp_54 by lia.
    set (mrs := shr_1 (shr_record_of_loc q l)).
    set (m1 := round_nearest_even (shr_m mrs) (loc_of_shr_record mrs)).
    assert (Hm1 : exists q' b, q = 2 * q' + b /\ (b = 0 \/ b = 1)
                   /\ ((m1 = q' /\ (b = 0 \/ r = 0))
                       \/ (m1 = q' + 1 /\ b = 1))).
    { unfold m1, mrs. destruct q as [ | p | p]; try lia.
      destruct p as [p | p | ]; [ | | lia].
      - exists (Zpos p), 1. split; [lia | ]. split; [right; reflexivity | ].
        destruct l as [ | [ | | ]]; unfold loc_ok in Hl;
          cbn [shr_1 shr_record_of_loc shr_m loc_of_shr_record
               round_nearest_even orb];
          try (right; split; [reflexivity | reflexivity]).
        destruct (Z.even (Z.pos p)); [left | right]; split; auto; lia.
      - exists (Zpos p), 0. split; [lia | ]. split; [left; reflexivity | ].
        destruct l as [ | [ | | ]];
          cbn [shr_1 shr_record_of_loc shr_m loc_of_shr_record
               round_nearest_even orb];
          left; split; auto. }
    destruct Hm1 as [q' [b [Hqb [Hb Hm1]]]].
    destruct (round_finish false m1 (e + 1)) as [m [k [Heq [Hm Hk]]]];
      [lia | lia | ].
    rewrite Heq. exists m, (1 + k). split; [f_equal; lia | ].
    split; [exact Hm | ]. split; [lia | ].
    destruct Hk as [[-> Hmm] | [-> Hmm]]; simpl Z.pow; nia.
Qed.

Lemma pos_iter_xO (p k : positive) :
  Zpos (Pos.iter xO p k) = Zpos p * 2 ^ Zpos k.
Proof.
  induction k as [ | k IH] using Pos.peano_ind.
  - simpl. lia.
  - rewrite Pos.iter_succ, Pos2Z.inj_succ, Z.pow_succ_r by lia.
    rewrite Pos2Z.inj_xO, IH. ring.
Qed.

Lemma round_aux_exact (sx : bool) (p : positive) (e : Z) :
  4503599627370496 <= Zpos p < 9007199254740992 -> -1074 <= e <= 971 ->
  binary_round_aux F64.prec F64.emax sx (Zpos p) e loc_Exact = S754_finite sx p e.
Proof.
  intros Hp He. unfold binary_round_aux.
  rewrite shr_fexp_53 by lia. cbn [shr_record_of_loc shr_m loc_of_shr_record round_nearest_even].
  rewrite shr_fexp_53 by lia. cbn [shr_record_of_loc shr_m].
  replace (e <=? F64.emax - F64.prec) with true
    by (symmetry; apply Z.leb_le; unfold F64.emax, F64.prec; lia).
  reflexivity.
Qed.

(** A positive integer below 2^53 converts exactly: the mantissa is the
    integer shifted left until it has 53 bits. *)
Lemma of_Z_pos (n : Z) :
  0 < n < 9007199254740992 ->
  exists (m : positive) (c : Z),
    F64.of_Z n = S754_finite false m (- c)
    /\ 0 <= c <= 52
    /\ Zpos m = n * 2 ^ c
    /\ 4503599627370496 <= Zpos m < 9007199254740992.
Proof.
  intros Hn. destruct n as [ | p | p]; try lia.
  pose proof (digits2_pos_bounds p) as Hd.
  set (d := Zpos (digits2_pos p)) in *.
  assert (Hd1 : 1 <= d) by (unfold d; lia).
  assert (Hd53 : d <= 53).
  { destruct (Z_le_gt_dec d 53) as [H | H]; [exact H | ].
    assert (2 ^ 53 <= 2 ^ (d - 1)) by (apply Z.pow_le_mono_r; lia).
    change (2 ^ 53) with 9007199254740992 in *. lia. }
  assert (Hpow : 2 ^ (d - 1) * 2 ^ (53 - d) = 4503599627370496).
  { rewrite <- Z.pow_add_r by lia. replace (d - 1 + (53 - d)) with 52 by lia.
    reflexivity. }
  assert (Hpow' : 2 ^ d * 2 ^ (53 - d) = 9007199254740992).
  { rewrite <- Z.pow_add_r by lia. replace (d + (53 - d)) with 53 by lia.
    reflexivity. }
  assert (Hc : 0 < 2 ^ (53 - d)) by (apply Z.pow_pos_nonneg; lia).
  unfold F64.of_Z. cbn [binary_normalize]. unfold binary_round.
  fold d. unfold fexp, emin, F64.prec, F64.emax, shl_align.
  replace (Z.max (d + 0 - 53) (3 - 1024 - 53) - 0) with (d - 53) by lia.
  replace (Z.max (d + 0 - 53) (3 - 1024 - 53)) with (d - 53) by lia.
  destruct (d - 53) as [ | k | k] eqn:Hk; try lia.
  - exists p, 0. change (- 0) with 0.
    assert (Hd' : d = 53) by lia. rewrite Hd' in Hpow, Hpow', Hd.
    change (2 ^ (53 - 53)) with 1 in *.
    split; [apply round_aux_exact; lia | ].
    split; [lia | ]. split; [simpl; lia | lia].
  - exists (Pos.iter xO p k), (Zpos k).
    assert (Hk' : Zpos k = 53 - d) by lia.
    assert (Hm : Zpos (Pos.iter xO p k) = Zpos p * 2 ^ (53 - d))
      by (rewrite pos_iter_xO, Hk'; reflexivity).
    split.
    + change (Z.neg k) with (- Zpos k). apply round_aux_exact.
      * rewrite Hm. nia.
      * lia.
    + split; [lia | ]. split; [rewrite Hm, Hk'; reflexivity | rewrite Hm; nia].
Qed.

(** The quotient of two floats with 53-bit mantissas is a float with a
    53-bit mantissa, within half a unit in the last place of the exact
    quotient. *)
Lemma SFdiv_bound (m1 m2 : positive) (c1 c2 : Z) :
  4503599627370496 <= Zpos m1 < 9007199254740992 ->
  4503599627370496 <= Zpos m2 < 9007199254740992 ->
  0 <= c1 <= 52 -> 0 <= c2 <= 52 ->
  exists (m : positive) (k : Z),
    F64.div (S754_finite false m1 (- c1)) (S754_finite false m2 (- c2))
    = S754_finite false m (c2 - c1 - 53 + k)
    /\ 4503599627370496 <= Zpos m < 9007199254740992
    /\ 0 <= k <= 2
    /\ 2 ^ k * ((2 * Zpos m - 1) * Zpos m2) <= 2 * (Zpos m1 * 9007199254740992)
       <= 2 ^ k * ((2 * Zpos m + 1) * Zpos m2).
Proof.
  intros H1 H2 Hc1 Hc2.
  unfold F64.div. cbn [SFdiv xorb]. unfold SFdiv_core_binary.
  rewrite (Zdigits2_53 (Zpos m1) H1), (Zdigits2_53 (Zpos m2) H2).
  unfold fexp, emin, F64.prec, F64.emax.
  replace (Z.min (Z.max (53 + - c1 - (53 + - c2) - 53) (3 - 1024 - 53))
                 (- c1 - - c2))
    with (c2 - c1 - 53) by lia.
  replace (- c1 - - c2 - (c2 - c1 - 53)) with 53 by lia.
  cbv zeta.
  replace (Z.shiftl (Z.pos m1) 53) with (Zpos m1 * 9007199254740992)
    by (rewrite Z.shiftl_mul_pow2 by lia; reflexivity).
  pose proof (Z_div_mod (Zpos m1 * 9007199254740992) (Zpos m2) ltac:(lia)) as Hdiv.
  destruct (Z.div_eucl (Zpos m1 * 9007199254740992) (Zpos m2)) as [q r].
  destruct Hdiv as [Hqr Hr].
  assert (Hq : 4503599627370496 <= q < 18014398509481984) by nia.
  destruct (@round_aux_bound q (c2 - c1 - 53) r (Zpos m2) (new_location (Zpos m2) r))
    as [m [k [Heq [Hm [Hk Hb]]]]]; try lia.
  - apply new_location_ok; lia.
  - exists m, k. split; [exact Heq | ]. split; [exact Hm | ]. split; [exact Hk | ].
    rewrite Hqr. replace (Zpos m2 * q + r) with (q * Zpos m2 + r) by ring.
    exact Hb.
Qed.

(** Order of two positive finite floats: by exponent, then by mantissa
    (which is the order of their values when mantissas have one width). *)
Lemma SFltb_finite_pos (m1 m2 : positive) (e1 e2 : Z) :
  SFltb (S754_finite false m1 e1) (S754_finite false m2 e2) = true
  <-> e1 < e2 \/ (e1 = e2 /\ Zpos m1 < Zpos m2).
Proof.
  unfold SFltb, SFcompare.
  destruct (Z.compare_spec e1 e2) as [He | He | He].
  - fold (Pos.compare m1 m2).
    destruct (Pos.compare_spec m1 m2) as [Hc | Hc | Hc].
    + subst m2. split; [discriminate | ]. intros [H | [_ H]]; lia.
    + apply Pos2Z.pos_lt_pos in Hc. split; [intros _; right; lia | reflexivity].
    + apply Pos2Z.pos_lt_pos in Hc. split; [discriminate | ].
      intros [H | [_ H]]; lia.
  - split; [intros _; left; exact He | reflexivity].
  - split; [discriminate | ]. intros [H | [H _]]; lia.
Qed.


Lemma pow2_lt (u v : Z) : 0 <= u -> u < v -> 2 * 2 ^ u <= 2 ^ v.
Proof.
  intros Hu Huv. rewrite <- Z.pow_succ_r by lia.
  apply Z.pow_le_mono_r; lia.
Qed.

(** The quotient of two positive integers below 2^53, as computed in
    double precision: mantissa [m], exponent [c2 - c1 - 53 + k], within half
    a unit in the last place of [s / a]. *)
Lemma quotient_bound (s a : Z) :
  0 < s < 9007199254740992 -> 0 < a < 9007199254740992 ->
  exists (m : positive) (c1 c2 k : Z),
    F64.div (F64.of_Z s) (F64.of_Z a) = S754_finite false m (c2 - c1 - 53 + k)
    /\ 4503599627370496 <= Zpos m < 9007199254740992
    /\ 0 <= c1 <= 52 /\ 0 <= c2 <= 52 /\ 0 <= k <= 2
    /\ ((2 * Zpos m - 1) * a) * (2 ^ k * 2 ^ c2)
       <= (18014398509481984 * s) * 2 ^ c1
       <= ((2 * Zpos m + 1) * a) * (2 ^ k * 2 ^ c2).
Proof.
  intros Hs Ha.
  destruct (of_Z_pos s Hs) as [m1 [c1 [E1 [Hc1 [Hm1 Hb1]]]]].
  destruct (of_Z_pos a Ha) as [m2 [c2 [E2 [Hc2 [Hm2 Hb2]]]]].
  rewrite E1, E2.
  destruct (SFdiv_bound m1 m2 c1 c2 Hb1 Hb2 Hc1 Hc2) as [m [k [E [Hm [Hk Hb]]]]].
  exists m, c1, c2, k. split; [exact E | ].
  split; [exact Hm | ]. split; [exact Hc1 | ]. split; [exact Hc2 | ].
  split; [exact Hk | ].
  rewrite Hm1, Hm2 in Hb.
  replace ((2 * Z.pos m - 1) * a * (2 ^ k * 2 ^ c2))
    with (2 ^ k * ((2 * Z.pos m - 1) * (a * 2 ^ c2))) by ring.
  replace ((2 * Z.pos m + 1) * a * (2 ^ k * 2 ^ c2))
    with (2 ^ k * ((2 * Z.pos m + 1) * (a * 2 ^ c2))) by ring.
  replace (18014398509481984 * s * 2 ^ c1)
    with (2 * (s * 2 ^ c1 * 9007199254740992)) by ring.
  exact Hb.
Qed.

Lemma le_cancel_r (A B W : Z) : 0 < W -> A * W <= B * W -> A <= B.
Proof. intros HW H. apply Z.mul_le_mono_pos_r in H; assumption. Qed.

Lemma quotient_above_min (s a : Z) :
  0 < s < 9007199254740992 -> 0 < a < 2251799813685248 ->
  F64.ltb MASK_THRES_MIN (F64.div (F64.of_Z s) (F64.of_Z a)) = true <-> a < 10 * s.
Proof.
  intros Hs Ha.
  destruct (@quotient_bound s a Hs ltac:(lia))
    as [m [c1 [c2 [k [E [Hm [Hc1 [Hc2 [Hk [Hlo Hhi]]]]]]]]]].
  rewrite E. clear E. unfold MASK_THRES_MIN, F64.ltb. rewrite SFltb_finite_pos.
  assert (HW : 0 < 2 ^ k * 2 ^ c2)
    by (apply Z.mul_pos_pos; apply Z.pow_pos_nonneg; lia).
  assert (Hpow : 2 ^ (c2 + k + 3) = 8 * (2 ^ k * 2 ^ c2)).
  { rewrite !Z.pow_add_r by lia. change (2 ^ 3) with 8. ring. }
  set (W := 2 ^ k * 2 ^ c2) in *. set (X := 2 ^ c1) in *.
  set (A1 := (2 * Zpos m - 1) * a) in *.
  set (A2 := (2 * Zpos m + 1) * a) in *.
  assert (HA1 : 9007199254740991 * a <= A1).
  { unfold A1. apply Z.mul_le_mono_nonneg_r; [lia | ]. clear - Hm. lia. }
  assert (HA2 : A2 <= 18014398509481983 * a).
  { unfold A2. apply Z.mul_le_mono_nonneg_r; [lia | ]. clear - Hm. lia. }
  destruct (Z.lt_trichotomy (-56) (c2 - c1 - 53 + k)) as [He | [He | He]].
  - (* the quotient is at least 1/8 *)
    assert (HXW : 2 * X <= 8 * W)
      by (rewrite <- Hpow; unfold X; apply pow2_lt; lia).
    assert (Hlo' : A1 <= 72057594037927936 * s).
    { apply le_cancel_r with (W := W); [exact HW | ].
      assert (18014398509481984 * s * X <= 18014398509481984 * s * (4 * W))
        by (apply Z.mul_le_mono_nonneg_l; lia).
      replace (72057594037927936 * s * W)
        with (18014398509481984 * s * (4 * W)) by ring. lia. }
    split; [intros _ | intros _; left; exact He].
    clear - Hlo' HA1 Hs Ha. lia.
  - (* same exponent as the threshold: the mantissas decide *)
    assert (HXW : X = 8 * W) by (rewrite <- Hpow; unfold X; f_equal; lia).
    rewrite HXW in Hlo, Hhi.
    assert (Hlo' : A1 <= 144115188075855872 * s).
    { apply le_cancel_r with (W := W); [exact HW | ].
      replace (144115188075855872 * s * W)
        with (18014398509481984 * s * (8 * W)) by ring. exact Hlo. }
    assert (Hhi' : 144115188075855872 * s <= A2).
    { apply le_cancel_r with (W := W); [exact HW | ].
      replace (144115188075855872 * s * W)
        with (18014398509481984 * s * (8 * W)) by ring. exact Hhi. }
    split.
    + intros [H | [_ H]]; [lia | ].
      assert (H1 : 14411518807585589 * a <= A1).
      { unfold A1. apply Z.mul_le_mono_nonneg_r; [lia | ]. clear - H. lia. }
      clear - Hlo' H1 Hs Ha. lia.
    + intros H. right. split; [exact He | ].
      destruct (Z_lt_le_dec 7205759403792794 (Zpos m)) as [Hlt | Hge];
        [exact Hlt | exfalso].
      assert (H1 : A2 <= 14411518807585589 * a).
      { unfold A2. apply Z.mul_le_mono_nonneg_r; [lia | ]. clear - Hge. lia. }
      clear - H Hhi' H1 Hs Ha. lia.
  - (* the quotient is below 1/16 *)
    assert (HXW : 16 * W <= X).
    { replace (16 * W) with (2 * 2 ^ (c2 + k + 3)) by lia.
      unfold X. apply pow2_lt; lia. }
    assert (Hhi' : 288230376151711744 * s <= A2).
    { apply le_cancel_r with (W := W); [exact HW | ].
      assert (18014398509481984 * s * (16 * W) <= 18014398509481984 * s * X)
        by (apply Z.mul_le_mono_nonneg_l; lia).
      replace (288230376151711744 * s * W)
        with (18014398509481984 * s * (16 * W)) by ring. lia. }
    split; [intros [H | [H _]]; lia | ].
    intros H. exfalso. clear - H Hhi' HA2 Hs Ha. lia.
Qed.

Lemma quotient_below_max (s a : Z) :
  0 < s < 9007199254740992 -> 0 < a < 2251799813685248 ->
  F64.ltb (F64.div (F64.of_Z s) (F64.of_Z a)) MASK_THRES_MAX = true <-> 10 * s < 9 * a.
Proof.
  intros Hs Ha.
  destruct (@quotient_bound s a Hs ltac:(lia))
    as [m [c1 [c2 [k [E [Hm [Hc1 [Hc2 [Hk [Hlo Hhi]]]]]]]]]].
  rewrite E. clear E. unfold MASK_THRES_MAX, F64.ltb. rewrite SFltb_finite_pos.
  assert (HW : 0 < 2 ^ k * 2 ^ c2)
    by (apply Z.mul_pos_pos; apply Z.pow_pos_nonneg; lia).
  assert (Hpow : 2 ^ (c2 + k) = 2 ^ k * 2 ^ c2).
  { rewrite !Z.pow_add_r by lia. ring. }
  set (W := 2 ^ k * 2 ^ c2) in *. set (X := 2 ^ c1) in *.
  set (A1 := (2 * Zpos m - 1) * a) in *.
  set (A2 := (2 * Zpos m + 1) * a) in *.
  assert (HA1 : 9007199254740991 * a <= A1).
  { unfold A1. apply Z.mul_le_mono_nonneg_r; [lia | ]. clear - Hm. lia. }
  assert (HA2 : A2 <= 18014398509481983 * a).
  { unfold A2. apply Z.mul_le_mono_nonneg_r; [lia | ]. clear - Hm. lia. }
  destruct (Z.lt_trichotomy (c2 - c1 - 53 + k) (-53)) as [He | [He | He]].
  - (* the quotient is below 1/2 *)
    assert (HXW : 2 * W <= X).
    { rewrite <- Hpow. unfold X. apply pow2_lt; lia. }
    assert (Hhi' : 36028797018963968 * s <= A2).
    { apply le_cancel_r with (W := W); [exact HW | ].
      assert (18014398509481984 * s * (2 * W) <= 18014398509481984 * s * X)
        by (apply Z.mul_le_mono_nonneg_l; lia).
      replace (36028797018963968 * s * W)
        with (18014398509481984 * s * (2 * W)) by ring. lia. }
    split; [intros _ | intros _; left; exact He].
    clear - Hhi' HA2 Hs Ha. lia.
  - (* same exponent as the threshold: the mantissas decide *)
    assert (HXW : X = W) by (rewrite <- Hpow; unfold X; f_equal; lia).
    rewrite HXW in Hlo, Hhi.
    assert (Hlo' : A1 <= 18014398509481984 * s)
      by (apply le_cancel_r with (W := W); [exact HW | exact Hlo]).
    assert (Hhi' : 18014398509481984 * s <= A2)
      by (apply le_cancel_r with (W := W); [exact HW | exact Hhi]).
    split.
    + intros [H | [_ H]]; [lia | ].
      assert (H1 : A2 <= 16212958658533785 * a).
      { unfold A2. apply Z.mul_le_mono_nonneg_r; [lia | ]. clear - H. lia. }
      clear - Hhi' H1 Hs Ha. lia.
    + intros H. right. split; [exact He | ].
      destruct (Z_lt_le_dec (Zpos m) 8106479329266893) as [Hlt | Hge];
        [exact Hlt | exfalso].
      assert (H1 : 16212958658533785 * a <= A1).
      { unfold A1. apply Z.mul_le_mono_nonneg_r; [lia | ]. clear - Hge. lia. }
      clear - H Hlo' H1 Hs Ha. lia.
  - (* the quotient is at least 1 *)
    assert (HXW : 2 * X <= W).
    { rewrite <- Hpow. unfold X. apply pow2_lt; lia. }
    assert (Hlo' : 2 * A1 <= 18014398509481984 * s).
    { apply le_cancel_r with (W := W); [exact HW | ].
      assert (18014398509481984 * s * (2 * X) <= 18014398509481984 * s * W)
        by (apply Z.mul_le_mono_nonneg_l; lia).
      lia. }
    split; [intros [H | [H _]]; lia | ].
    intros H. exfalso. clear - H Hlo' HA1 Hs Ha. lia.
Qed.

End DoubleDivision.

(** ** [check_mask] against the exact ratio *)

Lemma sum_binary_row (row : list Z) :
  Forall (fun v => v = 0%Z \/ v = 1%Z) row ->
  (0 <= fold_right Z.add 0 row <= Z.of_nat (length row))%Z.
Proof.
  induction 1 as [ | v row Hv _ IH]; cbn [fold_right length].
  - lia.
  - rewrite Nat2Z.inj_succ. destruct Hv; subst v; lia.
Qed.

Lemma np_sum_binary (mask : int_image Z) :
  binary_mask mask ->
  (0 <= np_sum mask <= Z.of_nat (length (concat mask)))%Z.
Proof.
  intros H. unfold np_sum. apply sum_binary_row.
  apply Forall_concat. exact H.
Qed.

Lemma length_concat_rectangular {A} (a : int_image A) :
  rectangular a -> length (concat a) = height a * width a.
Proof.
  unfold rectangular, height. generalize (width a). intros w H.
  induction H as [ | row rows Hrow _ IH]; cbn [concat length].
  - reflexivity.
  - rewrite length_app, IH, Hrow. reflexivity.
Qed.

Lemma check_mask_exact (s a : Z) :
  (0 <= s <= a)%Z -> (0 < a < 2251799813685248)%Z ->
  F64.ltb MASK_THRES_MIN (F64.div (F64.of_Z s) (F64.of_Z a))
  && F64.ltb (F64.div (F64.of_Z s) (F64.of_Z a)) MASK_THRES_MAX = true
  <-> (a < 10 * s /\ 10 * s < 9 * a)%Z.
Proof.
  intros Hs Ha. rewrite andb_true_iff.
  destruct (Z.eq_dec s 0) as [-> | Hne].
  - destruct (of_Z_pos a ltac:(lia)) as [m [c [E _]]]. rewrite E.
    split; [intros [H _]; discriminate H | lia].
  - rewrite quotient_above_min, quotient_below_max by lia. reflexivity.
Qed.

(** C6.  For a binary mask of at least one and fewer than 2^51 pixels,
    [check_mask] accepts exactly when the area ratio
    [sum(mask) / (height * width)], taken as an exact fraction, is strictly
    above 1/10 and strictly below 9/10; a ratio equal to 1/10 or to 9/10 is
    rejected.  The rounding of the division and of the two thresholds never
    changes the outcome in that range. *)
Theorem C6_check_mask_strict_area_gate (mask : int_image Z) :
  rectangular mask -> binary_mask mask ->
  (0 < Z.of_nat (height mask * width mask) < 2251799813685248)%Z ->
  (check_mask mask = true
   <-> (1 # 10 < exact_ratio mask)%Q /\ (exact_ratio mask < 9 # 10)%Q)
  /\ ((exact_ratio mask == 1 # 10)%Q -> check_mask mask = false)
  /\ ((exact_ratio mask == 9 # 10)%Q -> check_mask mask = false).
Proof.
  intros Hrect Hbin Harea.
  pose proof (np_sum_binary Hbin) as Hsum.
  rewrite (length_concat_rectangular Hrect) in Hsum.
  set (s := np_sum mask) in *.
  set (n := height mask * width mask) in *.
  assert (Hpos : Zpos (Pos.of_nat n) = Z.of_nat n).
  { rewrite <- positive_nat_Z, Nat2Pos.id by lia. reflexivity. }
  assert (Hiff : check_mask mask = true
                 <-> (Z.of_nat n < 10 * s /\ 10 * s < 9 * Z.of_nat n)%Z).
  { unfold check_mask, area_ratio. fold s n.
    apply check_mask_exact; lia. }
  unfold exact_ratio, Qlt, Qeq. fold s n. cbn [Qnum Qden]. rewrite Hpos.
  split; [ | split].
  - rewrite Hiff. lia.
  - intros Heq. apply not_true_is_false. intros Hc.
    apply (proj1 Hiff) in Hc. lia.
  - intros Heq. apply not_true_is_false. intros Hc.
    apply (proj1 Hiff) in Hc. lia.
Qed.

Lemma C6_check_mask_strict_area_gate_witness :
  rectangular fifth_mask /\ binary_mask fifth_mask
  /\ (check_mask fifth_mask = true
      <-> (1 # 10 < exact_ratio fifth_mask)%Q /\ (exact_ratio fifth_mask < 9 # 10)%Q).
Proof.
  assert (Hrect : rectangular fifth_mask) by (repeat constructor).
  assert (Hbin : binary_mask fifth_mask)
    by (repeat constructor; (left; reflexivity) || (right; reflexivity)).
  split; [exact Hrect | split; [exact Hbin | ] ].
  refine (proj1 (@C6_check_mask_strict_area_gate fifth_mask Hrect Hbin _)).
  simpl. lia.
Defined.

(** A mask that is 1 everywhere, such as the one [find_sign_area] returns
    when it finds no component, is rejected whatever its size. *)
Lemma check_mask_all_ones (mask : int_image Z) :
  rectangular mask -> Forall (Forall (eq 1%Z)) mask ->
  (0 < Z.of_nat (height mask * width mask) < 2251799813685248)%Z ->
  check_mask mask = false.
Proof.
  intros Hrect Hones Harea.
  assert (Hsum : np_sum mask = Z.of_nat (length (concat mask))).
  { unfold np_sum. pose proof (Forall_concat Hones) as H.
    induction H as [ | v l Hv _ IH]; cbn [fold_right length].
    - reflexivity.
    - subst v. rewrite IH. lia. }
  rewrite (length_concat_rectangular Hrect) in Hsum.
  apply not_true_is_false. intros Hc.
  unfold check_mask, area_ratio in Hc. rewrite Hsum in Hc.
  apply check_mask_exact in Hc; lia.
Qed.

(** ** One masked-out entry *)

(** Where the mask is 0, one step leaves an entry of [[0,1]] as it was,
    provided the gradient entry is finite, the norm can be divided by and
    the magnitude is finite.  With a norm of zero the quotient is NaN
    instead. *)
Lemma masked_entry_kept (v g mk n mag : F32.t) :
  F32.in01 v = true -> F32.is_finite g = true -> F32.is_zero mk = true ->
  nonzero_norm n = true -> F32.is_finite mag = true ->
  kept (F32.clip F32.zero F32.one
          (F32.add v (F32.mul (F32.div (F32.mul g mk) n) mag))) v.
Proof.
  intros Hv Hg Hmk Hn Hmag.
  assert (Hz : F32.is_zero (F32.mul (F32.div (F32.mul g mk) n) mag) = true).
  { pose proof (mul_zero_r g mk Hg Hmk) as H0.
    destruct (F32.mul g mk) as [s0 | | | ]; try discriminate H0.
    destruct n as [ | sn | | sn mn en]; try discriminate Hn;
      destruct mag as [sm | | | sm mm em]; try discriminate Hmag; reflexivity. }
  pose proof (@add_zero_r v _ Hv Hz) as Hs.
  pose proof (same_value_in01 Hs Hv) as H01.
  rewrite (clip_in01 _ H01). split; assumption.
Qed.

Lemma masked_entry_zero_norm (v g mk mag : F32.t) :
  F32.is_finite g = true -> F32.is_zero mk = true ->
  F32.clip F32.zero F32.one
    (F32.add v (F32.mul (F32.div (F32.mul g mk) F32.zero) mag)) = S754_nan.
Proof.
  intros Hg Hmk.
  pose proof (mul_zero_r g mk Hg Hmk) as H0.
  destruct (F32.mul g mk) as [s0 | | | ]; try discriminate H0.
  destruct v; reflexivity.
Qed.

(** * Further properties of the code *)

Unset Implicit Arguments.

(** ** [np.bincount] and [np.argmax] on integers *)

Lemma count_occ_above_max (v : list nat) (k : nat) :
  list_max v < k -> count_occ Nat.eq_dec v k = 0.
Proof.
  intros H. apply count_occ_not_In. intros Hin.
  pose proof (proj1 (list_max_le v (list_max v)) (Nat.le_refl _)) as Hall.
  rewrite Forall_forall in Hall. specialize (Hall k Hin). lia.
Qed.

Lemma nth_map_seq {A} (f : nat -> A) (n k : nat) (d : A) :
  k < n -> nth k (map f (seq 0 n)) d = f k.
Proof.
  intros H. rewrite nth_indep with (d' := f 0) by (rewrite length_map, length_seq; exact H).
  rewrite (map_nth f (seq 0 n) 0 k), seq_nth by exact H. reflexivity.
Qed.

Lemma length_bincount (v : list nat) :
  v <> [] -> length (bincount v) = S (list_max v).
Proof.
  intros H. unfold bincount. destruct v; [contradiction | ].
  rewrite length_map, length_seq. reflexivity.
Qed.

(** Entry [k] of the histogram is the number of occurrences of [k]; past the
    largest value there is nothing to count. *)
Lemma nth_bincount (v : list nat) (k : nat) :
  nth k (bincount v) 0%Z = Z.of_nat (count_occ Nat.eq_dec v k).
Proof.
  destruct v as [ | a v]; [destruct k; reflexivity | ].
  unfold bincount. set (w := a :: v).
  destruct (Nat.lt_ge_cases k (S (list_max w))) as [Hlt | Hge].
  - exact (@nth_map_seq Z (fun k => Z.of_nat (count_occ Nat.eq_dec w k))
                          (S (list_max w)) k 0%Z Hlt).
  - rewrite nth_overflow by (rewrite length_map, length_seq; exact Hge).
    rewrite count_occ_above_max by lia. reflexivity.
Qed.

(** The scan of [np.argmax]: [best] is the largest entry seen so far, at
    index [best_i], and the first of that size. *)
Lemma argmax_Z_from_spec (t : list Z) :
  forall (pre : list Z) (best : Z) (best_i : nat),
    best_i < length pre ->
    nth best_i pre 0%Z = best ->
    (forall j, j < length pre -> (nth j pre 0 <= best)%Z) ->
    (forall j, j < best_i -> (nth j pre 0 < best)%Z) ->
    let r := argmax_Z_from best best_i (length pre) t in
    let l := pre ++ t in
    r < length l
    /\ (forall j, j < length l -> (nth j l 0 <= nth r l 0)%Z)
    /\ (forall j, j < r -> (nth j l 0 < nth r l 0)%Z).
Proof.
  induction t as [ | v t IH]; intros pre best best_i Hbi Hbest Hle Hlt; cbn zeta.
  - cbn [argmax_Z_from]. rewrite app_nil_r, Hbest. auto.
  - cbn [argmax_Z_from].
    replace (pre ++ v :: t) with ((pre ++ [v]) ++ t)
      by (rewrite <- app_assoc; reflexivity).
    replace (S (length pre)) with (length (pre ++ [v]))
      by (rewrite length_app; simpl; lia).
    assert (Hpre : forall j, j < length pre -> nth j (pre ++ [v]) 0%Z = nth j pre 0%Z)
      by (intros j Hj; apply app_nth1; exact Hj).
    assert (Hv : nth (length pre) (pre ++ [v]) 0%Z = v)
      by (rewrite app_nth2, Nat.sub_diag by lia; reflexivity).
    destruct (Z.ltb_spec best v) as [Hbv | Hbv].
    + apply IH.
      * rewrite length_app. simpl. lia.
      * exact Hv.
      * intros j Hj. rewrite length_app in Hj. simpl in Hj.
        destruct (Nat.eq_dec j (length pre)) as [-> | Hne].
        -- rewrite Hv. lia.
        -- rewrite Hpre by lia. specialize (Hle j ltac:(lia)). lia.
      * intros j Hj. rewrite Hpre by lia. specialize (Hle j Hj). lia.
    + apply IH.
      * rewrite length_app. simpl. lia.
      * rewrite Hpre by lia. exact Hbest.
      * intros j Hj. rewrite length_app in Hj. simpl in Hj.
        destruct (Nat.eq_dec j (length pre)) as [-> | Hne].
        -- rewrite Hv. lia.
        -- rewrite Hpre by lia. apply Hle. lia.
      * intros j Hj. rewrite Hpre by lia. apply Hlt. exact Hj.
Qed.

(** [np.argmax] on a non-empty integer vector: the first index of the
    maximum. *)
Lemma argmax_Z_spec (l : list Z) :
  l <> [] ->
  argmax_Z l < length l
  /\ (forall j, j < length l -> (nth j l 0 <= nth (argmax_Z l) l 0)%Z)
  /\ (forall j, j < argmax_Z l -> (nth j l 0 < nth (argmax_Z l) l 0)%Z).
Proof.
  destruct l as [ | v t]; [contradiction | intros _ ].
  apply (argmax_Z_from_spec t [v] v 0).
  - simpl. lia.
  - reflexivity.
  - intros [ | j] Hj; simpl in *; lia.
  - intros j Hj. lia.
Qed.

(** ** [find_sign_area] *)

Lemma nth_upd {A} (i k : nat) (v d : A) (l : list A) :
  nth k (upd i v l) d = if (k =? i) && (i <? length l) then v else nth k l d.
Proof.
  revert i k. induction l as [ | a l IH]; intros [ | i] [ | k]; simpl;
    rewrite ?andb_false_r; try reflexivity.
  rewrite IH. reflexivity.
Qed.

Lemma nth_all_zero (k : nat) (l : list Z) :
  nth k (map (fun _ : Z => 0%Z) l) 0%Z = 0%Z.
Proof.
  revert k. induction l as [ | a l IH]; intros [ | k]; simpl; auto.
Qed.

(** On an image with at least one pixel, [find_sign_area] returns the mask
    of one label: the first label of maximal size, once the size of the
    background has been set to zero. *)
Lemma find_sign_area_selects
    (canny : int_image F32.t -> F32.t -> int_image bool)
    (binary_fill_holes : int_image bool -> int_image bool)
    (ndi_label : int_image bool -> int_image nat * nat)
    (image : int_image F32.t) (sigma : F32.t) :
  let label_objects := fst (ndi_label (binary_fill_holes (canny image sigma))) in
  concat label_objects <> [] ->
  find_sign_area canny binary_fill_holes ndi_label image sigma
  = inr (component_mask
           (argmax_Z (upd 0 0%Z (bincount (concat label_objects))))
           label_objects).
Proof.
  intros L Hne. unfold find_sign_area. fold L.
  pose proof (length_bincount (concat L) Hne) as Hlen.
  set (sizes0 := bincount (concat L)) in *.
  unfold setitem at 1. rewrite Hlen. cbn [Nat.ltb Nat.leb bind ret].
  set (sizes := upd 0 0%Z sizes0).
  assert (Hsizes : length sizes = S (list_max (concat L)))
    by (unfold sizes; rewrite length_upd; exact Hlen).
  assert (Hsel : argmax_Z sizes < length sizes).
  { apply argmax_Z_spec. intros E. rewrite E in Hsizes. discriminate. }
  unfold setitem. rewrite length_map, Hlen, <- Hsizes.
  apply Nat.ltb_lt in Hsel. rewrite Hsel. unfold ret, bind, component_mask.
  apply f_equal. apply map_ext. intros row. apply map_ext. intros l.
  rewrite nth_upd, nth_all_zero, length_map, Hlen, <- Hsizes, Hsel, andb_true_r.
  reflexivity.
Qed.

Lemma nth_zeroed_bincount (v : list nat) (j : nat) :
  nth j (upd 0 0%Z (bincount v)) 0%Z
  = if j =? 0 then 0%Z else Z.of_nat (count_occ Nat.eq_dec v j).
Proof.
  rewrite nth_upd. destruct j as [ | j]; cbn [Nat.eqb andb].
  - destruct (0 <? length (bincount v)) eqn:E; [reflexivity | ].
    apply Nat.ltb_ge in E. apply nth_overflow. lia.
  - apply nth_bincount.
Qed.

(** X1.  When the label image has a component, [find_sign_area] returns the
    mask of exactly one component, never of the background: the component
    with the most pixels, and among several of that size the one with the
    lowest label. *)
Theorem X1_find_sign_area_largest_component
    (canny : int_image F32.t -> F32.t -> int_image bool)
    (binary_fill_holes : int_image bool -> int_image bool)
    (ndi_label : int_image bool -> int_image nat * nat)
    (image : int_image F32.t) (sigma : F32.t) :
  let label_objects := fst (ndi_label (binary_fill_holes (canny image sigma))) in
  Exists (fun l => l <> 0) (concat label_objects) ->
  exists sel,
    find_sign_area canny binary_fill_holes ndi_label image sigma
    = inr (component_mask sel label_objects)
    /\ sel <> 0
    /\ 0 < component_size label_objects sel
    /\ (forall l, l <> 0 ->
          component_size label_objects l <= component_size label_objects sel)
    /\ (forall l, 0 < l < sel ->
          component_size label_objects l < component_size label_objects sel).
Proof.
  intros L Hex. unfold component_size. fold L.
  assert (Hne : concat L <> []) by (intros E; rewrite E in Hex; inversion Hex).
  exists (argmax_Z (upd 0 0%Z (bincount (concat L)))).
  split; [apply (find_sign_area_selects canny binary_fill_holes ndi_label); exact Hne | ].
  set (sizes := upd 0 0%Z (bincount (concat L))).
  assert (Hlen : length sizes = S (list_max (concat L)))
    by (unfold sizes; rewrite length_upd; apply length_bincount; exact Hne).
  destruct (argmax_Z_spec sizes) as [Hsel [Hmax Hfirst]].
  { intros E. rewrite E in Hlen. discriminate. }
  set (sel := argmax_Z sizes) in *.
  assert (Hnth : forall j, nth j sizes 0%Z
                           = if j =? 0 then 0%Z
                             else Z.of_nat (count_occ Nat.eq_dec (concat L) j))
    by (intros j; apply nth_zeroed_bincount).
  apply Exists_exists in Hex. destruct Hex as [l0 [Hin Hl0]].
  assert (Hl0max : l0 < length sizes).
  { rewrite Hlen.
    pose proof (proj1 (list_max_le (concat L) (list_max (concat L)))
                      (Nat.le_refl _)) as Hall.
    rewrite Forall_forall in Hall. specialize (Hall l0 Hin). lia. }
  assert (Hcnt0 : 0 < count_occ Nat.eq_dec (concat L) l0)
    by (apply count_occ_In; exact Hin).
  pose proof (Hmax l0 Hl0max) as Hge. rewrite (Hnth l0), (Hnth sel) in Hge.
  destruct (Nat.eqb_spec l0 0) as [E | _]; [contradiction | ].
  destruct (Nat.eqb_spec sel 0) as [E | Hsel0]; [lia | ].
  split; [exact Hsel0 | ]. split; [lia | ]. split.
  - intros l Hl. destruct (Nat.lt_ge_cases l (length sizes)) as [Hlt | Hge'].
    + specialize (Hmax l Hlt). rewrite (Hnth l), (Hnth sel) in Hmax.
      destruct (Nat.eqb_spec l 0) as [E | _]; [contradiction | ].
      destruct (Nat.eqb_spec sel 0) as [E | _]; [contradiction | ]. lia.
    + rewrite (count_occ_above_max (concat L) l) by lia. lia.
  - intros l [Hl0' Hlsel]. specialize (Hfirst l Hlsel).
    rewrite (Hnth l), (Hnth sel) in Hfirst.
    destruct (Nat.eqb_spec l 0) as [E | _]; [lia | ].
    destruct (Nat.eqb_spec sel 0) as [E | _]; [contradiction | ]. lia.
Qed.

Lemma X1_find_sign_area_largest_component_witness :
  exists sel,
    find_sign_area no_edges fill_nothing label_three flat_image F32.one
    = inr (component_mask sel three_components)
    /\ sel <> 0
    /\ 0 < component_size three_components sel
    /\ (forall l, l <> 0 ->
          component_size three_components l <= component_size three_components sel)
    /\ (forall l, 0 < l < sel ->
          component_size three_components l < component_size three_components sel).
Proof.
  apply (X1_find_sign_area_largest_component
           no_edges fill_nothing label_three flat_image F32.one).
  apply Exists_cons_tl, Exists_cons_hd. discriminate.
Defined.

(** The label that [find_sign_area] selects is the label of some pixel. *)
Lemma selected_label_occurs (v : list nat) :
  v <> [] -> In (argmax_Z (upd 0 0%Z (bincount v))) v.
Proof.
  intros Hne.
  set (sizes := upd 0 0%Z (bincount v)).
  assert (Hlen : length sizes = S (list_max v))
    by (unfold sizes; rewrite length_upd; apply length_bincount; exact Hne).
  destruct (argmax_Z_spec sizes) as [Hsel [Hmax Hfirst]].
  { intros E. rewrite E in Hlen. discriminate. }
  set (sel := argmax_Z sizes) in *.
  assert (Hnth : forall j, nth j sizes 0%Z
                           = if j =? 0 then 0%Z
                             else Z.of_nat (count_occ Nat.eq_dec v j))
    by (intros j; apply nth_zeroed_bincount).
  destruct (Nat.eq_dec sel 0) as [E0 | Hsel0].
  - (* the background is selected: no other label has a pixel *)
    rewrite E0.
    destruct v as [ | l0 v']; [contradiction | ].
    destruct (in_dec Nat.eq_dec 0 (l0 :: v')) as [Hin | Hnin]; [exact Hin | ].
    exfalso.
    assert (Hl0 : l0 <> 0) by (intros E; apply Hnin; left; exact E).
    assert (Hin0 : In l0 (l0 :: v')) by (left; reflexivity).
    assert (Hl0max : l0 < length sizes).
    { rewrite Hlen.
      pose proof (proj1 (list_max_le (l0 :: v') (list_max (l0 :: v')))
                        (Nat.le_refl _)) as Hall.
      rewrite Forall_forall in Hall. specialize (Hall l0 Hin0). lia. }
    pose proof (Hmax l0 Hl0max) as Hge. rewrite (Hnth l0), (Hnth sel) in Hge.
    rewrite E0 in Hge. cbn [Nat.eqb] in Hge.
    destruct (Nat.eqb_spec l0 0) as [E | _]; [contradiction | ].
    pose proof (proj1 (count_occ_In Nat.eq_dec (l0 :: v') l0) Hin0). lia.
  - (* a component is selected: it has more pixels than the zeroed
       background, so at least one *)
    assert (H0 : 0 < sel) by lia.
    pose proof (Hfirst 0 H0) as Hlt. rewrite (Hnth 0), (Hnth sel) in Hlt.
    cbn [Nat.eqb] in Hlt.
    destruct (Nat.eqb_spec sel 0) as [E | _]; [contradiction | ].
    apply (count_occ_In Nat.eq_dec). lia.
Qed.

(** X2.  On an image that has pixels (an image without any is refused by
    [canny] before anything is counted), [find_sign_area] raises nothing:
    it returns a mask of 0s and 1s whose rows are as long as those of the
    label image, and at least one pixel of the mask is 1: the all-zero mask
    is never returned. *)
Theorem X2_find_sign_area_result
    (canny : int_image F32.t -> F32.t -> int_image bool)
    (binary_fill_holes : int_image bool -> int_image bool)
    (ndi_label : int_image bool -> int_image nat * nat)
    (image : int_image F32.t) (sigma : F32.t) :
  let label_objects := fst (ndi_label (binary_fill_holes (canny image sigma))) in
  concat label_objects <> [] ->
  exists mask,
    find_sign_area canny binary_fill_holes ndi_label image sigma = inr mask
    /\ binary_mask mask
    /\ Forall2 (fun mrow lrow => length mrow = length lrow) mask label_objects
    /\ Exists (fun mrow => In 1%Z mrow) mask.
Proof.
  intros L Hne. eexists. split.
  - apply (find_sign_area_selects canny binary_fill_holes ndi_label). exact Hne.
  - fold L. unfold component_mask, binary_mask. split; [ | split].
    + apply Forall_map, Forall_forall. intros row _.
      apply Forall_map, Forall_forall. intros l _.
      destruct (l =? _); [right | left]; reflexivity.
    + apply Forall2_map_l. apply Forall2_refl_on with (P := fun _ => True).
      * intros row _. apply length_map.
      * apply Forall_forall. auto.
    + pose proof (selected_label_occurs (concat L) Hne) as Hin.
      apply in_concat in Hin. destruct Hin as [row [Hrow Hsel]].
      apply Exists_exists.
      eexists. split; [apply in_map; exact Hrow | ].
      apply in_map_iff. eexists. split; [ | exact Hsel].
      rewrite Nat.eqb_refl. reflexivity.
Qed.

Lemma X2_find_sign_area_result_witness :
  concat three_components <> []
  /\ exists mask,
       find_sign_area no_edges fill_nothing label_three flat_image F32.one = inr mask
       /\ binary_mask mask
       /\ Forall2 (fun mrow lrow => length mrow = length lrow) mask three_components
       /\ Exists (fun mrow => In 1%Z mrow) mask.
Proof.
  assert (Hne : concat three_components <> []) by discriminate.
  split; [exact Hne | ].
  exact (X2_find_sign_area_result
           no_edges fill_nothing label_three flat_image F32.one Hne).
Defined.

(** ** When [fg] and [iterative] return *)

Lemma same_shape_sym {A B} (a : list (list (list A))) (b : list (list (list B))) :
  same_shape a b -> same_shape b a.
Proof. intros H. apply Rel3_sym in H. exact H. Qed.

Lemma same_shape_trans {A B C} (a : list (list (list A)))
    (b : list (list (list B))) (c : list (list (list C))) :
  same_shape a b -> same_shape b c -> same_shape a c.
Proof.
  unfold same_shape.
  apply (@Rel3_trans_rel A B C (fun _ _ => True) (fun _ _ => True)
           (fun _ _ => True)).
  auto.
Qed.

Lemma same_shape_zip3_l {A B C} (f : A -> B -> C)
    (a : list (list (list A))) (b : list (list (list B))) :
  same_shape a b -> same_shape (zip3 f a b) a.
Proof. intros H. apply Rel3_zip3_l. exact H. Qed.

(** A clipped step has the shape of the point it starts from. *)
Lemma step_same_shape (x_cur d : sample) (mag : F32.t) :
  same_shape d x_cur -> same_shape (clip01 (step x_cur d mag)) x_cur.
Proof.
  intros H. unfold clip01, step. apply same_shape_map3_l.
  apply same_shape_zip3_l. apply same_shape_sym.
  apply same_shape_map3_l. exact H.
Qed.

Lemma same_shape_refl {A} (a : list (list (list A))) : same_shape a a.
Proof.
  apply Rel3_refl_on with (P := fun _ => True); [auto | ].
  unfold All3. apply Forall_forall. intros ? _. apply Forall_forall.
  intros ? _. apply Forall_forall. auto.
Qed.


Lemma getitem_none {A} (l : list A) (i : nat) :
  length l <= i -> getitem l i = inl IndexError.
Proof.
  intros H. unfold getitem. apply nth_error_None in H. rewrite H. reflexivity.
Qed.

Lemma getitem_lt {A} (l : list A) (i : nat) :
  i < length l -> exists a, nth_error l i = Some a /\ getitem l i = inr a.
Proof.
  intros H. destruct (nth_error l i) as [a | ] eqn:E.
  - exists a. split; [reflexivity | apply getitem_some; exact E].
  - apply nth_error_None in E. lia.
Qed.

Lemma fg_gradient_available (m : Model) (y : list label) (target : bool)
    (mask : option (list mask2)) (i : nat) (x_in : sample) :
  has_label y i = true -> has_mask mask i = true ->
  exists g, Fg.masked_gradient m y target mask i x_in = inr g.
Proof.
  unfold has_label, has_mask, Fg.masked_gradient, Fg.apply_mask.
  intros Hy Hm. apply Nat.ltb_lt in Hy.
  destruct (getitem_lt y i Hy) as [y_i [_ ->]]. cbn [bind].
  destruct mask as [mk | ].
  - apply Nat.ltb_lt in Hm. destruct (getitem_lt mk i Hm) as [mi [_ ->]].
    cbn [bind]. eexists. reflexivity.
  - eexists. reflexivity.
Qed.

Lemma fg_gradient_missing (m : Model) (y : list label) (target : bool)
    (mask : option (list mask2)) (i : nat) (x_in : sample) :
  has_label y i && has_mask mask i = false ->
  Fg.masked_gradient m y target mask i x_in = inl IndexError.
Proof.
  unfold has_label, has_mask, Fg.masked_gradient, Fg.apply_mask. intros H.
  destruct (Nat.ltb_spec i (length y)) as [Hy | Hy].
  - destruct (getitem_lt y i Hy) as [y_i [_ ->]]. cbn [bind].
    destruct mask as [mk | ]; [ | discriminate H].
    cbn [andb] in H. apply Nat.ltb_ge in H.
    rewrite (getitem_none mk i H). reflexivity.
  - rewrite (getitem_none y i Hy). reflexivity.
Qed.

(** As soon as one of the samples still to come lacks a label or a mask,
    the loop of [fg] ends in [IndexError]. *)
Lemma fg_loop_fails (m : Model) (y : list label) (mag_list : list F32.t)
    (target : bool) (mask : option (list mask2)) :
  forall (xs : list sample) (i : nat) (x_adv : list (list sample)),
    (exists k, k < length xs
               /\ has_label y (i + k) && has_mask mask (i + k) = false) ->
    Fg.loop m y mag_list target mask i xs x_adv = inl IndexError.
Proof.
  induction xs as [ | x_in rest IH]; intros i x_adv [k [Hk Hmiss]].
  - simpl in Hk. lia.
  - cbn [Fg.loop].
    destruct (has_label y i && has_mask mask i) eqn:Hi.
    + apply andb_true_iff in Hi. destruct Hi as [Hy Hm].
      destruct (fg_gradient_available m y target mask i x_in Hy Hm) as [g ->].
      cbn [bind]. rewrite normalize_returns. cbn [bind].
      apply IH. destruct k as [ | k].
      * rewrite Nat.add_0_r in Hmiss. rewrite Hy, Hm in Hmiss. discriminate.
      * exists k. split; [simpl in Hk; lia | ].
        rewrite Nat.add_succ_r in Hmiss. exact Hmiss.
    + rewrite (fg_gradient_missing m y target mask i x_in Hi). reflexivity.
Qed.

Lemma not_covered_index (x : list sample) (y : list label)
    (mask : option (list mask2)) :
  ~ batch_covered x y mask ->
  exists k, k < length x /\ has_label y k && has_mask mask k = false.
Proof.
  intros Hnot.
  assert (Hdec : forall n,
             (forall i, i < n -> has_label y i && has_mask mask i = true)
             \/ exists k, k < n /\ has_label y k && has_mask mask k = false).
  { induction n as [ | n [IHn | [k [Hk Hm]]]].
    - left. intros i Hi. lia.
    - destruct (has_label y n && has_mask mask n) eqn:E.
      + left. intros i Hi. destruct (Nat.eq_dec i n) as [-> | Hne];
          [exact E | apply IHn; lia].
      + right. exists n. split; [lia | exact E].
    - right. exists k. split; [lia | exact Hm]. }
  destruct (Hdec (length x)) as [Hall | Hex]; [ | exact Hex].
  exfalso. apply Hnot. intros i Hi.
  apply andb_true_iff. apply Hall. exact Hi.
Qed.

(** The masked gradient of [fg] has the shape of the sample when the
    gradient and the repeated mask have. *)
Lemma fg_masked_gradient_shape (m : Model) (x : list sample) (y : list label)
    (target : bool) (mask : option (list mask2)) (k : nat) (x_k : sample) :
  fg_shapes_agree m x y target mask ->
  nth_error x k = Some x_k ->
  has_label y k = true -> has_mask mask k = true ->
  exists g, Fg.masked_gradient m y target mask k x_k = inr g
            /\ same_shape g x_k.
Proof.
  intros Hsh Hk Hy Hm. unfold has_label, has_mask in *.
  apply Nat.ltb_lt in Hy.
  destruct (getitem_lt y k Hy) as [y_k [Hyk Hget]].
  destruct (Hsh k x_k y_k Hk Hyk) as [Hg Hmask].
  unfold Fg.masked_gradient, Fg.apply_mask. rewrite Hget. cbn [bind].
  destruct mask as [mk | ].
  - apply Nat.ltb_lt in Hm. destruct (getitem_lt mk k Hm) as [mi [Hmi Hgetm]].
    rewrite Hgetm. cbn [bind]. eexists. split; [reflexivity | ].
    apply same_shape_trans with (b := Fg.retrieve_gradient m target x_k y_k);
      [ | exact Hg].
    apply same_shape_zip3_l.
    apply same_shape_trans with (b := x_k); [exact Hg | ].
    apply same_shape_sym. exact (Hmask mk mi eq_refl Hmi).
  - eexists. split; [reflexivity | exact Hg].
Qed.

(** X3.  When the gradient of each sample and its mask, repeated over the
    channels, have the shape of the sample, [fg] returns exactly when every
    sample has a label and, if masks are given, a mask; it then returns one
    slot per magnitude, each holding one array per sample, of the shape of
    the sample.  Otherwise it raises [IndexError]. *)
Theorem X3_fg_returns_iff_covered (m : Model) (x : list sample)
    (y : list label) (mag_list : list F32.t) (target : bool)
    (mask : option (list mask2)) :
  fg_shapes_agree m x y target mask ->
  (batch_covered x y mask ->
   exists out, fg m x y mag_list target mask = inr out
               /\ length out = length mag_list
               /\ Forall (fun slot => Forall2 same_shape slot x) out)
  /\ (~ batch_covered x y mask ->
      fg m x y mag_list target mask = inl IndexError).
Proof.
  intros Hsh. split.
  - intros Hcov.
    destruct (@fg_spec m y mag_list target mask
                (fun _ x_k v => same_shape (clip01 v) x_k)
                (fun _ x_k r => same_shape r x_k) x)
      as [out [Hout [Hlen Hslots]]].
    + auto.
    + intros k x_k Hk.
      assert (Hlt : k < length x) by (apply nth_error_Some; congruence).
      destruct (Hcov k Hlt) as [Hy Hm].
      destruct (fg_masked_gradient_shape m x y target mask k x_k Hsh Hk Hy Hm)
        as [g [Hg Hgsh]].
      exists g. split; [exact Hg | ].
      intros mag _. apply step_same_shape. apply same_shape_map3_l. exact Hgsh.
    + exists out. split; [exact Hout | split; [exact Hlen | ] ].
      revert Hslots. apply Forall_impl. intros slot [Hl Hpost].
      apply Forall2_of_nth_error; [exact Hl | exact Hpost].
  - intros Hnot. unfold fg.
    rewrite (fg_loop_fails m y mag_list target mask x 0 _
               (not_covered_index x y mask Hnot)).
    reflexivity.
Qed.

Lemma one_pixel_covered : batch_covered one_pixel one_label (Some [ [ [F32.one] ] ]).
Proof. intros [ | i] Hi; [split; reflexivity | simpl in Hi; lia]. Qed.

Lemma one_pixel_not_covered : ~ batch_covered one_pixel [] (Some [ [ [F32.one] ] ]).
Proof. intros H. destruct (H 0 ltac:(simpl; lia)) as [Hy _]. discriminate Hy. Qed.

Lemma one_pixel_shapes_agree (y : list label) :
  fg_shapes_agree ones_model one_pixel y true (Some [ [ [F32.one] ] ]).
Proof.
  intros [ | i] x_i y_i Hi Hy; [ | destruct i; discriminate Hi].
  injection Hi as <-. split; [repeat constructor | ].
  intros mk mi E Hmi. injection E as <-. injection Hmi as <-.
  repeat constructor.
Qed.

Lemma X3_fg_returns_iff_covered_witness :
  (exists out, fg ones_model one_pixel one_label [pixel_half; F32.one] true
                  (Some [ [ [F32.one] ] ]) = inr out
               /\ length out = length [pixel_half; F32.one]
               /\ Forall (fun slot => Forall2 same_shape slot one_pixel) out)
  /\ fg ones_model one_pixel [] [pixel_half; F32.one] true
        (Some [ [ [F32.one] ] ]) = inl IndexError.
Proof.
  split.
  - exact (proj1 (X3_fg_returns_iff_covered ones_model one_pixel one_label
                    [pixel_half; F32.one] true (Some [ [ [F32.one] ] ])
                    (one_pixel_shapes_agree one_label))
                 one_pixel_covered).
  - exact (proj2 (X3_fg_returns_iff_covered ones_model one_pixel []
                    [pixel_half; F32.one] true (Some [ [ [F32.one] ] ])
                    (one_pixel_shapes_agree []))
                 one_pixel_not_covered).
Defined.

Lemma forall_or_exists_false (f : nat -> bool) (n : nat) :
  (forall i, i < n -> f i = true) \/ (exists k, k < n /\ f k = false).
Proof.
  induction n as [ | n [IHn | [k [Hk Hm]]]].
  - left. intros i Hi. lia.
  - destruct (f n) eqn:E.
    + left. intros i Hi. destruct (Nat.eq_dec i n) as [-> | Hne];
        [exact E | apply IHn; lia].
    + right. exists n. split; [lia | exact E].
  - right. exists k. split; [lia | exact Hm].
Qed.

Lemma steps_returns (m : Model) (y : list label) (i : nat) (ss : F32.t)
    (target : option bool) (mr : option sample) :
  has_label y i = true ->
  forall n x_cur, exists r, Iterative.steps m y i ss target mr n x_cur = inr r.
Proof.
  intros Hy. apply Nat.ltb_lt in Hy.
  destruct (getitem_lt y i Hy) as [y_i [_ Hget]].
  induction n as [ | n IH]; intros x_cur.
  - exists x_cur. reflexivity.
  - cbn [Iterative.steps]. unfold Iterative.masked_gradient.
    rewrite Hget. cbn [bind ret]. rewrite normalize_returns. cbn [bind ret].
    apply IH.
Qed.

Lemma steps_fails (m : Model) (y : list label) (i : nat) (ss : F32.t)
    (target : option bool) (mr : option sample) (n : nat) (x_cur : sample) :
  has_label y i = false ->
  Iterative.steps m y i ss target mr (S n) x_cur = inl IndexError.
Proof.
  intros Hy. apply Nat.ltb_ge in Hy.
  cbn [Iterative.steps]. unfold Iterative.masked_gradient.
  rewrite (getitem_none y i Hy). reflexivity.
Qed.

Lemma attack_sample_ok (m : Model) (y : list label) (n_step : nat)
    (ss : F32.t) (target : option bool) (mask : option (list mask2))
    (i : nat) (x_in : sample) :
  sample_ok y n_step mask i = true ->
  exists r, Iterative.attack_sample m y n_step ss target mask i x_in = inr r.
Proof.
  unfold sample_ok, has_mask, Iterative.attack_sample, Iterative.get_mask_rep.
  intros H. apply andb_true_iff in H. destruct H as [Hm Hy].
  assert (Hsteps : forall mr, exists r,
             Iterative.steps m y i ss target mr n_step x_in = inr r).
  { intros mr. apply orb_true_iff in Hy. destruct Hy as [Hn | Hy].
    - apply Nat.eqb_eq in Hn. subst n_step. exists x_in. reflexivity.
    - apply steps_returns. exact Hy. }
  destruct mask as [mk | ].
  - apply Nat.ltb_lt in Hm. destruct (getitem_lt mk i Hm) as [mi [_ ->]].
    cbn [bind]. apply Hsteps.
  - cbn [bind]. apply Hsteps.
Qed.

Lemma attack_sample_missing (m : Model) (y : list label) (n_step : nat)
    (ss : F32.t) (target : option bool) (mask : option (list mask2))
    (i : nat) (x_in : sample) :
  sample_ok y n_step mask i = false ->
  Iterative.attack_sample m y n_step ss target mask i x_in = inl IndexError.
Proof.
  unfold sample_ok, has_mask, Iterative.attack_sample, Iterative.get_mask_rep.
  intros H.
  assert (Hsteps : (n_step =? 0) || has_label y i = false ->
                   forall mr, Iterative.steps m y i ss target mr n_step x_in
                              = inl IndexError).
  { intros Hy mr. apply orb_false_iff in Hy. destruct Hy as [Hn Hy].
    destruct n_step as [ | n]; [discriminate Hn | ].
    apply steps_fails. exact Hy. }
  destruct mask as [mk | ].
  - destruct (Nat.ltb_spec i (length mk)) as [Hm | Hm].
    + destruct (getitem_lt mk i Hm) as [mi [_ ->]]. cbn [bind].
      apply Hsteps. exact H.
    + rewrite (getitem_none mk i Hm). reflexivity.
  - cbn [bind]. apply Hsteps. exact H.
Qed.

Lemma iterative_loop_fails (m : Model) (y : list label) (n_step : nat)
    (ss : F32.t) (target : option bool) (mask : option (list mask2)) :
  forall (xs : list sample) (i : nat) (x_adv : list sample),
    (exists k, k < length xs /\ sample_ok y n_step mask (i + k) = false) ->
    Iterative.loop m y n_step ss target mask i xs x_adv = inl IndexError.
Proof.
  induction xs as [ | x_in rest IH]; intros i x_adv [k [Hk Hmiss]].
  - simpl in Hk. lia.
  - cbn [Iterative.loop].
    destruct (sample_ok y n_step mask i) eqn:Hi.
    + destruct (attack_sample_ok m y n_step ss target mask i x_in Hi) as [r ->].
      cbn [bind]. apply IH. destruct k as [ | k].
      * rewrite Nat.add_0_r, Hi in Hmiss. discriminate.
      * exists k. split; [simpl in Hk; lia | ].
        rewrite Nat.add_succ_r in Hmiss. exact Hmiss.
    + rewrite (attack_sample_missing m y n_step ss target mask i x_in Hi).
      reflexivity.
Qed.

(** With arrays of one shape, the run of [iterative] on a covered sample
    returns an array of the shape of the sample. *)
Lemma attack_sample_shape (m : Model) (x : list sample) (y : list label)
    (n_step : nat) (ss : F32.t) (target : option bool)
    (mask : option (list mask2)) (k : nat) (x_k : sample) :
  iterative_shapes_agree m x y n_step ss target mask ->
  nth_error x k = Some x_k ->
  sample_ok y n_step mask k = true ->
  exists r, Iterative.attack_sample m y n_step ss target mask k x_k = inr r
            /\ same_shape r x_k.
Proof.
  intros Hsh Hk Hok. unfold sample_ok in Hok.
  apply andb_true_iff in Hok. destruct Hok as [Hm Hy].
  assert (Hmr : exists mr, Iterative.get_mask_rep mask k = inr mr).
  { unfold Iterative.get_mask_rep, has_mask in *. destruct mask as [mk | ].
    - apply Nat.ltb_lt in Hm. destruct (getitem_lt mk k Hm) as [mi [_ ->]].
      cbn [bind]. eexists. reflexivity.
    - eexists. reflexivity. }
  destruct Hmr as [mr Hmr].
  destruct (Hsh k x_k mr Hk Hmr) as [Hmask Hgrad].
  unfold Iterative.attack_sample. rewrite Hmr. cbn [bind].
  apply (@steps_path_inv (fun x_cur => same_shape x_cur x_k)
           m y k ss target mr x_k n_step).
  - apply same_shape_refl.
  - intros j x_cur Hj Hreach Hcur.
    assert (Hlab : has_label y k = true).
    { apply orb_true_iff in Hy. destruct Hy as [H0 | Hy]; [ | exact Hy].
      apply Nat.eqb_eq in H0. lia. }
    unfold has_label in Hlab. apply Nat.ltb_lt in Hlab.
    destruct (getitem_lt y k Hlab) as [y_k [Hyk Hget]].
    pose proof (Hgrad j x_cur y_k Hj Hyk Hreach) as Hg.
    unfold Iterative.masked_gradient. rewrite Hget. cbn [bind ret].
    eexists. split; [reflexivity | ].
    apply same_shape_trans with (b := x_cur); [ | exact Hcur].
    apply step_same_shape. apply same_shape_map3_l.
    unfold Iterative.apply_mask. destruct mr as [r | ]; [ | exact Hg].
    apply same_shape_trans
      with (b := Iterative.retrieve_gradient m target x_cur y_k);
      [ | exact Hg].
    apply same_shape_zip3_l.
    apply same_shape_trans with (b := x_cur); [exact Hg | ].
    apply same_shape_trans with (b := x_k); [exact Hcur | ].
    apply same_shape_sym. exact (Hmask r eq_refl).
Qed.

(** X4.  When the repeated mask of each sample and, at each point where a
    step starts, the gradient have the shape of the sample, [iterative]
    returns exactly when every sample has a mask (if masks are given) and,
    unless [n_step] is 0, a label; the result then has one array per sample,
    of the shape of the sample.  Otherwise it raises [IndexError]. *)
Theorem X4_iterative_returns_iff_covered (m : Model) (x : list sample)
    (y : list label) (n_step : nat) (ss : F32.t) (target : option bool)
    (mask : option (list mask2)) :
  iterative_shapes_agree m x y n_step ss target mask ->
  ((forall i, i < length x -> sample_ok y n_step mask i = true) ->
   exists out, iterative m x y n_step ss target mask = inr out
               /\ Forall2 same_shape out x)
  /\ ((exists i, i < length x /\ sample_ok y n_step mask i = false) ->
      iterative m x y n_step ss target mask = inl IndexError).
Proof.
  intros Hsh. split.
  - intros Hcov. unfold iterative.
    destruct (@iterative_loop_inv m y n_step ss target mask
                (fun _ x_k r => same_shape r x_k) x 0 (map zeros_like x))
      as [out [Hout [Hlen [_ Hpost]]]].
    + rewrite length_map. reflexivity.
    + intros k x_k Hk.
      assert (Hlt : k < length x) by (apply nth_error_Some; congruence).
      exact (attack_sample_shape m x y n_step ss target mask k x_k Hsh Hk
               (Hcov k Hlt)).
    + exists out. split; [exact Hout | ].
      apply Forall2_of_nth_error.
      * rewrite length_map in Hlen. exact Hlen.
      * intros k x_k Hk. exact (Hpost k x_k Hk).
  - intros Hmiss. unfold iterative. apply iterative_loop_fails. exact Hmiss.
Qed.

(** The gradient of [ones_model] has the shape of its input, wherever it is
    taken. *)
Lemma ones_model_shapes_agree (x : list sample) (y : list label) (n_step : nat)
    (ss : F32.t) (target : option bool) :
  iterative_shapes_agree ones_model x y n_step ss target None.
Proof.
  intros i x_i mr Hi Hmr. injection Hmr as <-.
  split; [intros r E; discriminate E | ].
  intros j x_cur y_i _ _ _.
  unfold Iterative.retrieve_gradient. cbn [ones_model gradient_input].
  destruct target; [unfold negate; apply same_shape_map3_l | ];
    apply same_shape_map3_l, same_shape_refl.
Qed.

Lemma X4_iterative_returns_iff_covered_witness :
  (exists out, iterative ones_model one_pixel one_label 3 pixel_half (Some true) None
               = inr out /\ Forall2 same_shape out one_pixel)
  /\ iterative ones_model one_pixel [] 3 pixel_half (Some true) None
     = inl IndexError.
Proof.
  split.
  - apply (proj1 (X4_iterative_returns_iff_covered ones_model one_pixel one_label
                    3 pixel_half (Some true) None
                    (ones_model_shapes_agree one_pixel one_label 3 pixel_half
                       (Some true)))).
    intros [ | i] Hi; [reflexivity | simpl in Hi; lia].
  - apply (proj2 (X4_iterative_returns_iff_covered ones_model one_pixel []
                    3 pixel_half (Some true) None
                    (ones_model_shapes_agree one_pixel [] 3 pixel_half
                       (Some true)))).
    exists 0. split; [simpl; lia | reflexivity].
Defined.

Lemma list_eq_of_nth_error {A} (l l' : list A) :
  length l = length l' ->
  (forall k b, nth_error l' k = Some b -> nth_error l k = Some b) ->
  l = l'.
Proof.
  revert l'. induction l as [ | a l IH]; intros [ | b l'] Hlen H; simpl in Hlen;
    try discriminate.
  - reflexivity.
  - f_equal.
    + specialize (H 0 b eq_refl). simpl in H. congruence.
    + apply IH; [lia | ]. intros k c Hk. exact (H (S k) c Hk).
Qed.

(** X5.  With [n_step = 0] the loop body never runs: [iterative] returns
    the input batch itself, whatever the model and the labels (even none),
    as long as every sample has a mask when masks are given. *)
Theorem X5_iterative_no_step_returns_input (m : Model) (x : list sample)
    (y : list label) (ss : F32.t) (target : option bool)
    (mask : option (list mask2)) :
  (forall i, i < length x -> has_mask mask i = true) ->
  iterative m x y 0 ss target mask = inr x.
Proof.
  intros Hmask. unfold iterative.
  destruct (@iterative_loop_inv m y 0 ss target mask
              (fun _ x_k r => r = x_k) x 0 (map zeros_like x))
    as [out [Hout [Hlen [_ Hpost]]]].
  - rewrite length_map. reflexivity.
  - intros k x_k Hk.
    assert (Hlt : k < length x) by (apply nth_error_Some; congruence).
    exists x_k. split; [ | reflexivity].
    specialize (Hmask k Hlt). simpl.
    unfold Iterative.attack_sample, Iterative.get_mask_rep.
    destruct mask as [mk | ]; [ | reflexivity].
    apply Nat.ltb_lt in Hmask.
    destruct (getitem_lt mk k Hmask) as [mi [_ ->]]. reflexivity.
  - rewrite Hout. f_equal. apply list_eq_of_nth_error.
    + rewrite length_map in Hlen. exact Hlen.
    + intros k x_k Hk. destruct (Hpost k x_k Hk) as [r [Hr ->]]. exact Hr.
Qed.

Lemma X5_iterative_no_step_returns_input_witness :
  iterative flat_model two_pixels [] 0 pixel_half None (Some left_mask)
  = inr two_pixels.
Proof.
  apply X5_iterative_no_step_returns_input.
  intros [ | i] Hi; [reflexivity | simpl in Hi; lia].
Defined.

(** One step of [iterative] on a sample is the targeted step of [fg]. *)
Lemma one_step_agrees (m : Model) (y : list label) (s : F32.t) (t : bool)
    (mask : option (list mask2)) (k : nat) (x_k g : sample) :
  Fg.masked_gradient m y true mask k x_k = inr g ->
  Iterative.attack_sample m y 1 s (Some t) mask k x_k
  = inr (clip01 (step x_k (map3 (fun v => F32.div v (norm g)) g) s)).
Proof.
  unfold Fg.masked_gradient, Iterative.attack_sample, Iterative.get_mask_rep,
    Fg.apply_mask.
  cbn [Iterative.steps]. unfold Iterative.masked_gradient.
  destruct (getitem y k) as [e | y_k]; [discriminate | ].
  cbn [bind ret Fg.retrieve_gradient Iterative.retrieve_gradient].
  destruct mask as [mk | ].
  - destruct (getitem mk k) as [e | mi]; [discriminate | ].
    cbn [bind ret Iterative.apply_mask]. intros H. injection H as <-.
    rewrite normalize_returns. reflexivity.
  - cbn [bind ret Iterative.apply_mask]. intros H. injection H as <-.
    rewrite normalize_returns. reflexivity.
Qed.

(** X6.  [fg] with a single magnitude [s] and [target = True] is
    [iterative] with one step of size [s] (and any boolean [target]): the
    same batch in the only magnitude slot, or the same [IndexError]. *)
Theorem X6_fg_single_magnitude_is_one_step (m : Model) (x : list sample)
    (y : list label) (s : F32.t) (t : bool) (mask : option (list mask2)) :
  fg m x y [s] true mask
  = (out <- iterative m x y 1 s (Some t) mask ;; ret [out]).
Proof.
  destruct (forall_or_exists_false
              (fun i => has_label y i && has_mask mask i) (length x))
    as [Hcov | Hmiss].
  - assert (Hgrad : forall k x_k, nth_error x k = Some x_k ->
               exists g, Fg.masked_gradient m y true mask k x_k = inr g).
    { intros k x_k Hk.
      assert (Hlt : k < length x) by (apply nth_error_Some; congruence).
      specialize (Hcov k Hlt). apply andb_true_iff in Hcov.
      apply fg_gradient_available; apply Hcov. }
    destruct (@fg_spec m y [s] true mask
                (fun k x_k v =>
                   exists g, Fg.masked_gradient m y true mask k x_k = inr g
                     /\ v = step x_k (map3 (fun v => F32.div v (norm g)) g) s)
                (fun k x_k r =>
                   Iterative.attack_sample m y 1 s (Some t) mask k x_k = inr r)
                x)
      as [out [Hout [Hlen Hslots]]].
    + intros k x_k v [g [Hg ->]]. apply one_step_agrees. exact Hg.
    + intros k x_k Hk. destruct (Hgrad k x_k Hk) as [g Hg].
      exists g. split; [exact Hg | ].
      intros mag [<- | []]. exists g. split; [exact Hg | reflexivity].
    + destruct (@iterative_loop_inv m y 1 s (Some t) mask
                  (fun k x_k r =>
                     Iterative.attack_sample m y 1 s (Some t) mask k x_k = inr r)
                  x 0 (map zeros_like x))
        as [out' [Hout' [Hlen' [_ Hpost]]]].
      * rewrite length_map. reflexivity.
      * intros k x_k Hk. destruct (Hgrad k x_k Hk) as [g Hg].
        eexists. split; apply (one_step_agrees m y s t mask k x_k g Hg).
      * unfold iterative. rewrite Hout, Hout'. cbn [bind]. unfold ret.
        f_equal. destruct out as [ | slot [ | ? ?]]; try discriminate Hlen.
        f_equal. inversion Hslots as [ | ? ? [Hl Hslot] _]; subst.
        apply list_eq_of_nth_error.
        -- rewrite Hl, Hlen', length_map. reflexivity.
        -- intros k r' Hk.
           assert (Hlt : k < length x).
           { rewrite length_map in Hlen'. rewrite <- Hlen'.
             apply nth_error_Some. congruence. }
           destruct (nth_error x k) as [x_k | ] eqn:Hx;
             [ | apply nth_error_None in Hx; lia].
           destruct (Hslot k x_k Hx) as [r [Hr Hatt]].
           destruct (Hpost k x_k Hx) as [r'' [Hr'' Hatt'']].
           rewrite Nat.add_0_l in Hr'', Hatt''. rewrite Hk in Hr''. injection Hr'' as <-.
           rewrite Hatt in Hatt''. injection Hatt'' as <-. exact Hr.
  - unfold fg, iterative.
    rewrite (fg_loop_fails m y [s] true mask x 0 _ Hmiss).
    rewrite (iterative_loop_fails m y 1 s (Some t) mask x 0 (map zeros_like x)).
    + reflexivity.
    + destruct Hmiss as [k [Hk Hm]]. exists k. split; [exact Hk | ].
      unfold sample_ok. simpl. rewrite andb_comm. exact Hm.
Qed.

(** ** Sums and products of numbers are not NaN *)

Section NotNaN.
Variables prec emax : Z.








End NotNaN.







(** ** Outputs in the unit range *)








(** ** [filter_samples]: which samples go *)

Lemma In_insert_sorted (a n : nat) (l : list nat) :
  In a (insert_sorted n l) <-> a = n \/ In a l.
Proof.
  induction l as [ | h t IH]; simpl.
  - intuition.
  - destruct (n <=? h); simpl; [intuition | rewrite IH; intuition].
Qed.

Lemma In_np_sort (a : nat) (l : list nat) : In a (np_sort l) <-> In a l.
Proof.
  induction l as [ | h t IH]; simpl; [reflexivity | ].
  rewrite In_insert_sorted, IH. intuition.
Qed.

Lemma In_drop_repeats (a : nat) (l : list nat) :
  In a (drop_repeats l) <-> In a l.
Proof.
  induction l as [ | h t IH]; [reflexivity | ].
  destruct t as [ | b t']; [reflexivity | ].
  change (drop_repeats (h :: b :: t'))
    with (if h =? b then drop_repeats (b :: t') else h :: drop_repeats (b :: t')).
  destruct (Nat.eqb_spec h b) as [E | Hne].
  - subst b. rewrite IH. simpl. intuition.
  - cbn [In]. rewrite IH. cbn [In]. reflexivity.
Qed.

Lemma In_del_id (a : nat) (l : list nat) :
  In a (np_sort (np_unique l)) <-> In a l.
Proof.
  unfold np_unique. rewrite In_np_sort, In_drop_repeats, In_np_sort.
  reflexivity.
Qed.

Lemma In_where_from (flags : list bool) :
  forall s i, In i (where_from s flags)
              <-> s <= i /\ nth_error flags (i - s) = Some true.
Proof.
  induction flags as [ | b t IH]; intros s i; cbn [where_from].
  - split; [intros [] | intros [_ H]]. destruct (i - s); discriminate H.
  - assert (Hstep : In i (where_from (S s) t)
                    <-> S s <= i /\ nth_error t (i - S s) = Some true)
      by apply IH.
    destruct (Nat.eq_dec i s) as [-> | Hne].
    + rewrite Nat.sub_diag. cbn [nth_error].
      destruct b; cbn [In]; rewrite ?Hstep.
      * split; [intros _; split; [lia | reflexivity] | intros _; left; reflexivity].
      * split; [intros [H _]; lia | intros [_ H]; discriminate H].
    + assert (Hnth : s <= i -> nth_error (b :: t) (i - s) = nth_error t (i - S s)).
      { intros Hle. replace (i - s) with (S (i - S s)) by lia. reflexivity. }
      destruct b; cbn [In]; rewrite ?Hstep.
      * split.
        -- intros [E | [Hle H]]; [lia | ]. split; [lia | ].
           rewrite Hnth by lia. exact H.
        -- intros [Hle H]. right. split; [lia | ]. rewrite <- Hnth by lia. exact H.
      * split.
        -- intros [Hle H]. split; [lia | ]. rewrite Hnth by lia. exact H.
        -- intros [Hle H]. split; [lia | ]. rewrite <- Hnth by lia. exact H.
Qed.

Lemma In_where_ne (a b : list nat) (i : nat) :
  In i (where_ne a b)
  <-> exists u v, nth_error a i = Some u /\ nth_error b i = Some v /\ u <> v.
Proof.
  unfold where_ne. rewrite In_where_from, Nat.sub_0_r, nth_error_map2.
  split.
  - intros [_ H]. destruct (nth_error a i) as [u | ]; [ | discriminate H].
    destruct (nth_error b i) as [v | ]; [ | discriminate H].
    exists u, v. split; [reflexivity | split; [reflexivity | ] ].
    injection H as H. apply negb_true_iff, Nat.eqb_neq in H. exact H.
  - intros [u [v [-> [-> H]]]]. split; [lia | ].
    apply Nat.eqb_neq in H. rewrite H. reflexivity.
Qed.

Lemma In_where_eq (a b : list nat) (i : nat) :
  In i (where_eq a b)
  <-> exists u, nth_error a i = Some u /\ nth_error b i = Some u.
Proof.
  unfold where_eq. rewrite In_where_from, Nat.sub_0_r, nth_error_map2.
  split.
  - intros [_ H]. destruct (nth_error a i) as [u | ]; [ | discriminate H].
    destruct (nth_error b i) as [v | ]; [ | discriminate H].
    injection H as H. apply Nat.eqb_eq in H. subst v. exists u. auto.
  - intros [u [-> ->]]. split; [lia | ]. rewrite Nat.eqb_refl. reflexivity.
Qed.

(** X9.  For a batch with one label and one prediction per sample, the
    index vector returned by [filter_samples] holds exactly the positions
    where the predicted class differs from the true class and, when
    [y_target] is given, those where the predicted class already is the
    target class; all of them are indices of the batch. *)
Theorem X9_filter_samples_removed_exactly (m : Model) (x : ndarray)
    (y : list label) (y_target : option (list label)) (i : nat) :
  one_row_per_sample m x y y_target ->
  (In i (snd (filter_samples m x y y_target))
   <-> (exists p c, nth_error (to_class (predict m x)) i = Some p
                    /\ nth_error (to_class y) i = Some c /\ p <> c)
       \/ (exists yt p, y_target = Some yt
                        /\ nth_error (to_class (predict m x)) i = Some p
                        /\ nth_error (to_class yt) i = Some p))
  /\ (In i (snd (filter_samples m x y y_target)) -> i < len x).
Proof.
  intros [Hlen [Hpred Htarget]].
  assert (Hiff : In i (snd (filter_samples m x y y_target))
                 <-> (exists p c, nth_error (to_class (predict m x)) i = Some p
                                  /\ nth_error (to_class y) i = Some c /\ p <> c)
                     \/ (exists yt p, y_target = Some yt
                                      /\ nth_error (to_class (predict m x)) i = Some p
                                      /\ nth_error (to_class yt) i = Some p)).
  { unfold filter_samples. cbn [snd]. rewrite In_del_id.
    destruct y_target as [yt | ].
    - rewrite in_app_iff, In_where_ne, In_where_eq. split.
      + intros [H | [p [H1 H2]]]; [left; exact H | right; exists yt, p; auto].
      + intros [H | [yt' [p [E [H1 H2]]]]]; [left; exact H | ].
        injection E as <-. right. exists p. auto.
    - rewrite In_where_ne. split.
      + intros H. left. exact H.
      + intros [H | [yt [p [E _]]]]; [exact H | discriminate E]. }
  split; [exact Hiff | ].
  intros Hin. apply Hiff in Hin.
  assert (Hp : exists p, nth_error (to_class (predict m x)) i = Some p)
    by (destruct Hin as [[p [c [Hp _]]] | [yt [p [_ [Hp _]]]]]; eauto).
  destruct Hp as [p Hp].
  assert (Hlt : i < length (to_class (predict m x)))
    by (apply nth_error_Some; congruence).
  unfold to_class in Hlt. rewrite length_map in Hlt. lia.
Qed.

Lemma two_labels_one_row_per_sample :
  one_row_per_sample class1_model rank4_array two_labels None.
Proof.
  split; [reflexivity | ]. split; [reflexivity | ].
  intros yt E. discriminate E.
Qed.

Lemma X9_filter_samples_removed_exactly_witness :
  one_row_per_sample class1_model rank4_array two_labels None
  /\ (In 1 (snd (filter_samples class1_model rank4_array two_labels None))
      <-> (exists p c,
             nth_error (to_class (predict class1_model rank4_array)) 1 = Some p
             /\ nth_error (to_class two_labels) 1 = Some c /\ p <> c)
          \/ (exists yt p,
                None = Some yt
                /\ nth_error (to_class (predict class1_model rank4_array)) 1 = Some p
                /\ nth_error (to_class yt) 1 = Some p))
  /\ (In 1 (snd (filter_samples class1_model rank4_array two_labels None))
      -> 1 < len rank4_array).
Proof.
  split; [exact two_labels_one_row_per_sample | ].
  exact (X9_filter_samples_removed_exactly class1_model rank4_array two_labels
           None 1 two_labels_one_row_per_sample).
Defined.

(** ** [filter_samples]: what is kept *)

Lemma mem_In (k : nat) (ids : list nat) : mem k ids = true <-> In k ids.
Proof.
  unfold mem. rewrite existsb_exists. split.
  - intros [j [Hin E]]. apply Nat.eqb_eq in E. subst j. exact Hin.
  - intros Hin. exists k. split; [exact Hin | apply Nat.eqb_refl].
Qed.

Lemma In_combine_seq {A} (rows : list A) :
  forall s i r, In (i, r) (combine (seq s (length rows)) rows)
                <-> s <= i /\ nth_error rows (i - s) = Some r.
Proof.
  induction rows as [ | a rows IH]; intros s i r; cbn [length seq combine In].
  - split; [intros [] | intros [_ H]]. destruct (i - s); discriminate H.
  - rewrite IH. split.
    + intros [E | [Hle H]].
      * injection E as <- <-. rewrite Nat.sub_diag. split; [lia | reflexivity].
      * split; [lia | ]. replace (i - s) with (S (i - S s)) by lia. exact H.
    + intros [Hle H]. destruct (Nat.eq_dec i s) as [-> | Hne].
      * rewrite Nat.sub_diag in H. injection H as <-. left. reflexivity.
      * right. split; [lia | ].
        replace (i - s) with (S (i - S s)) in H by lia. exact H.
Qed.

(** The rows that [np.delete] keeps are those whose index is not listed. *)
Lemma In_delete_rows {A} (rows : list A) (ids : list nat) (r : A) :
  In r (delete_rows rows ids)
  <-> exists i, nth_error rows i = Some r /\ ~ In i ids.
Proof.
  unfold delete_rows. rewrite in_map_iff. split.
  - intros [[i r'] [E Hin]]. cbn [snd] in E. subst r'.
    apply filter_In in Hin. destruct Hin as [Hin Hf]. cbn [fst] in Hf.
    apply In_combine_seq in Hin. destruct Hin as [_ Hnth].
    rewrite Nat.sub_0_r in Hnth. exists i. split; [exact Hnth | ].
    intros Hi. apply mem_In in Hi. rewrite Hi in Hf. discriminate Hf.
  - intros [i [Hnth Hni]]. exists (i, r). split; [reflexivity | ].
    apply filter_In. split.
    + apply In_combine_seq. rewrite Nat.sub_0_r. split; [lia | exact Hnth].
    + cbn [fst]. destruct (mem i ids) eqn:E; [ | reflexivity].
      apply mem_In in E. contradiction.
Qed.

Lemma length_filter_combine_seq {A} (f : nat -> bool) (rows : list A) :
  forall s, length (filter (fun p => f (fst p))
                           (combine (seq s (length rows)) rows))
            = length (filter f (seq s (length rows))).
Proof.
  induction rows as [ | a rows IH]; intros s; cbn [length seq combine filter fst].
  - reflexivity.
  - destruct (f s); cbn [length]; rewrite IH; reflexivity.
Qed.

Lemma length_filter_split {A} (f : A -> bool) (l : list A) :
  length (filter f l) + length (filter (fun a => negb (f a)) l) = length l.
Proof.
  induction l as [ | a l IH]; cbn [filter length]; [reflexivity | ].
  destruct (f a); cbn [negb length]; lia.
Qed.

(** Deleting [k] distinct rows leaves [k] rows fewer. *)
Lemma length_delete_rows {A} (rows : list A) (ids : list nat) :
  NoDup ids -> (forall i, In i ids -> i < length rows) ->
  length (delete_rows rows ids) + length ids = length rows.
Proof.
  intros Hnd Hlt. unfold delete_rows.
  rewrite length_map,
    (length_filter_combine_seq (fun k => negb (mem k ids)) rows 0).
  pose proof (length_filter_split (fun k => mem k ids) (seq 0 (length rows))) as Hs.
  rewrite length_seq in Hs.
  assert (Hperm : Permutation (filter (fun k => mem k ids) (seq 0 (length rows))) ids).
  { apply NoDup_Permutation.
    - apply NoDup_filter, seq_NoDup.
    - exact Hnd.
    - intros k. rewrite filter_In, in_seq, mem_In. split.
      + intros [_ H]. exact H.
      + intros H. split; [specialize (Hlt k H); lia | exact H]. }
  apply Permutation_length in Hperm. lia.
Qed.

Lemma delete_rows_kept_from {A} (f : nat -> bool) (rows : list A) :
  forall s,
  map Some (map snd (filter (fun p => f (fst p))
                            (combine (seq s (length rows)) rows)))
  = map (fun i => nth_error rows (i - s)) (filter f (seq s (length rows))).
Proof.
  induction rows as [ | a rows IH]; intros s;
    cbn [length seq combine filter fst].
  - reflexivity.
  - assert (Htail : map (fun i => nth_error (a :: rows) (i - s))
                        (filter f (seq (S s) (length rows)))
                    = map (fun i => nth_error rows (i - S s))
                          (filter f (seq (S s) (length rows)))).
    { apply map_ext_in. intros i Hi. apply filter_In in Hi.
      destruct Hi as [Hi _]. apply in_seq in Hi.
      replace (i - s) with (S (i - S s)) by lia. reflexivity. }
    destruct (f s); cbn [map snd]; rewrite ?Nat.sub_diag; cbn [nth_error];
      rewrite Htail, <- IH; reflexivity.
Qed.

(** What [np.delete] keeps are the rows at the indices not listed, in
    order. *)
Lemma delete_rows_kept {A} (rows : list A) (ids : list nat) :
  map Some (delete_rows rows ids)
  = map (nth_error rows) (kept_indices (length rows) ids).
Proof.
  unfold delete_rows, kept_indices.
  pose proof (delete_rows_kept_from (fun i => negb (mem i ids)) rows 0) as H.
  cbv beta in H. rewrite H.
  apply map_ext. intros i. rewrite Nat.sub_0_r. reflexivity.
Qed.

(** The rows of a well-formed array have its row shape and fill it. *)
Lemma rows_of_well_formed (x : ndarray) (n : nat) (sh : list nat) :
  well_formed x -> shape x = n :: sh ->
  Forall (fun r => shape r = sh /\ length (data r) = size_of sh) (subarrays x).
Proof.
  intros Hwf Hs. unfold subarrays. rewrite Hs.
  apply Forall_map, Forall_forall. intros k Hk. apply in_seq in Hk.
  unfold subarray. cbn [shape data]. split; [reflexivity | ].
  unfold well_formed in Hwf. rewrite Hs in Hwf. cbn [size_of fold_right] in Hwf.
  fold (size_of sh) in Hwf.
  rewrite length_firstn, length_skipn, Hwf.
  assert (Hle : k * size_of sh + size_of sh <= n * size_of sh).
  { replace (k * size_of sh + size_of sh) with (S k * size_of sh)
      by (cbn [Nat.mul]; lia).
    apply Nat.mul_le_mono_r. lia. }
  lia.
Qed.

(** Cutting the glued rows apart gives the rows back. *)
Lemma subarrays_flat_map (sh : list nat) (rows : list ndarray) :
  Forall (fun r => shape r = sh /\ length (data r) = size_of sh) rows ->
  map (subarray sh (flat_map data rows)) (seq 0 (length rows)) = rows.
Proof.
  induction 1 as [ | r rows [Hsh Hlen] _ IH]; [reflexivity | ].
  cbn [length seq map flat_map]. f_equal.
  - unfold subarray. cbn [Nat.mul skipn].
    rewrite firstn_app, Hlen, Nat.sub_diag, firstn_O, app_nil_r.
    rewrite <- Hlen, firstn_all.
    destruct r as [shr dr]. cbn [shape data] in *. subst shr. reflexivity.
  - rewrite <- seq_shift, map_map. rewrite <- IH at 2.
    apply map_ext. intros k. unfold subarray. f_equal.
    replace (S k * size_of sh) with (size_of sh + k * size_of sh)
      by (cbn [Nat.mul]; lia).
    rewrite skipn_app, Hlen.
    rewrite (skipn_all2 (data r)) by lia.
    replace (size_of sh + k * size_of sh - size_of sh) with (k * size_of sh)
      by lia.
    reflexivity.
Qed.

(** The rows of [np.delete(x, ids, axis=0)] are the rows of [x] that
    [np.delete] keeps. *)
Lemma subarrays_np_delete (x : ndarray) (ids : list nat) :
  well_formed x -> ndim x <> 0 ->
  subarrays (np_delete x ids) = delete_rows (subarrays x) ids.
Proof.
  intros Hwf Hrank. unfold ndim in Hrank.
  destruct (shape x) as [ | n sh] eqn:Hs; [contradiction | ].
  pose proof (rows_of_well_formed x n sh Hwf Hs) as Hrows.
  unfold np_delete. rewrite Hs. unfold subarrays at 1. cbn [shape data].
  apply subarrays_flat_map.
  apply Forall_forall. intros r Hr.
  apply In_delete_rows in Hr. destruct Hr as [i [Hi _]].
  rewrite Forall_forall in Hrows. apply Hrows. eapply nth_error_In. exact Hi.
Qed.

(** X10.  [filter_samples] keeps samples and labels aligned.  For a
    well-formed batch with one label and one prediction per sample, let
    [kept] be the indices that are not removed, in increasing order: the
    rows of the returned [x] are the rows of [x] at the indices [kept], in
    that order, and the rows of the returned [y] are the rows of [y] at the
    same indices, in the same order; so row [j] of both comes from sample
    [kept[j]].  The kept and the removed indices together make the batch. *)
Theorem X10_filter_samples_stays_aligned (m : Model) (x : ndarray)
    (y : list label) (y_target : option (list label)) :
  well_formed x -> ndim x <> 0 -> one_row_per_sample m x y y_target ->
  let x' := fst (fst (filter_samples m x y y_target)) in
  let y' := snd (fst (filter_samples m x y y_target)) in
  let del_id := snd (filter_samples m x y y_target) in
  let kept := kept_indices (length y) del_id in
  map Some (subarrays x') = map (nth_error (subarrays x)) kept
  /\ map Some y' = map (nth_error y) kept
  /\ len x' = length kept
  /\ length kept + length del_id = length y.
Proof.
  intros Hwf Hrank [Hlen [Hpred Htarget]]. cbv zeta.
  assert (Hnd : NoDup (snd (filter_samples m x y y_target)))
    by (apply Sorted_lt_NoDup; unfold filter_samples; cbn [snd];
        apply del_id_Sorted).
  assert (Hlt : forall i, In i (snd (filter_samples m x y y_target)) ->
                          i < length y).
  { intros i Hi. unfold filter_samples in Hi. cbn [snd] in Hi.
    rewrite In_del_id in Hi.
    assert (Hp : exists p, nth_error (to_class (predict m x)) i = Some p).
    { destruct y_target as [yt | ].
      - apply in_app_iff in Hi. destruct Hi as [Hi | Hi].
        + apply In_where_ne in Hi. destruct Hi as [u [_ [Hu _]]]. eauto.
        + apply In_where_eq in Hi. destruct Hi as [u [Hu _]]. eauto.
      - apply In_where_ne in Hi. destruct Hi as [u [_ [Hu _]]]. eauto. }
    destruct Hp as [p Hp].
    assert (i < length (to_class (predict m x)))
      by (apply nth_error_Some; congruence).
    unfold to_class in *. rewrite length_map in *. lia. }
  set (del_id := snd (filter_samples m x y y_target)) in *.
  assert (Hy' : snd (fst (filter_samples m x y y_target)) = delete_rows y del_id)
    by reflexivity.
  assert (Hx' : fst (fst (filter_samples m x y y_target)) = np_delete x del_id)
    by reflexivity.
  rewrite Hy', Hx'.
  assert (Hsub : length (subarrays x) = length y).
  { unfold subarrays, len, ndim in *.
    destruct (shape x) as [ | n sh]; [contradiction | ].
    rewrite length_map, length_seq. exact Hlen. }
  pose proof (delete_rows_kept y del_id) as Hky.
  pose proof (delete_rows_kept (subarrays x) del_id) as Hkx.
  rewrite Hsub in Hkx.
  assert (Hlk : length (delete_rows y del_id)
                = length (kept_indices (length y) del_id)).
  { apply (f_equal (@length _)) in Hky. rewrite !length_map in Hky. exact Hky. }
  split; [rewrite (subarrays_np_delete x del_id Hwf Hrank); exact Hkx | ].
  split; [exact Hky | ].
  split.
  - apply (f_equal (@length _)) in Hkx. rewrite !length_map in Hkx.
    rewrite <- Hkx. unfold np_delete, len, ndim in *.
    destruct (shape x) as [ | n sh]; [contradiction | ]. reflexivity.
  - rewrite <- Hlk. exact (length_delete_rows y del_id Hnd Hlt).
Qed.

Lemma X10_filter_samples_stays_aligned_witness :
  let x' := fst (fst (filter_samples class1_model rank4_array two_labels None)) in
  let y' := snd (fst (filter_samples class1_model rank4_array two_labels None)) in
  let del_id := snd (filter_samples class1_model rank4_array two_labels None) in
  let kept := kept_indices (length two_labels) del_id in
  map Some (subarrays x') = map (nth_error (subarrays rank4_array)) kept
  /\ map Some y' = map (nth_error two_labels) kept
  /\ len x' = length kept
  /\ length kept + length del_id = length two_labels.
Proof.
  apply (X10_filter_samples_stays_aligned class1_model rank4_array two_labels None).
  - reflexivity.
  - cbv. discriminate.
  - exact two_labels_one_row_per_sample.
Defined.

(** ** [eval_adv]: the success rate is a proportion *)

Section Proportion.
Local Open Scope Z_scope.

Lemma SFleb_finite_pos (m1 m2 : positive) (e1 e2 : Z) :
  e1 < e2 \/ (e1 = e2 /\ Zpos m1 <= Zpos m2) ->
  SFleb (S754_finite false m1 e1) (S754_finite false m2 e2) = true.
Proof.
  intros H. unfold SFleb, SFcompare.
  destruct (Z.compare_spec e1 e2) as [He | He | He].
  - fold (Pos.compare m1 m2).
    destruct (Pos.compare_spec m1 m2) as [Hc | Hc | Hc]; try reflexivity.
    apply Pos2Z.pos_lt_pos in Hc. destruct H as [H | [_ H]]; lia.
  - reflexivity.
  - destruct H as [H | [H _]]; lia.
Qed.

Lemma count_true_bounds (flags : list bool) :
  0 <= count_true flags <= Z.of_nat (length flags).
Proof.
  unfold count_true. pose proof (filter_length_le (fun b : bool => b) flags). lia.
Qed.

Lemma length_map2_le {A B C} (f : A -> B -> C) (l : list A) :
  forall l', (length (map2 f l l') <= length l)%nat.
Proof.
  induction l as [ | a l IH]; intros [ | b l']; cbn [map2 length]; try lia.
  specialize (IH l'). lia.
Qed.

Lemma successes_bounds (target : bool) (y_t y_ : list nat) :
  0 <= successes target y_t y_ <= Z.of_nat (length y_t).
Proof.
  unfold successes, count_eq, count_ne.
  destruct target;
    match goal with
    | |- _ <= count_true (map2 ?f _ _) <= _ =>
        pose proof (count_true_bounds (map2 f y_t y_));
        pose proof (length_map2_le f y_t y_)
    end; lia.
Qed.

(** A count between 0 and [n], divided in double precision by [n], lies
    between 0.0 and 1.0. *)
Lemma rate_in_unit (s : Z) (n : nat) :
  0 <= s <= Z.of_nat n -> 0 < Z.of_nat n < 9007199254740992 ->
  unit_rate (rate s n).
Proof.
  intros Hs Hn. unfold rate, unit_rate.
  set (a := Z.of_nat n) in *.
  destruct (Z.eq_dec s 0) as [-> | Hne].
  - destruct (of_Z_pos a Hn) as [m2 [c2 [E2 _]]]. rewrite E2.
    split; reflexivity.
  - assert (Hs' : 0 < s < 9007199254740992) by lia.
    destruct (quotient_bound s a Hs' Hn)
      as [m [c1 [c2 [k [E [Hm [Hc1 [Hc2 [Hk [Hlo _]]]]]]]]]].
    rewrite E. clear E. split; [reflexivity | ].
    change (F64.of_Z 1) with (S754_finite false 4503599627370496 (-52)).
    unfold F64.leb. apply SFleb_finite_pos.
    destruct (Z_le_gt_dec (c2 + k) c1) as [Hd | Hd]; [left; lia | ].
    assert (Hpow : 2 ^ k * 2 ^ c2 = 2 ^ (c2 + k - c1) * 2 ^ c1).
    { rewrite <- !Z.pow_add_r by lia. f_equal. lia. }
    rewrite Hpow in Hlo.
    assert (HX : 0 < 2 ^ c1) by (apply Z.pow_pos_nonneg; lia).
    set (X := 2 ^ c1) in *. set (D := 2 ^ (c2 + k - c1)) in *.
    set (M := 2 * Zpos m - 1) in *.
    assert (HaX : 0 < a * X) by (apply Z.mul_pos_pos; lia).
    assert (H1 : (M * D) * (a * X) <= 18014398509481984 * (a * X)).
    { replace ((M * D) * (a * X)) with (M * a * (D * X)) by ring.
      apply Z.le_trans with (1 := Hlo).
      replace (18014398509481984 * s * X) with (18014398509481984 * X * s) by ring.
      replace (18014398509481984 * (a * X)) with (18014398509481984 * X * a) by ring.
      apply Z.mul_le_mono_nonneg_l; [ | lia].
      apply Z.mul_nonneg_nonneg; lia. }
    apply le_cancel_r in H1; [ | exact HaX].
    assert (HM : 9007199254740991 <= M) by (unfold M; lia).
    destruct (Z.eq_dec (c2 + k - c1) 1) as [E1 | E1].
    + right. split; [lia | ].
      unfold D in H1. rewrite E1 in H1. change (2 ^ 1) with 2 in H1.
      clear - H1 HM Hm. unfold M in *. lia.
    + exfalso.
      assert (H4 : 4 <= D).
      { unfold D. change 4 with (2 ^ 2). apply Z.pow_le_mono_r; lia. }
      assert (H5 : M * 4 <= M * D)
        by (apply Z.mul_le_mono_nonneg_l; [clear - HM; lia | exact H4]).
      clear - H1 H5 HM. lia.
Qed.

End Proportion.

(** X11.  With at least one label (and fewer than 2^53) and one prediction
    per label, every success rate that [eval_adv] returns is a double
    between 0.0 and 1.0: the float for a 4-D batch, and each entry of the
    list for a 5-D batch.  The division in double precision never rounds a
    proportion above 1.0. *)
Theorem X11_eval_adv_rates_are_proportions
    (m : Model) (x_adv : ndarray) (y : list label) (target : bool) :
  (0 < Z.of_nat (length y) < 9007199254740992)%Z ->
  (ndim x_adv = 4 ->
   length (predict m x_adv) = length y ->
   exists r, eval_adv m x_adv y target = ([], PyFloat r) /\ unit_rate r)
  /\ (ndim x_adv = 5 ->
      (forall j, j < len x_adv ->
         length (predict m (subarray (tl (shape x_adv)) (data x_adv) j))
         = length y) ->
      exists l, eval_adv m x_adv y target = ([], PyList l)
                /\ length l = len x_adv /\ Forall unit_rate l).
Proof.
  intros Hn.
  assert (Hr : forall y_, unit_rate (rate (successes target (to_class y) y_)
                                          (length y))).
  { intros y_. apply rate_in_unit; [ | exact Hn].
    pose proof (successes_bounds target (to_class y) y_) as H.
    assert (Hlen : length (to_class y) = length y) by apply length_map.
    rewrite Hlen in H. exact H. }
  split; intros Hrank _; unfold eval_adv; rewrite Hrank; cbn [Nat.eqb].
  - eexists. split; [reflexivity | apply Hr].
  - eexists. split; [reflexivity | ].
    rewrite eval_loop_spec. cbn [app]. rewrite length_map. split.
    + unfold subarrays, len. unfold ndim in Hrank.
      destruct (shape x_adv) as [ | k sh]; [discriminate Hrank | ].
      rewrite length_map, length_seq. reflexivity.
    + apply Forall_map, Forall_forall. intros x _. apply Hr.
Qed.

Lemma X11_eval_adv_rates_are_proportions_witness :
  (0 < Z.of_nat (length two_labels) < 9007199254740992)%Z
  /\ ndim rank5_array = 5
  /\ (forall j, j < len rank5_array ->
        length (predict class1_model
                  (subarray (tl (shape rank5_array)) (data rank5_array) j))
        = length two_labels)
  /\ exists l, eval_adv class1_model rank5_array two_labels false = ([], PyList l)
               /\ length l = len rank5_array /\ Forall unit_rate l.
Proof.
  assert (H : (0 < Z.of_nat (length two_labels) < 9007199254740992)%Z)
    by (cbn; lia).
  assert (Hpred : forall j, j < len rank5_array ->
            length (predict class1_model
                      (subarray (tl (shape rank5_array)) (data rank5_array) j))
            = length two_labels)
    by (intros j _; reflexivity).
  split; [exact H | ]. split; [reflexivity | ]. split; [exact Hpred | ].
  exact (proj2 (X11_eval_adv_rates_are_proportions class1_model rank5_array
                  two_labels false H) eq_refl Hpred).
Defined.

(** ** Rescaling: [(im / 255.).astype(np.float32)] *)

Lemma every_uint8_spec (P : Z -> bool) :
  every_uint8 P = true -> forall v, is_uint8 v -> P v = true.
Proof.
  unfold every_uint8, is_uint8. intros H v Hv.
  rewrite forallb_forall in H. specialize (H (Z.to_nat v)).
  rewrite Z2Nat.id in H by lia. apply H. apply in_seq. lia.
Qed.

Lemma rescale_in01 (v : Z) : is_uint8 v -> F32.in01 (rescale v) = true.
Proof.
  apply (every_uint8_spec (fun v => F32.in01 (rescale v))).
  vm_compute. reflexivity.
Qed.

(** Every value but 0 is mapped to a positive float32. *)
Lemma rescale_positive (v : Z) :
  is_uint8 v -> v <> 0%Z -> exists m e, rescale v = S754_finite false m e.
Proof.
  intros Hv Hne.
  pose proof (every_uint8_spec
    (fun v => (v =? 0)%Z
              || match rescale v with S754_finite false _ _ => true | _ => false end)
    ltac:(vm_compute; reflexivity) v Hv) as H.
  cbv beta in H. apply orb_true_iff in H. destruct H as [H | H].
  - apply Z.eqb_eq in H. contradiction.
  - destruct (rescale v) as [ | | | [ | ] m e]; try discriminate H.
    exists m, e. reflexivity.
Qed.

Lemma rescale_next (v : Z) :
  is_uint8 v -> v <> 255%Z -> F32.ltb (rescale v) (rescale (v + 1)) = true.
Proof.
  intros Hv Hne.
  pose proof (every_uint8_spec
    (fun v => (v =? 255)%Z || F32.ltb (rescale v) (rescale (v + 1)))
    ltac:(vm_compute; reflexivity) v Hv) as H.
  cbv beta in H. apply orb_true_iff in H. destruct H as [H | H].
  - apply Z.eqb_eq in H. contradiction.
  - exact H.
Qed.

Lemma ltb_positive_trans (m1 m2 m3 : positive) (e1 e2 e3 : Z) :
  SFltb (S754_finite false m1 e1) (S754_finite false m2 e2) = true ->
  SFltb (S754_finite false m2 e2) (S754_finite false m3 e3) = true ->
  SFltb (S754_finite false m1 e1) (S754_finite false m3 e3) = true.
Proof.
  rewrite !SFltb_finite_pos. lia.
Qed.

Lemma rescale_increasing_from (a : Z) (d : nat) :
  is_uint8 a -> is_uint8 (a + Z.of_nat (S d)) ->
  F32.ltb (rescale a) (rescale (a + Z.of_nat (S d))) = true.
Proof.
  unfold is_uint8. intros Ha. induction d as [ | d IH]; intros Hb.
  - apply rescale_next; unfold is_uint8; lia.
  - assert (Hmid : is_uint8 (a + Z.of_nat (S d))) by (unfold is_uint8; lia).
    specialize (IH Hmid).
    pose proof (rescale_next (a + Z.of_nat (S d)) Hmid ltac:(lia)) as Hstep.
    replace (a + Z.of_nat (S d) + 1)%Z with (a + Z.of_nat (S (S d)))%Z in Hstep by lia.
    destruct (rescale_positive (a + Z.of_nat (S d)) Hmid ltac:(lia)) as [m2 [e2 E2]].
    destruct (rescale_positive (a + Z.of_nat (S (S d))) Hb ltac:(lia)) as [m3 [e3 E3]].
    rewrite E2 in IH, Hstep. rewrite E3 in Hstep |- *.
    destruct (Z.eq_dec a 0) as [-> | Ha0].
    + reflexivity.
    + destruct (rescale_positive a Ha Ha0) as [m1 [e1 E1]]. rewrite E1 in IH |- *.
      exact (ltb_positive_trans m1 m2 m3 e1 e2 e3 IH Hstep).
Qed.

Lemma ltb_irrefl_positive (m : positive) (e : Z) :
  SFltb (S754_finite false m e) (S754_finite false m e) = false.
Proof.
  apply not_true_is_false. rewrite SFltb_finite_pos. lia.
Qed.

(** X12.  The rescaling [(im / 255.).astype(np.float32)] of [read_images],
    [resize] and [preprocess] maps every [uint8] value into [[0,1]], keeps
    the order of the values strictly, and is exact at both ends: 0 goes to
    0.0, 255 goes to 1.0, and nothing else does. *)
Theorem X12_rescale_unit_range_increasing (a b : Z) :
  is_uint8 a -> is_uint8 b ->
  F32.in01 (rescale a) = true
  /\ ((a < b)%Z -> F32.ltb (rescale a) (rescale b) = true)
  /\ (rescale a = F32.zero <-> a = 0%Z)
  /\ (rescale a = F32.one <-> a = 255%Z).
Proof.
  intros Ha Hb. split; [exact (rescale_in01 a Ha) | ].
  assert (Hinc : forall u v, is_uint8 u -> is_uint8 v -> (u < v)%Z ->
                             F32.ltb (rescale u) (rescale v) = true).
  { intros u v Hu Hv Huv.
    replace v with (u + Z.of_nat (S (Z.to_nat (v - u - 1))))%Z by lia.
    apply rescale_increasing_from; [exact Hu | ].
    replace (u + Z.of_nat (S (Z.to_nat (v - u - 1))))%Z with v by lia. exact Hv. }
  split; [intros Hab; exact (Hinc a b Ha Hb Hab) | ].
  split; split.
  - intros E. destruct (Z.eq_dec a 0) as [H0 | H0]; [exact H0 | ].
    destruct (rescale_positive a Ha H0) as [m [e E']].
    rewrite E' in E. discriminate E.
  - intros ->. reflexivity.
  - intros E. destruct (Z.eq_dec a 255) as [H1 | H1]; [exact H1 | exfalso].
    assert (H255 : is_uint8 255) by (unfold is_uint8; lia).
    pose proof (Hinc a 255%Z Ha H255 ltac:(unfold is_uint8 in Ha; lia)) as Hlt.
    rewrite E in Hlt. vm_compute in Hlt. discriminate Hlt.
  - intros ->. vm_compute. reflexivity.
Qed.

Lemma X12_rescale_unit_range_increasing_witness :
  is_uint8 128 /\ is_uint8 200
  /\ F32.in01 (rescale 128) = true
  /\ ((128 < 200)%Z -> F32.ltb (rescale 128) (rescale 200) = true)
  /\ (rescale 128 = F32.zero <-> 128%Z = 0%Z)
  /\ (rescale 128 = F32.one <-> 128%Z = 255%Z).
Proof.
  assert (Ha : is_uint8 128) by (unfold is_uint8; lia).
  assert (Hb : is_uint8 200) by (unfold is_uint8; lia).
  split; [exact Ha | split; [exact Hb | ] ].
  exact (X12_rescale_unit_range_increasing 128 200 Ha Hb).
Defined.

(** ** One-hot labels: [to_categorical] and [to_class] *)

Lemma argmax_from_stays (best : F32.t) (l : list F32.t) :
  F32.is_nan best = false -> Forall (fun v => F32.leb v best = true) l ->
  forall bi i, argmax_from best bi i l = bi.
Proof.
  intros Hnan. induction 1 as [ | v l Hv _ IH]; intros bi i; cbn [argmax_from].
  - reflexivity.
  - rewrite Hnan, Hv. cbn [negb]. apply IH.
Qed.

Lemma argmax_from_one_hot (k len : nat) :
  forall s bi, s <= k < s + len ->
  argmax_from F32.zero bi s
    (map (fun j => if j =? k then F32.one else F32.zero) (seq s len)) = k.
Proof.
  induction len as [ | len IH]; intros s bi Hk; [lia | ].
  cbn [seq map argmax_from F32.is_nan F32.zero].
  destruct (Nat.eqb_spec s k) as [-> | Hne].
  - change (negb (F32.leb F32.one (S754_zero false))) with true. cbv iota.
    apply argmax_from_stays; [reflexivity | ].
    apply Forall_map, Forall_forall. intros j _.
    destruct (j =? k); reflexivity.
  - change (negb (F32.leb F32.zero (S754_zero false))) with false. cbv iota.
    apply IH. lia.
Qed.

(** The class of a one-hot row is the column of its 1. *)
Lemma argmax_one_hot (k n : nat) : k < n -> argmax (one_hot k n) = k.
Proof.
  intros Hk. unfold one_hot. destruct n as [ | n]; [lia | ].
  cbn [seq map argmax]. destruct k as [ | k].
  - cbn [Nat.eqb]. apply argmax_from_stays; [reflexivity | ].
    apply Forall_map, Forall_forall. intros j _.
    destruct (j =? 0); reflexivity.
  - cbn [Nat.eqb]. apply argmax_from_one_hot. lia.
Qed.

Lemma class_in_range_spec (n : nat) (c : Z) :
  class_in_range n c = true <-> (- Z.of_nat n <= c < Z.of_nat n)%Z.
Proof.
  unfold class_in_range. rewrite andb_true_iff, Z.leb_le, Z.ltb_lt. tauto.
Qed.

Lemma to_class_one_hot (n : nat) (y : list Z) :
  forallb (class_in_range n) y = true ->
  to_class (map (fun c => one_hot (Z.to_nat (c mod Z.of_nat n)) n) y)
  = map (fun c => Z.to_nat (c mod Z.of_nat n)) y.
Proof.
  intros Hy. unfold to_class. rewrite map_map. apply map_ext_in.
  intros c Hc. rewrite forallb_forall in Hy. specialize (Hy c Hc).
  apply class_in_range_spec in Hy. apply argmax_one_hot.
  assert (0 < Z.of_nat n)%Z by lia.
  pose proof (Z.mod_pos_bound c (Z.of_nat n) ltac:(lia)). lia.
Qed.

(** X13.  [to_class] undoes the one-hot encoding that [load_samples]
    applies to the labels: [to_categorical(y, n)] returns exactly when
    every class lies in [-n .. n-1], with one row of [n] entries per class,
    and [to_class] of these rows gives the classes back, a negative class
    [c] as [c + n]; so classes in [0 .. n-1] come back unchanged.  For any
    class outside, [IndexError] is raised. *)
Theorem X13_to_class_inverts_to_categorical (y : list Z) (n : nat) :
  match to_categorical y n with
  | inr rows =>
      Forall (fun c => (- Z.of_nat n <= c < Z.of_nat n)%Z) y
      /\ length rows = length y
      /\ Forall (fun row => length row = n) rows
      /\ map Z.of_nat (to_class rows) = map (fun c => (c mod Z.of_nat n)%Z) y
      /\ (Forall (fun c => (0 <= c)%Z) y -> map Z.of_nat (to_class rows) = y)
  | inl e =>
      e = IndexError
      /\ exists c, In c y /\ ~ (- Z.of_nat n <= c < Z.of_nat n)%Z
  end.
Proof.
  unfold to_categorical.
  destruct (forallb (class_in_range n) y) eqn:Hy; unfold ret, raise.
  - assert (Hall : Forall (fun c => (- Z.of_nat n <= c < Z.of_nat n)%Z) y).
    { apply Forall_forall. intros c Hc. rewrite forallb_forall in Hy.
      apply class_in_range_spec, Hy, Hc. }
    assert (Hmod : map Z.of_nat
                     (to_class (map (fun c => one_hot (Z.to_nat (c mod Z.of_nat n)) n) y))
                   = map (fun c => (c mod Z.of_nat n)%Z) y).
    { rewrite (to_class_one_hot n y Hy), map_map. apply map_ext_in.
      intros c Hc. rewrite Forall_forall in Hall. specialize (Hall c Hc).
      pose proof (Z.mod_pos_bound c (Z.of_nat n) ltac:(lia)). lia. }
    split; [exact Hall | ]. split; [apply length_map | ].
    split; [ | split; [exact Hmod | ] ].
    + apply Forall_map, Forall_forall. intros c _. unfold one_hot.
      rewrite length_map, length_seq. reflexivity.
    + intros Hpos. rewrite Hmod. rewrite <- (map_id y) at 2.
      apply map_ext_in. intros c Hc. rewrite Forall_forall in Hall, Hpos.
      specialize (Hall c Hc). specialize (Hpos c Hc).
      apply Z.mod_small. lia.
  - split; [reflexivity | ].
    assert (Hex : existsb (fun c => negb (class_in_range n c)) y = true).
    { clear - Hy. induction y as [ | c y IH]; cbn [forallb existsb] in *;
        [discriminate Hy | ].
      destruct (class_in_range n c); cbn [negb andb orb] in *;
        [apply IH, Hy | reflexivity]. }
    apply existsb_exists in Hex. destruct Hex as [c [Hc Hout]].
    exists c. split; [exact Hc | ]. intros Hin.
    apply class_in_range_spec in Hin. rewrite Hin in Hout. discriminate Hout.
Qed.

(** ** [resize] and [resize_all] *)

Lemma firstn_S_upd {A} (v : A) (l : list A) :
  forall i, i < length l -> firstn (S i) (upd i v l) = firstn i l ++ [v].
Proof.
  induction l as [ | a l IH]; intros i Hi; cbn [length] in Hi; [lia | ].
  destruct i as [ | i].
  - reflexivity.
  - cbn [upd]. rewrite firstn_cons, IH by lia. reflexivity.
Qed.

Lemma firstn_upd_above {A} (v : A) (l : list A) :
  forall i k, k <= i -> firstn k (upd i v l) = firstn k l.
Proof.
  induction l as [ | a l IH]; intros i k Hk.
  - destruct i; reflexivity.
  - destruct i as [ | i].
    + assert (k = 0) by lia. subst k. reflexivity.
    + destruct k as [ | k]; [reflexivity | ].
      cbn [upd]. rewrite !firstn_cons, IH by lia. reflexivity.
Qed.

(** The loop fills the slots from [i] on with the resized images. *)
Lemma resize_all_loop_spec {P} (imresize : P -> nat * nat -> string -> picture Z)
    (interp : string) (images : list P) :
  forall i images_rs, length images_rs = i + length images ->
  resize_all_loop imresize interp i images images_rs
  = firstn i images_rs ++ map (fun image => resize imresize image interp) images.
Proof.
  induction images as [ | image rest IH]; intros i rs Hlen;
    cbn [resize_all_loop map length] in *.
  - rewrite app_nil_r, firstn_all2 by lia. reflexivity.
  - rewrite IH by (rewrite length_upd; lia).
    rewrite firstn_S_upd by lia. rewrite <- app_assoc. reflexivity.
Qed.

Lemma resize_all_spec {P} (ndim_of : P -> nat)
    (imresize : P -> nat * nat -> string -> picture Z)
    (images : list P) (interp : string) :
  resize_all ndim_of imresize images interp
  = match images with
    | [] => inl IndexError
    | _ :: _ => inr (map (fun image => resize imresize image interp) images)
    end.
Proof.
  unfold resize_all, getitem. destruct images as [ | first rest].
  - reflexivity.
  - cbn [nth_error bind ret]. unfold ret. apply f_equal.
    rewrite resize_all_loop_spec
      by (unfold np_zeros; rewrite repeat_length; reflexivity).
    reflexivity.
Qed.

Lemma resize_in01 {P} (imresize : P -> nat * nat -> string -> picture Z)
    (image : P) (interp : string) :
  pic_all is_uint8 (imresize image IMAGE_SIZE interp) ->
  pic_all (fun v => F32.in01 v = true) (resize imresize image interp).
Proof.
  unfold resize. cbv zeta.
  destruct (imresize image IMAGE_SIZE interp) as [a | a]; cbn [pic_map pic_all].
  - intros H. apply Forall_map. eapply Forall_impl; [ | exact H].
    intros row Hrow. apply Forall_map. eapply Forall_impl; [ | exact Hrow].
    intros v Hv. apply rescale_in01, Hv.
  - unfold All3, map3. intros H. apply Forall_map.
    eapply Forall_impl; [ | exact H].
    intros plane Hplane. apply Forall_map. eapply Forall_impl; [ | exact Hplane].
    intros row Hrow. apply Forall_map. eapply Forall_impl; [ | exact Hrow].
    intros v Hv. apply rescale_in01, Hv.
Qed.

Lemma fits_slot_pic_map {A B} (f : A -> B) (three : bool) (p : picture A) :
  fits_slot three p -> fits_slot three (pic_map f p).
Proof.
  destruct p as [a | a]; cbn [fits_slot pic_map]; intros [H3 [Hh Hw]];
    (split; [exact H3 | ]).
  - split; [rewrite length_map; exact Hh | ].
    apply Forall_map. revert Hw. apply Forall_impl.
    intros row Hrow. rewrite length_map. exact Hrow.
  - unfold map3. split; [rewrite length_map; exact Hh | ].
    apply Forall_map. revert Hw. apply Forall_impl.
    intros row [Hrow Hpx]. split; [rewrite length_map; exact Hrow | ].
    apply Forall_map. revert Hpx. apply Forall_impl.
    intros px Hlen. rewrite length_map. exact Hlen.
Qed.

(** X14.  When each resized image has the shape of the slots it is copied
    to ([IMAGE_SIZE], with [N_CHANNEL] channels if the first image is 3-D),
    [resize_all] raises [IndexError] on an empty list of images (it reads
    [images[0]]) and returns otherwise: one array per image, in order, each
    the [imresize]d image divided by 255, of the shape of the slots; and as
    [imresize] returns [uint8] values, every entry lies in [[0,1]]. *)
Theorem X14_resize_all_result {P : Type} (ndim_of : P -> nat)
    (imresize : P -> nat * nat -> string -> picture Z)
    (images : list P) (interp : string) :
  (forall image, In image images ->
                 pic_all is_uint8 (imresize image IMAGE_SIZE interp)) ->
  (forall first image, nth_error images 0 = Some first -> In image images ->
     fits_slot (ndim_of first =? 3) (imresize image IMAGE_SIZE interp)) ->
  match resize_all ndim_of imresize images interp with
  | inr images_rs =>
      images <> []
      /\ length images_rs = length images
      /\ (forall i image, nth_error images i = Some image ->
            nth_error images_rs i
            = Some (pic_map rescale (imresize image IMAGE_SIZE interp)))
      /\ Forall (pic_all (fun v => F32.in01 v = true)) images_rs
      /\ (forall first, nth_error images 0 = Some first ->
            Forall (fits_slot (ndim_of first =? 3)) images_rs)
  | inl e => e = IndexError /\ images = []
  end.
Proof.
  intros Hbytes Hfits. rewrite resize_all_spec.
  destruct images as [ | first rest]; [split; reflexivity | ].
  split; [discriminate | ].
  split; [apply length_map | ]. split; [ | split].
  - intros i image Hi. rewrite nth_error_map, Hi. reflexivity.
  - apply Forall_map, Forall_forall. intros image Hin.
    apply resize_in01, Hbytes, Hin.
  - intros first' Hfirst. apply Forall_map, Forall_forall. intros image Hin.
    unfold resize. cbv zeta. apply fits_slot_pic_map.
    exact (Hfits first' image Hfirst Hin).
Qed.

Lemma nearest_mask_uint8 (mask : int_image Z) (size : nat * nat)
    (interp : string) :
  pic_all is_uint8 (nearest_mask mask size interp).
Proof.
  unfold nearest_mask. cbn [pic_all].
  apply Forall_map, Forall_forall. intros i _.
  apply Forall_map, Forall_forall. intros j _. cbv zeta.
  destruct (_ =? 0)%Z; unfold is_uint8; lia.
Qed.

Lemma nearest_mask_fits (mask : int_image Z) (interp : string) :
  fits_slot false (nearest_mask mask IMAGE_SIZE interp).
Proof.
  unfold nearest_mask. cbn [fits_slot]. split; [reflexivity | ].
  split; [rewrite length_map, length_seq; reflexivity | ].
  apply Forall_map, Forall_forall. intros i _.
  rewrite length_map, length_seq. reflexivity.
Qed.

Lemma X14_resize_all_result_witness :
  (forall image, In image [fifth_mask] ->
                 pic_all is_uint8 (nearest_mask image IMAGE_SIZE "nearest"))
  /\ (forall first image, nth_error [fifth_mask] 0 = Some first ->
        In image [fifth_mask] ->
        fits_slot ((fun _ : int_image Z => 2) first =? 3)
                  (nearest_mask image IMAGE_SIZE "nearest"))
  /\ match resize_all (fun _ => 2) nearest_mask [fifth_mask] "nearest" with
     | inr images_rs =>
         [fifth_mask] <> []
         /\ length images_rs = length [fifth_mask]
         /\ (forall i image, nth_error [fifth_mask] i = Some image ->
               nth_error images_rs i
               = Some (pic_map rescale (nearest_mask image IMAGE_SIZE "nearest")))
         /\ Forall (pic_all (fun v => F32.in01 v = true)) images_rs
         /\ (forall first, nth_error [fifth_mask] 0 = Some first ->
               Forall (fits_slot ((fun _ : int_image Z => 2) first =? 3))
                      images_rs)
     | inl e => e = IndexError /\ [fifth_mask] = []
     end.
Proof.
  assert (H : forall image, In image [fifth_mask] ->
                pic_all is_uint8 (nearest_mask image IMAGE_SIZE "nearest"))
    by (intros image _; apply nearest_mask_uint8).
  assert (Hfits : forall first image, nth_error [fifth_mask] 0 = Some first ->
                    In image [fifth_mask] ->
                    fits_slot ((fun _ : int_image Z => 2) first =? 3)
                              (nearest_mask image IMAGE_SIZE "nearest"))
    by (intros first image _ _; apply nearest_mask_fits).
  split; [exact H | ]. split; [exact Hfits | ].
  exact (X14_resize_all_result (fun _ => 2) nearest_mask [fifth_mask] "nearest"
           H Hfits).
Defined.

(** ** Deleting the rows flagged in a loop *)

Lemma mem_cons (k a : nat) (l : list nat) :
  mem k (a :: l) = (k =? a) || mem k l.
Proof. reflexivity. Qed.

Lemma mem_where_from_below (flags : list bool) (s k : nat) :
  k < s -> mem k (where_from s flags) = false.
Proof.
  intros Hk. apply not_true_is_false. intros H. apply mem_In in H.
  apply In_where_from in H. lia.
Qed.

Lemma delete_rows_flags_from {A} (rows : list A) :
  forall flags s, length flags = length rows ->
  map snd (filter (fun p => negb (mem (fst p) (where_from s flags)))
                  (combine (seq s (length rows)) rows))
  = map snd (filter (fun p : bool * A => negb (fst p)) (combine flags rows)).
Proof.
  induction rows as [ | a rows IH]; intros [ | b flags] s Hlen;
    cbn [length] in Hlen; try discriminate Hlen; try reflexivity.
  injection Hlen as Hlen.
  cbn [length seq combine filter fst where_from].
  destruct b; cbn [negb].
  - rewrite mem_cons, Nat.eqb_refl. cbn [orb negb].
    rewrite <- (IH flags (S s) Hlen). f_equal.
    apply filter_ext_in. intros [k r] Hin. cbn [fst].
    apply in_combine_l in Hin. apply in_seq in Hin.
    rewrite mem_cons. destruct (Nat.eqb_spec k s) as [-> | _]; [lia | reflexivity].
  - rewrite (mem_where_from_below flags (S s) s) by lia. cbn [negb map snd].
    f_equal. apply IH, Hlen.
Qed.

(** Deleting the rows flagged [true] keeps the rows flagged [false]. *)
Lemma delete_rows_flags {A} (rows : list A) (flags : list bool) :
  length flags = length rows ->
  delete_rows rows (where_from 0 flags)
  = map snd (filter (fun p : bool * A => negb (fst p)) (combine flags rows)).
Proof. intros Hlen. unfold delete_rows. apply delete_rows_flags_from, Hlen. Qed.

Lemma select_fst {A B} (g : A -> bool) (a : list A) :
  forall b : list B, length b = length a ->
  map snd (filter (fun p : bool * A => negb (fst p))
                  (combine (map (fun x => negb (g x)) a) a))
  = map fst (filter (fun p : A * B => g (fst p)) (combine a b)).
Proof.
  induction a as [ | x a IH]; intros [ | y b] Hlen; cbn [length] in Hlen;
    try discriminate Hlen; try reflexivity.
  injection Hlen as Hlen. cbn [map combine filter fst].
  destruct (g x); cbn [negb map fst snd]; rewrite (IH b Hlen); reflexivity.
Qed.

Lemma select_snd {A B} (g : A -> bool) (a : list A) :
  forall b : list B, length b = length a ->
  map snd (filter (fun p : bool * B => negb (fst p))
                  (combine (map (fun x => negb (g x)) a) b))
  = map snd (filter (fun p : A * B => g (fst p)) (combine a b)).
Proof.
  induction a as [ | x a IH]; intros [ | y b] Hlen; cbn [length] in Hlen;
    try discriminate Hlen; try reflexivity.
  injection Hlen as Hlen. cbn [map combine filter fst].
  destruct (g x); cbn [negb map fst snd]; rewrite (IH b Hlen); reflexivity.
Qed.

Lemma filter_fst_combine {A B} (g : A -> bool) (a : list A) :
  forall b : list B, length b = length a ->
  map fst (filter (fun p : A * B => g (fst p)) (combine a b)) = filter g a.
Proof.
  induction a as [ | x a IH]; intros [ | y b] Hlen; cbn [length] in Hlen;
    try discriminate Hlen; try reflexivity.
  injection Hlen as Hlen. cbn [combine filter fst].
  destruct (g x); cbn [map fst]; rewrite (IH b Hlen); reflexivity.
Qed.

Lemma existsb_filter {A} (g : A -> bool) (l : list A) :
  existsb g l = match filter g l with [] => false | _ :: _ => true end.
Proof.
  induction l as [ | x l IH]; cbn [existsb filter]; [reflexivity | ].
  destruct (g x); [reflexivity | exact IH].
Qed.

Lemma forallb_implb_filter {A} (f g : A -> bool) (l : list A) :
  forallb (fun p => implb (f p) (g p)) l = forallb g (filter f l).
Proof.
  induction l as [ | x l IH]; cbn [forallb filter]; [reflexivity | ].
  destruct (f x); cbn [implb forallb]; rewrite IH; reflexivity.
Qed.

Lemma forallb_map {A B} (g : B -> bool) (h : A -> B) (l : list A) :
  forallb g (map h l) = forallb (fun x => g (h x)) l.
Proof.
  induction l as [ | x l IH]; cbn [forallb map]; [reflexivity | ].
  rewrite IH. reflexivity.
Qed.

(** ** [load_samples] *)

Section LoadSamplesFacts.
Variable canny : int_image F32.t -> F32.t -> int_image bool.
Variable binary_fill_holes : int_image bool -> int_image bool.
Variable ndi_label : int_image bool -> int_image nat * nat.
Variable imresize_mask : int_image Z -> nat * nat -> string -> picture Z.
Variable imresize_image : rgb_image -> nat * nat -> string -> picture Z.

(** [find_sign_area] fails on an index only. *)
Lemma mask_of_error (image : rgb_image) (e : exn) :
  mask_of canny binary_fill_holes ndi_label image = inl e -> e = IndexError.
Proof.
  assert (Hset : forall (l : list Z) i v e', setitem l i v = inl e' -> e' = IndexError).
  { intros l i v e'. unfold setitem. destruct (i <? length l); unfold ret, raise.
    - discriminate.
    - intros H. injection H as <-. reflexivity. }
  unfold mask_of, find_sign_area. cbv zeta.
  destruct (setitem _ 0 0%Z) as [e1 | sizes] eqn:E1; cbn [bind].
  - intros H. injection H as <-. exact (Hset _ _ _ _ E1).
  - destruct (setitem _ (argmax_Z sizes) 1%Z) as [e2 | mask_sizes] eqn:E2;
      cbn [bind]; unfold ret.
    + intros H. injection H as <-. exact (Hset _ _ _ _ E2).
    + discriminate.
Qed.

Lemma load_samples_loop_fails (images : list rgb_image) :
  forallb (has_mask_at_all canny binary_fill_holes ndi_label) images = false ->
  forall i ex_ind masks_full,
    load_samples_loop canny binary_fill_holes ndi_label i images ex_ind masks_full
    = inl IndexError.
Proof.
  induction images as [ | image rest IH]; intros Hall i ex mf;
    cbn [forallb load_samples_loop] in *; [discriminate Hall | ].
  unfold has_mask_at_all in Hall at 1.
  destruct (mask_of canny binary_fill_holes ndi_label image) as [e | mask] eqn:E;
    cbn [bind].
  - rewrite (mask_of_error image e E). reflexivity.
  - cbn [andb] in Hall. destruct (check_mask mask); apply IH, Hall.
Qed.

Lemma load_samples_loop_spec (images : list rgb_image) :
  forallb (has_mask_at_all canny binary_fill_holes ndi_label) images = true ->
  forall i ex_ind masks_full,
    load_samples_loop canny binary_fill_holes ndi_label i images ex_ind masks_full
    = inr (ex_ind
           ++ where_from i
                (map (fun image =>
                        negb (has_valid_mask canny binary_fill_holes ndi_label image))
                     images),
           masks_full ++ masks_found canny binary_fill_holes ndi_label images).
Proof.
  induction images as [ | image rest IH]; intros Hall i ex mf;
    cbn [forallb load_samples_loop map where_from masks_found flat_map] in *.
  - rewrite !app_nil_r. reflexivity.
  - apply andb_true_iff in Hall. destruct Hall as [Hhd Htl].
    unfold has_mask_at_all in Hhd. unfold has_valid_mask at 1.
    destruct (mask_of canny binary_fill_holes ndi_label image) as [e | mask];
      [discriminate Hhd | ].
    cbn [bind]. destruct (check_mask mask); cbn [negb]; rewrite (IH Htl).
    + rewrite <- app_assoc. reflexivity.
    + rewrite <- app_assoc. reflexivity.
Qed.

(** Each mask found belongs to the image at its position among the images
    with a valid mask. *)
Lemma masks_found_aligned (images : list rgb_image) :
  Forall2 (fun image mask =>
             mask_of canny binary_fill_holes ndi_label image = inr mask
             /\ check_mask mask = true)
          (filter (has_valid_mask canny binary_fill_holes ndi_label) images)
          (masks_found canny binary_fill_holes ndi_label images).
Proof.
  induction images as [ | image rest IH]; cbn [filter masks_found flat_map].
  - constructor.
  - unfold has_valid_mask at 1.
    destruct (mask_of canny binary_fill_holes ndi_label image) as [e | mask] eqn:E.
    + exact IH.
    + destruct (check_mask mask) eqn:Hc; cbn [app]; [ | exact IH].
      constructor; [split; assumption | exact IH].
Qed.

Lemma load_samples_spec (images : list rgb_image) (labels : list Z) :
  length labels = length images ->
  load_samples canny binary_fill_holes ndi_label imresize_mask imresize_image
               images labels
  = if loadable canny binary_fill_holes ndi_label images labels
    then
      inr (map (fun image => resize imresize_image image "bilinear")
               (map fst (kept_pairs canny binary_fill_holes ndi_label images labels)),
           map fst (kept_pairs canny binary_fill_holes ndi_label images labels),
           map (fun c => one_hot (Z.to_nat (c mod Z.of_nat NUM_LABELS)) NUM_LABELS)
               (map snd (kept_pairs canny binary_fill_holes ndi_label images labels)),
           map (fun mask => resize imresize_mask mask "nearest")
               (masks_found canny binary_fill_holes ndi_label images),
           masks_found canny binary_fill_holes ndi_label images)
    else inl IndexError.
Proof.
  intros Hlen. unfold load_samples, loadable.
  destruct (forallb (has_mask_at_all canny binary_fill_holes ndi_label) images)
    eqn:Hall.
  - rewrite (load_samples_loop_spec images Hall 0 [] []).
    cbn [bind fst snd app andb].
    rewrite (delete_rows_flags images) by apply length_map.
    rewrite (delete_rows_flags labels) by (rewrite length_map; symmetry; exact Hlen).
    rewrite (select_fst (has_valid_mask canny binary_fill_holes ndi_label) images labels Hlen).
    rewrite (select_snd (has_valid_mask canny binary_fill_holes ndi_label) images labels Hlen).
    fold (kept_pairs canny binary_fill_holes ndi_label images labels).
    rewrite !resize_all_spec.
    pose proof (masks_found_aligned images) as Hal.
    rewrite <- (filter_fst_combine (has_valid_mask canny binary_fill_holes ndi_label)
                  images labels Hlen) in Hal.
    fold (kept_pairs canny binary_fill_holes ndi_label images labels) in Hal.
    rewrite existsb_filter.
    rewrite <- (filter_fst_combine (has_valid_mask canny binary_fill_holes ndi_label)
                  images labels Hlen).
    fold (kept_pairs canny binary_fill_holes ndi_label images labels).
    rewrite forallb_implb_filter.
    fold (kept_pairs canny binary_fill_holes ndi_label images labels).
    rewrite <- (forallb_map (class_in_range NUM_LABELS) snd).
    destruct (masks_found canny binary_fill_holes ndi_label images) as [ | mask masks];
      destruct (map fst (kept_pairs canny binary_fill_holes ndi_label images labels))
        as [ | image kept]; try (inversion Hal; fail); cbn [bind andb].
    + reflexivity.
    + unfold to_categorical.
      destruct (forallb (class_in_range NUM_LABELS)
                  (map snd (kept_pairs canny binary_fill_holes ndi_label images labels)));
        reflexivity.
  - rewrite (load_samples_loop_fails images Hall 0 [] []). reflexivity.
Qed.

Lemma forallb_false_exists {A} (f : A -> bool) (l : list A) :
  forallb f l = false <-> exists a, In a l /\ f a = false.
Proof.
  induction l as [ | a l IH]; cbn [forallb In].
  - split; [discriminate | intros [a [[] _]] ].
  - destruct (f a) eqn:E; cbn [andb].
    + rewrite IH. split.
      * intros [b [Hb Hf]]. exists b. split; [right; exact Hb | exact Hf].
      * intros [b [[<- | Hb] Hf]]; [congruence | ]. exists b. split; assumption.
    + split; [ | reflexivity]. intros _. exists a.
      split; [left; reflexivity | exact E].
Qed.

(** X15.  Let every image have pixels to label, so that [find_sign_area]
    returns a mask for it (an image without pixels is refused by [canny]),
    let there be as many labels as images, and let [imresize] return arrays
    of the shape of the slots they are copied to.  Then [load_samples] raises
    [IndexError] exactly when no image yields a mask that passes
    [check_mask] (so also for an empty directory: [resize_all] then reads
    [masks_full[0]]), or a kept image has a class outside of
    [-NUM_LABELS .. NUM_LABELS-1]. *)
Theorem X15_load_samples_fails_iff_not_loadable
    (images : list rgb_image) (labels : list Z) :
  length labels = length images ->
  forallb (has_mask_at_all canny binary_fill_holes ndi_label) images = true ->
  (forall mask interp, fits_slot false (imresize_mask mask IMAGE_SIZE interp)) ->
  (forall image interp, fits_slot true (imresize_image image IMAGE_SIZE interp)) ->
  load_samples canny binary_fill_holes ndi_label imresize_mask
               imresize_image images labels = inl IndexError
  <-> existsb (has_valid_mask canny binary_fill_holes ndi_label) images = false
      \/ exists p,
           In p (kept_pairs canny binary_fill_holes ndi_label images labels)
           /\ class_in_range NUM_LABELS (snd p) = false.
Proof.
  intros Hlen Hall _ _. rewrite (load_samples_spec images labels Hlen).
  unfold loadable. rewrite Hall. cbn [andb].
  rewrite forallb_implb_filter.
  fold (kept_pairs canny binary_fill_holes ndi_label images labels).
  rewrite <- forallb_false_exists.
  destruct (existsb (has_valid_mask canny binary_fill_holes ndi_label) images);
    cbn [andb].
  - destruct (forallb (fun p => class_in_range NUM_LABELS (snd p))
                (kept_pairs canny binary_fill_holes ndi_label images labels)).
    + split; [discriminate | intros [H | H]; discriminate H].
    + split; [intros _; right; reflexivity | reflexivity].
  - split; [intros _; left; reflexivity | reflexivity].
Qed.

(** X16.  When [load_samples] can return, it does, and its five results
    stay aligned: [x_ben_full] holds the images with a valid mask, in their
    order and at least one; [masks_full] holds at each position the mask
    [find_sign_area] finds for the image at that position, and each passes
    [check_mask]; the classes of [y_ben] are the labels of the kept images
    (a negative one counted from the end); and [x_ben] and [masks] are the
    resized [x_ben_full] and [masks_full], entry by entry. *)
Theorem X16_load_samples_results_aligned
    (images : list rgb_image) (labels : list Z) :
  length labels = length images ->
  loadable canny binary_fill_holes ndi_label images labels = true ->
  exists x_ben x_ben_full y_ben masks masks_full,
    load_samples canny binary_fill_holes ndi_label imresize_mask
                 imresize_image images labels
    = inr (x_ben, x_ben_full, y_ben, masks, masks_full)
    /\ x_ben_full <> []
    /\ x_ben_full
       = map fst (kept_pairs canny binary_fill_holes ndi_label images labels)
    /\ map Z.of_nat (to_class y_ben)
       = map (fun p => (snd p mod Z.of_nat NUM_LABELS)%Z)
             (kept_pairs canny binary_fill_holes ndi_label images labels)
    /\ Forall2 (fun image mask =>
                  mask_of canny binary_fill_holes ndi_label image = inr mask
                  /\ check_mask mask = true)
               x_ben_full masks_full
    /\ x_ben = map (fun image => resize imresize_image image "bilinear") x_ben_full
    /\ masks = map (fun mask => resize imresize_mask mask "nearest") masks_full
    /\ length y_ben = length x_ben_full.
Proof.
  intros Hlen Hok. rewrite (load_samples_spec images labels Hlen), Hok.
  do 5 eexists. split; [reflexivity | ].
  unfold loadable in Hok. apply andb_true_iff in Hok. destruct Hok as [Hok Hcls].
  apply andb_true_iff in Hok. destruct Hok as [_ Hex].
  rewrite forallb_implb_filter in Hcls.
  fold (kept_pairs canny binary_fill_holes ndi_label images labels) in Hcls.
  rewrite <- (forallb_map (class_in_range NUM_LABELS) snd) in Hcls.
  rewrite existsb_filter in Hex.
  rewrite <- (filter_fst_combine (has_valid_mask canny binary_fill_holes ndi_label)
                images labels Hlen) in Hex.
  fold (kept_pairs canny binary_fill_holes ndi_label images labels) in Hex.
  split; [intros E; rewrite E in Hex; discriminate Hex | ].
  split; [reflexivity | ].
  split.
  { rewrite (to_class_one_hot NUM_LABELS _ Hcls), !map_map.
    apply map_ext_in. intros p Hp.
    pose proof (Z.mod_pos_bound (snd p) (Z.of_nat NUM_LABELS)
                  ltac:(unfold NUM_LABELS; lia)). lia. }
  split.
  { pose proof (masks_found_aligned images) as Hal.
    rewrite <- (filter_fst_combine (has_valid_mask canny binary_fill_holes ndi_label)
                  images labels Hlen) in Hal.
    exact Hal. }
  split; [reflexivity | ]. split; [reflexivity | ].
  rewrite !length_map. reflexivity.
Qed.

End LoadSamplesFacts.

Lemma mid_gray_fits (image : rgb_image) (interp : string) :
  fits_slot true (mid_gray image IMAGE_SIZE interp).
Proof.
  unfold mid_gray. cbn [fits_slot]. split; [reflexivity | ].
  split; [apply repeat_length | ].
  apply Forall_forall. intros row Hrow. apply repeat_spec in Hrow. subst row.
  split; [apply repeat_length | ].
  apply Forall_forall. intros px Hpx. apply repeat_spec in Hpx. subst px.
  apply repeat_length.
Qed.

Lemma X15_load_samples_fails_iff_not_loadable_witness :
  length [5%Z] = length [black_image]
  /\ forallb (has_mask_at_all edge_nonzero fill_nothing label_edges)
             [black_image] = true
  /\ (forall mask interp, fits_slot false (nearest_mask mask IMAGE_SIZE interp))
  /\ (forall image interp, fits_slot true (mid_gray image IMAGE_SIZE interp))
  /\ (load_samples edge_nonzero fill_nothing label_edges nearest_mask mid_gray
                   [black_image] [5%Z] = inl IndexError
      <-> existsb (has_valid_mask edge_nonzero fill_nothing label_edges)
                  [black_image] = false
          \/ exists p,
               In p (kept_pairs edge_nonzero fill_nothing label_edges
                                [black_image] [5%Z])
               /\ class_in_range NUM_LABELS (snd p) = false).
Proof.
  assert (Hall : forallb (has_mask_at_all edge_nonzero fill_nothing label_edges)
                         [black_image] = true)
    by (vm_compute; reflexivity).
  split; [reflexivity | ]. split; [exact Hall | ].
  split; [exact nearest_mask_fits | ]. split; [exact mid_gray_fits | ].
  exact (X15_load_samples_fails_iff_not_loadable
           edge_nonzero fill_nothing label_edges nearest_mask mid_gray
           [black_image] [5%Z] eq_refl Hall nearest_mask_fits mid_gray_fits).
Defined.

Lemma X16_load_samples_results_aligned_witness :
  length [5%Z; 7%Z] = length [black_image; corner_image]
  /\ loadable edge_nonzero fill_nothing label_edges
              [black_image; corner_image] [5%Z; 7%Z] = true
  /\ exists x_ben x_ben_full y_ben masks masks_full,
       load_samples edge_nonzero fill_nothing label_edges nearest_mask mid_gray
                    [black_image; corner_image] [5%Z; 7%Z]
       = inr (x_ben, x_ben_full, y_ben, masks, masks_full)
       /\ x_ben_full <> []
       /\ x_ben_full
          = map fst (kept_pairs edge_nonzero fill_nothing label_edges
                                [black_image; corner_image] [5%Z; 7%Z])
       /\ map Z.of_nat (to_class y_ben)
          = map (fun p => (snd p mod Z.of_nat NUM_LABELS)%Z)
                (kept_pairs edge_nonzero fill_nothing label_edges
                            [black_image; corner_image] [5%Z; 7%Z])
       /\ Forall2 (fun image mask =>
                     mask_of edge_nonzero fill_nothing label_edges image = inr mask
                     /\ check_mask mask = true)
                  x_ben_full masks_full
       /\ x_ben = map (fun image => resize mid_gray image "bilinear") x_ben_full
       /\ masks = map (fun mask => resize nearest_mask mask "nearest") masks_full
       /\ length y_ben = length x_ben_full.
Proof.
  assert (Hok : loadable edge_nonzero fill_nothing label_edges
                         [black_image; corner_image] [5%Z; 7%Z] = true)
    by (vm_compute; reflexivity).
  split; [reflexivity | ]. split; [exact Hok | ].
  exact (X16_load_samples_results_aligned
           edge_nonzero fill_nothing label_edges nearest_mask mid_gray
           [black_image; corner_image] [5%Z; 7%Z] eq_refl Hok).
Defined.

(** ** What a mask protects *)

Lemma entry_map3 {A B} (f : A -> B) (a b c : nat) (x : list (list (list A))) :
  entry a b c (map3 f x) = option_map f (entry a b c x).
Proof.
  unfold entry, map3. rewrite nth_error_map.
  destruct (nth_error x a) as [row | ]; cbn [option_map]; [ | reflexivity].
  rewrite nth_error_map.
  destruct (nth_error row b) as [px | ]; cbn [option_map]; [ | reflexivity].
  apply nth_error_map.
Qed.

Lemma entry_zip3 {A B C} (f : A -> B -> C) (a b c : nat)
    (x : list (list (list A))) (y : list (list (list B))) :
  entry a b c (zip3 f x y)
  = match entry a b c x, entry a b c y with
    | Some u, Some w => Some (f u w)
    | _, _ => None
    end.
Proof.
  unfold entry, zip3. rewrite nth_error_map2.
  destruct (nth_error x a) as [rx | ], (nth_error y a) as [ry | ];
    try reflexivity.
  - rewrite nth_error_map2.
    destruct (nth_error rx b) as [px | ], (nth_error ry b) as [py | ];
      try reflexivity.
    + apply nth_error_map2.
    + destruct (nth_error px c); reflexivity.
  - destruct (nth_error rx b) as [px | ]; [ | reflexivity].
    destruct (nth_error px c); reflexivity.
Qed.

Lemma entry_mask_rep (a b c : nat) (mi : mask2) :
  c < N_CHANNEL -> entry a b c (mask_rep mi) = mask_entry a b mi.
Proof.
  intros Hc. unfold entry, mask_entry, mask_rep. rewrite nth_error_map.
  destruct (nth_error mi a) as [row | ]; cbn [option_map]; [ | reflexivity].
  rewrite nth_error_map.
  destruct (nth_error row b) as [v | ]; cbn [option_map]; [ | reflexivity].
  apply nth_error_repeat, Hc.
Qed.

Lemma entry_mask_rep_channel (a b c : nat) (mi : mask2) (w : F32.t) :
  entry a b c (mask_rep mi) = Some w -> c < N_CHANNEL.
Proof.
  unfold entry, mask_rep. rewrite nth_error_map.
  destruct (nth_error mi a) as [row | ]; cbn [option_map]; [ | discriminate].
  rewrite nth_error_map.
  destruct (nth_error row b) as [v | ]; cbn [option_map]; [ | discriminate].
  intros H. assert (Hlt : c < length (repeat v N_CHANNEL))
    by (apply nth_error_Some; congruence).
  rewrite repeat_length in Hlt. exact Hlt.
Qed.

Lemma Forall2_nth_error_r {A B} (R : A -> B -> Prop) (l : list A) (l' : list B) :
  Forall2 R l l' ->
  forall k b, nth_error l' k = Some b ->
              exists a, nth_error l k = Some a /\ R a b.
Proof.
  induction 1 as [ | a b l l' HR _ IH]; intros k b' Hk.
  - destruct k; discriminate Hk.
  - destruct k as [ | k]; cbn [nth_error] in *.
    + injection Hk as <-. exists a. split; [reflexivity | exact HR].
    + apply IH, Hk.
Qed.

(** Arrays of one shape have their entries at the same places. *)
Lemma same_shape_entry {A B} (g : list (list (list A)))
    (x : list (list (list B))) (a b c : nat) (v : B) :
  same_shape g x -> entry a b c x = Some v ->
  exists w, entry a b c g = Some w.
Proof.
  unfold same_shape, Rel3, entry. intros H Hv.
  destruct (nth_error x a) as [rx | ] eqn:Ea; [ | discriminate Hv].
  destruct (Forall2_nth_error_r _ g x H a rx Ea) as [rg [Eg Hrow]]. rewrite Eg.
  destruct (nth_error rx b) as [px | ] eqn:Eb; [ | discriminate Hv].
  destruct (Forall2_nth_error_r _ rg rx Hrow b px Eb) as [pg [Epg Hpx]].
  rewrite Epg.
  destruct (Forall2_nth_error_r _ pg px Hpx c v Hv) as [w [Ew _]].
  exists w. exact Ew.
Qed.

Lemma All3_entry {A} (P : A -> Prop) (x : list (list (list A)))
    (a b c : nat) (v : A) :
  All3 P x -> entry a b c x = Some v -> P v.
Proof.
  unfold All3, entry. intros H Hv.
  destruct (nth_error x a) as [row | ] eqn:Ea; [ | discriminate Hv].
  destruct (nth_error row b) as [px | ] eqn:Eb; [ | discriminate Hv].
  rewrite Forall_forall in H. specialize (H row (nth_error_In _ _ Ea)).
  rewrite Forall_forall in H. specialize (H px (nth_error_In _ _ Eb)).
  rewrite Forall_forall in H. exact (H v (nth_error_In _ _ Hv)).
Qed.

(** One step of the masked attack, clipped, keeps what the mask hides. *)
Lemma masked_step_frame (x_i grad : sample) (mi : mask2) (mag : F32.t) :
  unit_range x_i -> same_shape grad x_i -> same_shape (mask_rep mi) x_i ->
  all_finite grad ->
  nonzero_norm (norm (zip3 F32.mul grad (mask_rep mi))) = true ->
  F32.is_finite mag = true ->
  frame_kept mi x_i
    (clip01 (step x_i
               (map3 (fun v => F32.div v (norm (zip3 F32.mul grad (mask_rep mi))))
                     (zip3 F32.mul grad (mask_rep mi)))
               mag)).
Proof.
  intros Hx Hg Hm Hfin Hn Hmag a b c v mkv Hv Hmk Hz.
  destruct (same_shape_entry grad x_i a b c v Hg Hv) as [g0 Eg].
  destruct (same_shape_entry (mask_rep mi) x_i a b c v Hm Hv) as [w Ew].
  pose proof (entry_mask_rep_channel a b c mi w Ew) as Hc.
  rewrite (entry_mask_rep a b c mi Hc), Hmk in Ew. injection Ew as <-.
  unfold clip01, step.
  rewrite entry_map3, entry_zip3, Hv, !entry_map3, entry_zip3, Eg.
  rewrite (entry_mask_rep a b c mi Hc), Hmk. cbn [option_map].
  eexists. split; [reflexivity | ].
  apply masked_entry_kept.
  - exact (All3_entry _ x_i a b c v Hx Hv).
  - exact (All3_entry _ grad a b c g0 Hfin Eg).
  - exact Hz.
  - exact Hn.
  - exact Hmag.
Qed.

Lemma entry_clip01 (a b c : nat) (u : sample) :
  entry a b c (clip01 u)
  = option_map (F32.clip F32.zero F32.one) (entry a b c u).
Proof. apply entry_map3. Qed.

(** X17.  With masks, [fg] changes the sign area only: if each sample lies
    in [[0,1]], its gradient is finite and of its shape, and what the mask
    leaves of the gradient has a norm one can divide by, then for any
    finite magnitudes [fg] returns, and in every slot every entry at which
    the sample's mask is 0 is the input entry (up to the sign of a zero). *)
Theorem X17_fg_keeps_entries_outside_mask (m : Model) (x : list sample)
    (y : list label) (mag_list : list F32.t) (target : bool)
    (mk : list mask2) :
  Forall (fun mag => F32.is_finite mag = true) mag_list ->
  fg_masked_regular m x y target mk ->
  exists out,
    fg m x y mag_list target (Some mk) = inr out
    /\ length out = length mag_list
    /\ forall j slot i x_i mi,
         nth_error out j = Some slot -> nth_error x i = Some x_i ->
         nth_error mk i = Some mi ->
         exists r, nth_error slot i = Some r /\ frame_kept mi x_i r.
Proof.
  intros Hmags Hreg.
  destruct (@fg_spec m y mag_list target (Some mk)
              (fun k x_k u => forall mi, nth_error mk k = Some mi ->
                                         frame_kept mi x_k (clip01 u))
              (fun k x_k r => forall mi, nth_error mk k = Some mi ->
                                         frame_kept mi x_k r) x)
    as [out [Hout [Hlen Hslots]]].
  - auto.
  - intros k x_k Hk.
    destruct (Hreg k x_k Hk)
      as [y_k [mi [Hy [Hmi [Hx [Hg [Hm [Hfin Hn]]]]]]]].
    exists (zip3 F32.mul (Fg.retrieve_gradient m target x_k y_k) (mask_rep mi)).
    split.
    + unfold Fg.masked_gradient, Fg.apply_mask.
      rewrite (getitem_some y k Hy). cbn [bind].
      rewrite (getitem_some mk k Hmi). reflexivity.
    + intros mag Hin mi' Hmi'. rewrite Hmi in Hmi'. injection Hmi' as <-.
      apply masked_step_frame; try assumption.
      rewrite Forall_forall in Hmags. apply Hmags, Hin.
  - exists out. split; [exact Hout | ]. split; [exact Hlen | ].
    intros j slot i x_i mi Hj Hi Hmi.
    rewrite Forall_forall in Hslots.
    destruct (Hslots slot (nth_error_In _ _ Hj)) as [_ Hpost].
    destruct (Hpost i x_i Hi) as [r [Hr HQ]].
    exists r. split; [exact Hr | exact (HQ mi Hmi)].
Qed.

Lemma two_pixels_masked_regular :
  fg_masked_regular ones_model two_pixels one_label false left_mask.
Proof.
  intros [ | i] x_i Hi; [ | destruct i; discriminate Hi].
  injection Hi as <-.
  eexists. eexists. split; [reflexivity | ]. split; [reflexivity | ].
  split; [repeat constructor | ].
  split; [repeat constructor | ].
  split; [repeat constructor | ].
  split; [repeat constructor | ].
  vm_compute. reflexivity.
Qed.

Lemma X17_fg_keeps_entries_outside_mask_witness :
  exists out,
    fg ones_model two_pixels one_label [pixel_half; F32.one] false (Some left_mask)
    = inr out
    /\ length out = length [pixel_half; F32.one]
    /\ forall j slot i x_i mi,
         nth_error out j = Some slot -> nth_error two_pixels i = Some x_i ->
         nth_error left_mask i = Some mi ->
         exists r, nth_error slot i = Some r /\ frame_kept mi x_i r.
Proof.
  apply X17_fg_keeps_entries_outside_mask.
  - repeat constructor.
  - exact two_pixels_masked_regular.
Defined.

(** One clipped step from [x_cur] keeps what the mask hides of [x0], if
    [x_cur] has kept it so far. *)
Lemma masked_step_frame_from (x0 x_cur grad : sample) (mi : mask2)
    (mag : F32.t) :
  frame_kept mi x0 x_cur ->
  same_shape grad x_cur -> same_shape (mask_rep mi) x0 -> all_finite grad ->
  nonzero_norm (norm (zip3 F32.mul grad (mask_rep mi))) = true ->
  F32.is_finite mag = true ->
  frame_kept mi x0
    (clip01 (step x_cur
               (map3 (fun v => F32.div v (norm (zip3 F32.mul grad (mask_rep mi))))
                     (zip3 F32.mul grad (mask_rep mi)))
               mag)).
Proof.
  intros Hkept Hg Hm Hfin Hn Hmag a b c v mkv Hv Hmk Hz.
  destruct (Hkept a b c v mkv Hv Hmk Hz) as [u [Eu Hu]].
  destruct (same_shape_entry grad x_cur a b c u Hg Eu) as [g0 Eg].
  destruct (same_shape_entry (mask_rep mi) x0 a b c v Hm Hv) as [w Ew].
  pose proof (entry_mask_rep_channel a b c mi w Ew) as Hc.
  unfold clip01, step.
  rewrite entry_map3, entry_zip3, Eu, !entry_map3, entry_zip3, Eg.
  rewrite (entry_mask_rep a b c mi Hc), Hmk. cbn [option_map].
  eexists. split; [reflexivity | ].
  apply kept_trans with (b := u); [ | exact Hu].
  apply masked_entry_kept.
  - exact (proj2 Hu).
  - exact (All3_entry _ grad a b c g0 Hfin Eg).
  - exact Hz.
  - exact Hn.
  - exact Hmag.
Qed.

Lemma frame_kept_refl (mi : mask2) (x_i : sample) :
  unit_range x_i -> frame_kept mi x_i x_i.
Proof.
  intros Hx a b c v mkv Hv _ _. exists v. split; [exact Hv | ].
  apply kept_refl. exact (All3_entry _ x_i a b c v Hx Hv).
Qed.

(** However many steps [iterative] takes on a sample, what the mask hides
    stays as it was. *)
Lemma steps_frame (m : Model) (y : list label) (i : nat) (ss : F32.t)
    (target : option bool) (mi : mask2) (x_i : sample) (y_i : label)
    (n : nat) :
  F32.is_finite ss = true -> nth_error y i = Some y_i ->
  unit_range x_i -> same_shape (mask_rep mi) x_i ->
  (forall j x_cur, j < n ->
     Iterative.steps m y i ss target (Some (mask_rep mi)) j x_i = inr x_cur ->
     same_shape (Iterative.retrieve_gradient m target x_cur y_i) x_cur
     /\ all_finite (Iterative.retrieve_gradient m target x_cur y_i)
     /\ nonzero_norm
          (norm (zip3 F32.mul (Iterative.retrieve_gradient m target x_cur y_i)
                      (mask_rep mi))) = true) ->
  exists r, Iterative.steps m y i ss target (Some (mask_rep mi)) n x_i = inr r
            /\ same_shape r x_i /\ frame_kept mi x_i r.
Proof.
  intros Hss Hy Hx Hm Hreg.
  apply (@steps_path_inv
           (fun x_cur => same_shape x_cur x_i /\ frame_kept mi x_i x_cur)
           m y i ss target (Some (mask_rep mi)) x_i n).
  - split; [apply same_shape_refl | apply frame_kept_refl, Hx].
  - intros j x_cur Hj Hreach [Hsh Hkept].
    destruct (Hreg j x_cur Hj Hreach) as [Hg [Hfin Hn]].
    unfold Iterative.masked_gradient. rewrite (getitem_some y i Hy).
    cbn [bind ret Iterative.apply_mask].
    eexists. split; [reflexivity | ]. split.
    + apply same_shape_trans with (b := x_cur); [ | exact Hsh].
      apply step_same_shape. apply same_shape_map3_l.
      apply same_shape_trans
        with (b := Iterative.retrieve_gradient m target x_cur y_i);
        [ | exact Hg].
      apply same_shape_zip3_l.
      apply same_shape_trans with (b := x_cur); [exact Hg | ].
      apply same_shape_trans with (b := x_i); [exact Hsh | ].
      apply same_shape_sym, Hm.
    + apply masked_step_frame_from; assumption.
Qed.

(** X18.  With masks, [iterative] changes the sign area only, whatever the
    number of steps: if each sample lies in [[0,1]] and has a label and a
    mask of its shape and, at each point where a step starts, the gradient
    is finite and of the sample's shape and what the mask leaves of it has
    a norm one can divide by, then for any finite step size [iterative]
    returns, and every entry at which the sample's mask is 0 is the input
    entry (up to the sign of a zero). *)
Theorem X18_iterative_keeps_entries_outside_mask (m : Model) (x : list sample)
    (y : list label) (n_step : nat) (ss : F32.t) (target : option bool)
    (mk : list mask2) :
  F32.is_finite ss = true ->
  iterative_masked_regular m x y n_step ss target mk ->
  exists out,
    iterative m x y n_step ss target (Some mk) = inr out
    /\ length out = length x
    /\ forall i x_i mi,
         nth_error x i = Some x_i -> nth_error mk i = Some mi ->
         exists r, nth_error out i = Some r /\ frame_kept mi x_i r.
Proof.
  intros Hss Hreg. unfold iterative.
  destruct (@iterative_loop_inv m y n_step ss target (Some mk)
              (fun k x_k r => forall mi, nth_error mk k = Some mi ->
                                         frame_kept mi x_k r)
              x 0 (map zeros_like x))
    as [out [Hout [Hlen [_ Hpost]]]].
  - rewrite length_map. reflexivity.
  - intros k x_k Hk. cbn [Nat.add].
    destruct (Hreg k x_k Hk) as [y_k [mi [Hy [Hmi [Hx [Hm Hg]]]]]].
    destruct (steps_frame m y k ss target mi x_k y_k n_step Hss Hy Hx Hm Hg)
      as [r [Hr [_ Hkept]]].
    exists r. split.
    + unfold Iterative.attack_sample, Iterative.get_mask_rep.
      rewrite (getitem_some mk k Hmi). cbn [bind ret]. exact Hr.
    + intros mi' Hmi'. rewrite Hmi in Hmi'. injection Hmi' as <-. exact Hkept.
  - exists out. split; [exact Hout | ].
    split; [rewrite Hlen; apply length_map | ].
    intros i x_i mi Hi Hmi.
    destruct (Hpost i x_i Hi) as [r [Hr HQ]].
    exists r. split; [exact Hr | exact (HQ mi Hmi)].
Qed.

(** A model whose gradient is its input, on two pixels of which the mask
    hides the right one: the conditions hold along the three steps, though
    not at every array. *)
Lemma two_pixels_masked_regular_iterative :
  iterative_masked_regular class1_model two_pixels one_label 3 pixel_half
                           (Some true) left_mask.
Proof.
  intros [ | i] x_i Hi; [ | destruct i; discriminate Hi].
  injection Hi as <-.
  eexists. eexists. split; [reflexivity | ]. split; [reflexivity | ].
  split; [repeat constructor | ].
  split; [repeat constructor | ].
  intros j x_cur Hj Hreach.
  destruct j as [ | [ | [ | j] ] ]; [ | | | lia];
    vm_compute in Hreach; injection Hreach as <-;
    (split; [repeat constructor | split; [repeat constructor | ] ]);
    vm_compute; reflexivity.
Qed.

Lemma X18_iterative_keeps_entries_outside_mask_witness :
  exists out,
    iterative class1_model two_pixels one_label 3 pixel_half (Some true)
              (Some left_mask) = inr out
    /\ length out = length two_pixels
    /\ forall i x_i mi,
         nth_error two_pixels i = Some x_i -> nth_error left_mask i = Some mi ->
         exists r, nth_error out i = Some r /\ frame_kept mi x_i r.
Proof.
  apply X18_iterative_keeps_entries_outside_mask.
  - reflexivity.
  - exact two_pixels_masked_regular_iterative.
Defined.

(** ** Images without any closed shape *)

Section Featureless.
Variable canny : int_image F32.t -> F32.t -> int_image bool.
Variable binary_fill_holes : int_image bool -> int_image bool.
Variable ndi_label : int_image bool -> int_image nat * nat.

(** X19.  An image in which labelling finds no component is never kept by
    [load_samples]: [find_sign_area] returns for it the mask that is 1 on
    every pixel, whose area ratio [check_mask] rejects, whatever the size of
    the image (below 2^51 pixels). *)
Theorem X19_featureless_image_has_no_valid_mask (image : rgb_image) :
  let label_objects :=
    fst (ndi_label (binary_fill_holes (canny (rgb2gray image) F32.one))) in
  rectangular label_objects ->
  Forall (Forall (eq 0)) label_objects ->
  (0 < Z.of_nat (height label_objects * width label_objects)
   < 2251799813685248)%Z ->
  mask_of canny binary_fill_holes ndi_label image
  = inr (map (map (fun _ => 1%Z)) label_objects)
  /\ check_mask (map (map (fun _ => 1%Z)) label_objects) = false
  /\ has_valid_mask canny binary_fill_holes ndi_label image = false.
Proof.
  intros L Hrect Hzero Harea.
  assert (Hne : concat L <> []).
  { intros E. pose proof (length_concat_rectangular Hrect) as Hl.
    rewrite E in Hl. cbn [length] in Hl. lia. }
  assert (Hmask : mask_of canny binary_fill_holes ndi_label image
                  = inr (map (map (fun _ => 1%Z)) L)).
  { unfold mask_of.
    exact (find_sign_area_background_only canny binary_fill_holes ndi_label
             (rgb2gray image) F32.one Hne Hzero). }
  assert (Hh : height (map (map (fun _ : nat => 1%Z)) L) = height L)
    by (unfold height; apply length_map).
  assert (Hw : width (map (map (fun _ : nat => 1%Z)) L) = width L).
  { unfold width. destruct L as [ | row rest]; [reflexivity | ].
    cbn [map hd]. apply length_map. }
  assert (Hcheck : check_mask (map (map (fun _ => 1%Z)) L) = false).
  { apply check_mask_all_ones.
    - unfold rectangular. rewrite Hw. apply Forall_map.
      revert Hrect. unfold rectangular. apply Forall_impl.
      intros row Hrow. rewrite length_map. exact Hrow.
    - apply Forall_map, Forall_forall. intros row _.
      apply Forall_map, Forall_forall. intros l _. reflexivity.
    - rewrite Hh, Hw. exact Harea. }
  split; [exact Hmask | ]. split; [exact Hcheck | ].
  unfold has_valid_mask. rewrite Hmask. exact Hcheck.
Qed.

End Featureless.

Lemma X19_featureless_image_has_no_valid_mask_witness :
  let label_objects :=
    fst (label_edges (fill_nothing (edge_nonzero (rgb2gray black_image) F32.one))) in
  rectangular label_objects
  /\ Forall (Forall (eq 0)) label_objects
  /\ (0 < Z.of_nat (height label_objects * width label_objects)
      < 2251799813685248)%Z
  /\ mask_of edge_nonzero fill_nothing label_edges black_image
     = inr (map (map (fun _ => 1%Z)) label_objects)
  /\ check_mask (map (map (fun _ => 1%Z)) label_objects) = false
  /\ has_valid_mask edge_nonzero fill_nothing label_edges black_image = false.
Proof.
  cbv zeta.
  assert (Hrect : rectangular
            (fst (label_edges (fill_nothing
                    (edge_nonzero (rgb2gray black_image) F32.one)))))
    by (repeat constructor).
  assert (Hzero : Forall (Forall (eq 0))
            (fst (label_edges (fill_nothing
                    (edge_nonzero (rgb2gray black_image) F32.one)))))
    by (repeat constructor).
  assert (Harea : (0 < Z.of_nat
                     (height (fst (label_edges (fill_nothing
                        (edge_nonzero (rgb2gray black_image) F32.one))))
                      * width (fst (label_edges (fill_nothing
                        (edge_nonzero (rgb2gray black_image) F32.one)))))
                   < 2251799813685248)%Z)
    by (vm_compute; split; reflexivity).
  split; [exact Hrect | ]. split; [exact Hzero | ]. split; [exact Harea | ].
  exact (X19_featureless_image_has_no_valid_mask
           edge_nonzero fill_nothing label_edges black_image Hrect Hzero Harea).
Defined.

(** ** [eval_adv]: the rates 0.0 and 1.0 *)

Section Extremes.
Local Open Scope Z_scope.

(** A positive integer below 2^53 divided by itself gives 1.0 exactly. *)
Lemma div_self (a : Z) :
  0 < a < 9007199254740992 -> F64.div (F64.of_Z a) (F64.of_Z a) = F64.of_Z 1.
Proof.
  intros Ha.
  destruct (of_Z_pos a Ha) as [m2 [c2 [E2 [Hc2 [_ Hb2]]]]].
  rewrite E2.
  destruct (SFdiv_bound m2 m2 c2 c2 Hb2 Hb2 Hc2 Hc2)
    as [m [k [E [Hm [Hk [Hlo Hhi]]]]]].
  rewrite E. clear E E2.
  assert (Hm2 : 0 < Zpos m2) by (clear; lia).
  set (M2 := Zpos m2) in *. set (M := Zpos m) in *.
  assert (Hlo' : (2 ^ k * (2 * M - 1)) * M2 <= 18014398509481984 * M2).
  { replace ((2 ^ k * (2 * M - 1)) * M2) with (2 ^ k * ((2 * M - 1) * M2)) by ring.
    replace (18014398509481984 * M2) with (2 * (M2 * 9007199254740992)) by ring.
    exact Hlo. }
  assert (Hhi' : 18014398509481984 * M2 <= (2 ^ k * (2 * M + 1)) * M2).
  { replace ((2 ^ k * (2 * M + 1)) * M2) with (2 ^ k * ((2 * M + 1) * M2)) by ring.
    replace (18014398509481984 * M2) with (2 * (M2 * 9007199254740992)) by ring.
    exact Hhi. }
  apply le_cancel_r in Hlo'; [ | exact Hm2].
  apply le_cancel_r in Hhi'; [ | exact Hm2].
  clear Hlo Hhi Hb2 Hm2 Hc2.
  assert (Hk1 : k = 1).
  { destruct (Z.eq_dec k 0) as [-> | H0].
    - change (2 ^ 0) with 1 in Hhi'. clear - Hhi' Hm. lia.
    - destruct (Z.eq_dec k 1) as [-> | H1]; [reflexivity | ].
      assert (k = 2) by lia. subst k.
      change (2 ^ 2) with 4 in Hlo'. clear - Hlo' Hm. lia. }
  subst k. change (2 ^ 1) with 2 in Hlo', Hhi'.
  assert (HM : M = 4503599627370496) by (clear - Hlo' Hhi' Hm; lia).
  unfold M in HM. injection HM as ->.
  replace (c2 - c2 - 53 + 1) with (-52) by lia. reflexivity.
Qed.

(** Fewer successes than samples give a rate other than 1.0. *)
Lemma rate_below_one (s a : Z) :
  0 < s -> s < a -> a < 9007199254740992 ->
  F64.div (F64.of_Z s) (F64.of_Z a) <> F64.of_Z 1.
Proof.
  intros Hs Hsa Ha Hone.
  destruct (quotient_bound s a ltac:(lia) ltac:(lia))
    as [m [c1 [c2 [k [E [Hm [Hc1 [Hc2 [Hk [Hlo _]]]]]]]]]].
  rewrite E in Hone. clear E.
  change (F64.of_Z 1) with (S754_finite false 4503599627370496 (-52)) in Hone.
  injection Hone as Em Ee.
  assert (HM : Zpos m = 4503599627370496) by (rewrite Em; reflexivity).
  clear Em Hm.
  assert (Hd : c2 + k = c1 + 1) by lia. clear Ee.
  assert (Hpow : 2 ^ k * 2 ^ c2 = 2 * 2 ^ c1).
  { rewrite <- Z.pow_add_r by lia. replace (k + c2) with (c1 + 1) by lia.
    rewrite Z.pow_add_r by lia. change (2 ^ 1) with 2. ring. }
  rewrite Hpow, HM in Hlo.
  assert (HX : 0 < 2 ^ c1) by (apply Z.pow_pos_nonneg; lia).
  set (X := 2 ^ c1) in *.
  assert (H1 : (18014398509481982 * a) * X <= (18014398509481984 * s) * X).
  { replace ((18014398509481982 * a) * X)
      with ((2 * 4503599627370496 - 1) * a * (2 * X)) by ring.
    exact Hlo. }
  apply le_cancel_r in H1; [ | exact HX].
  clear - H1 Hs Hsa Ha. lia.
Qed.

(** The rate is 1.0 exactly for [n] successes out of [n], and 0.0 exactly
    for none. *)
Lemma rate_extremes (s : Z) (n : nat) :
  0 <= s <= Z.of_nat n -> 0 < Z.of_nat n < 9007199254740992 ->
  (rate s n = F64.of_Z 1 <-> s = Z.of_nat n)
  /\ (rate s n = F64.of_Z 0 <-> s = 0).
Proof.
  intros Hs Hn. unfold rate. set (a := Z.of_nat n) in *. split; split.
  - intros H1. destruct (Z.eq_dec s a) as [E | E]; [exact E | exfalso].
    destruct (Z.eq_dec s 0) as [-> | H0].
    + destruct (of_Z_pos a Hn) as [m2 [c2 [E2 _]]]. rewrite E2 in H1.
      discriminate H1.
    + apply (rate_below_one s a); [lia | lia | lia | exact H1].
  - intros ->. apply div_self. exact Hn.
  - intros H0. destruct (Z.eq_dec s 0) as [E | E]; [exact E | exfalso].
    destruct (quotient_bound s a ltac:(lia) Hn) as [m [c1 [c2 [k [Eq _]]]]].
    rewrite Eq in H0. discriminate H0.
  - intros ->. destruct (of_Z_pos a Hn) as [m2 [c2 [E2 _]]]. rewrite E2.
    reflexivity.
Qed.

End Extremes.

Lemma filter_length_all {A} (f : A -> bool) (l : list A) :
  length (filter f l) = length l <-> forall a, In a l -> f a = true.
Proof.
  induction l as [ | a l IH]; cbn [filter length In].
  - split; [intros _ b [] | reflexivity].
  - pose proof (filter_length_le f l) as Hle.
    destruct (f a) eqn:E; cbn [length].
    + split.
      * intros H b [<- | Hb]; [exact E | ]. apply IH; [lia | exact Hb].
      * intros H. f_equal. apply IH. intros b Hb. apply H. right. exact Hb.
    + split; [intros H; lia | ].
      intros H. specialize (H a (or_introl eq_refl)). congruence.
Qed.

Lemma filter_length_none {A} (f : A -> bool) (l : list A) :
  length (filter f l) = 0 <-> forall a, In a l -> f a = false.
Proof.
  induction l as [ | a l IH]; cbn [filter length In].
  - split; [intros _ b [] | reflexivity].
  - destruct (f a) eqn:E; cbn [length].
    + split; [discriminate | ].
      intros H. specialize (H a (or_introl eq_refl)). congruence.
    + split.
      * intros H b [<- | Hb]; [exact E | ]. apply IH; assumption.
      * intros H. apply IH. intros b Hb. apply H. right. exact Hb.
Qed.

Lemma count_all_below (f : nat -> bool) (n : nat) :
  length (filter f (seq 0 n)) = n <-> forall i, i < n -> f i = true.
Proof.
  pose proof (filter_length_all f (seq 0 n)) as H. rewrite length_seq in H.
  rewrite H. split.
  - intros Hall i Hi. apply Hall. apply in_seq. lia.
  - intros Hall i Hi. apply Hall. apply in_seq in Hi. lia.
Qed.

Lemma count_none_below (f : nat -> bool) (n : nat) :
  length (filter f (seq 0 n)) = 0 <-> forall i, i < n -> f i = false.
Proof.
  rewrite filter_length_none. split.
  - intros Hall i Hi. apply Hall. apply in_seq. lia.
  - intros Hall i Hi. apply Hall. apply in_seq in Hi. lia.
Qed.

(** The count of [np.sum] is the number of samples that count as a
    success. *)
Lemma successes_count_where (target : bool) (y_t y_ : list nat) :
  length y_ = length y_t ->
  successes target y_t y_
  = Z.of_nat (length (filter (success_at target y_t y_) (seq 0 (length y_t)))).
Proof.
  intros Hlen. unfold successes, count_eq, count_ne, success_at.
  destruct target; rewrite (@count_true_map2 _ y_t y_ Hlen); reflexivity.
Qed.

(** X20.  For a 4-D batch with at least one label (fewer than 2^53) and one
    prediction per label, the rate [eval_adv] returns is 1.0 exactly when
    every sample counts as a success, and 0.0 exactly when none does: the
    division in double precision neither rounds a smaller proportion up to
    1.0 nor a positive one down to 0.0. *)
Theorem X20_eval_adv_rate_extremes
    (m : Model) (x_adv : ndarray) (y : list label) (target : bool) :
  ndim x_adv = 4 ->
  (0 < Z.of_nat (length y) < 9007199254740992)%Z ->
  length (predict m x_adv) = length y ->
  exists r,
    eval_adv m x_adv y target = ([], PyFloat r)
    /\ (r = F64.of_Z 1
        <-> forall i, i < length y ->
              success_at target (to_class y) (to_class (predict m x_adv)) i
              = true)
    /\ (r = F64.of_Z 0
        <-> forall i, i < length y ->
              success_at target (to_class y) (to_class (predict m x_adv)) i
              = false).
Proof.
  intros Hrank Hn Hpred. unfold eval_adv. rewrite Hrank. cbn [Nat.eqb].
  eexists. split; [reflexivity | ].
  assert (Hly : length (to_class y) = length y) by apply length_map.
  assert (Hlp : length (to_class (predict m x_adv)) = length (to_class y))
    by (unfold to_class; rewrite !length_map; exact Hpred).
  pose proof (successes_bounds target (to_class y) (to_class (predict m x_adv)))
    as Hb.
  rewrite Hly in Hb.
  destruct (rate_extremes _ _ Hb Hn) as [H1 H0].
  split.
  - rewrite H1, (successes_count_where target _ _ Hlp), Hly, Nat2Z.inj_iff.
    apply count_all_below.
  - rewrite H0, (successes_count_where target _ _ Hlp), Hly.
    change 0%Z with (Z.of_nat 0). rewrite Nat2Z.inj_iff.
    apply count_none_below.
Qed.

Lemma X20_eval_adv_rate_extremes_witness :
  ndim rank4_array = 4
  /\ (0 < Z.of_nat (length two_labels) < 9007199254740992)%Z
  /\ length (predict class1_model rank4_array) = length two_labels
  /\ exists r,
       eval_adv class1_model rank4_array two_labels true = ([], PyFloat r)
       /\ (r = F64.of_Z 1
           <-> forall i, i < length two_labels ->
                 success_at true (to_class two_labels)
                            (to_class (predict class1_model rank4_array)) i
                 = true)
       /\ (r = F64.of_Z 0
           <-> forall i, i < length two_labels ->
                 success_at true (to_class two_labels)
                            (to_class (predict class1_model rank4_array)) i
                 = false).
Proof.
  assert (Hn : (0 < Z.of_nat (length two_labels) < 9007199254740992)%Z)
    by (cbn; lia).
  split; [reflexivity | ]. split; [exact Hn | ]. split; [reflexivity | ].
  exact (X20_eval_adv_rate_extremes class1_model rank4_array two_labels true
           eq_refl Hn eq_refl).
Defined.
